(** * Chess rule engine: move validation, special moves, notation and the
      per-ply state machine of the board component.

    Shallow embedding of [src/utils/chessLogic.ts] (validator, notation
    encoder and special-move resolver), of the board component's
    [handleSquareClick] / [executeMove]
    ([src/components/ChessBoardWithCoordinates.tsx]) and of the
    [useChessGame] hook ([handlePromotion], [handlePromotionCancel]).

    Conventions of the embedding:
    - a JavaScript number used as a coordinate is an integer of [Z];
    - [null], [undefined] and array holes are all falsy and only ever
      tested for truthiness by the code, so a board cell is an
      [option ChessPiece];
    - a computation that may throw lives in the [result] monad:
      indexing [undefined] (a row that does not exist) is [TypeError];
    - the two [while] loops of the sliding pieces run on fuel, and
      [OutOfFuel] is shown unreachable for the fuel the model supplies. *)

From Stdlib Require Import ZArith List String Ascii Bool Lia.
From stdpp Require Import base list.
Import ListNotations.

Local Open Scope Z_scope.

(** ** Data model ([types/chess.ts]) *)

Inductive PieceType := pawn | rook | knight | bishop | queen | king.
Inductive PieceColor := white | black.

(** [Square = [number, number]], row first. *)
Definition Square : Type := Z * Z.

Record ChessPiece := mkPiece { type : PieceType; color : PieceColor }.

Definition PieceType_eqb (a b : PieceType) : bool :=
  match a, b with
  | pawn, pawn | rook, rook | knight, knight
  | bishop, bishop | queen, queen | king, king => true
  | _, _ => false
  end.

Definition PieceColor_eqb (a b : PieceColor) : bool :=
  match a, b with
  | white, white | black, black => true
  | _, _ => false
  end.

(** A cell holds a piece or a falsy value ([null], [undefined], a hole). *)
Abbreviation Cell := (option ChessPiece).

Definition truthy (c : Cell) : bool :=
  match c with Some _ => true | None => false end.

(** A row is a JavaScript array.  [elems] are its indexed elements;
    [props] are the properties created by an assignment at a negative
    index ([row[-1] = x] does not touch the elements, but [row[-1]]
    reads [x] back afterwards). *)
Record Row := mkRow { elems : list Cell; props : list (Z * Cell) }.

Abbreviation Board := (list Row).

(** ** Outcomes of an evaluation *)

Inductive result (A : Type) : Type :=
| Ok (a : A)
| TypeError
| OutOfFuel.
Arguments Ok {A} a.
Arguments TypeError {A}.
Arguments OutOfFuel {A}.

#[global] Instance result_ret : MRet result := fun A a => Ok a.
#[global] Instance result_bind : MBind result := fun A B f m =>
  match m with
  | Ok a => f a
  | TypeError => TypeError
  | OutOfFuel => OutOfFuel
  end.

(** ** Array reads and writes *)

Fixpoint lookupProp (ps : list (Z * Cell)) (c : Z) : Cell :=
  match ps with
  | [] => None
  | (k, v) :: ps' => if k =? c then v else lookupProp ps' c
  end.

(** [row[c]]: out of range is [undefined], never an exception. *)
Definition rowGet (row : Row) (c : Z) : Cell :=
  if 0 <=? c then default None (elems row !! Z.to_nat c)
  else lookupProp (props row) c.

(** [row[c] = v]: inside the array it replaces, past the end it extends
    the array (the cells skipped are holes, which read [undefined]), at a
    negative index it sets a property. *)
Definition rowSet (row : Row) (c : Z) (v : Cell) : Row :=
  if 0 <=? c then
    let n := Z.to_nat c in
    if (n <? length (elems row))%nat
    then mkRow (<[n := v]> (elems row)) (props row)
    else mkRow (elems row ++ repeat None (n - length (elems row)) ++ [v])
               (props row)
  else mkRow (elems row) ((c, v) :: props row).

(** [board[r]]: [None] stands for [undefined]. *)
Definition getRow (board : Board) (r : Z) : option Row :=
  if 0 <=? r then board !! Z.to_nat r else None.

(** [board[r][c]]: throws when [board[r]] is [undefined]. *)
Definition getCell (board : Board) (sq : Square) : result Cell :=
  match getRow board (fst sq) with
  | Some row => Ok (rowGet row (snd sq))
  | None => TypeError
  end.

(** [board[r][c] = v]: throws when [board[r]] is [undefined]. *)
Definition setCell (board : Board) (sq : Square) (v : Cell) : result Board :=
  match getRow board (fst sq) with
  | Some row => Ok (<[Z.to_nat (fst sq) := rowSet row (snd sq) v]> board)
  | None => TypeError
  end.

(** [board.map(row => [...row])]: the spread copies the elements only. *)
Definition copyBoard (board : Board) : Board :=
  map (fun row => mkRow (elems row) []) board.

(** ** Moves and game state ([types/chess.ts]) *)

Record Move := mkMove {
  from : Square;
  to : Square;
  piece : ChessPiece;
  capturedPiece : option ChessPiece;
  notation : string;
  timestamp : Z;
  isCastling : bool;
  isEnPassant : bool;
  isPromotion : bool;
  promotedTo : option PieceType
}.

Record Player := mkPlayer {
  name : string;
  playerColor : PieceColor;
  rating : option Z
}.

Record Players := mkPlayers { whitePlayer : Player; blackPlayer : Player }.

Record CapturedPieces := mkCaptured {
  capturedByWhite : list ChessPiece;
  capturedByBlack : list ChessPiece
}.

Record CastlingRights := mkRights {
  whiteKingSide : bool;
  whiteQueenSide : bool;
  blackKingSide : bool;
  blackQueenSide : bool
}.

Record PromotionPending := mkPending {
  square : Square;
  pendingColor : PieceColor
}.

Record GameState := mkState {
  board : Board;
  currentPlayer : PieceColor;
  selectedSquare : option Square;
  validMoves : list Square;
  isCheck : bool;
  isCheckmate : bool;
  gameOver : bool;
  moves : list Move;
  capturedPieces : CapturedPieces;
  players : Players;
  castlingRights : CastlingRights;
  enPassantTarget : option Square;
  promotionPending : option PromotionPending
}.

(** ** Initial position ([createInitialBoard], [createInitialGameState]) *)

Definition pieceOrder : list PieceType :=
  [rook; knight; bishop; queen; king; bishop; knight; rook].

Definition fullRow (cells : list Cell) : Row := mkRow cells [].

Definition createInitialBoard : Board :=
  [ fullRow (map (fun t => Some (mkPiece t black)) pieceOrder);
    fullRow (repeat (Some (mkPiece pawn black)) 8);
    fullRow (repeat None 8);
    fullRow (repeat None 8);
    fullRow (repeat None 8);
    fullRow (repeat None 8);
    fullRow (repeat (Some (mkPiece pawn white)) 8);
    fullRow (map (fun t => Some (mkPiece t white)) pieceOrder) ].

Definition createInitialGameState : GameState :=
  {| board := createInitialBoard;
     currentPlayer := white;
     selectedSquare := None;
     validMoves := [];
     isCheck := false;
     isCheckmate := false;
     gameOver := false;
     moves := [];
     capturedPieces := mkCaptured [] [];
     players := mkPlayers (mkPlayer "White Player" white (Some 1200))
                          (mkPlayer "Black Player" black (Some 1200));
     castlingRights := mkRights true true true true;
     enPassantTarget := None;
     promotionPending := None |}.

(** ** Move validator ([chessLogic.ts]) *)

Definition isSquareOnBoard (sq : Square) : bool :=
  let '(row, col) := sq in
  (0 <=? row) && (row <? 8) && (0 <=? col) && (col <? 8).

Definition isSameSquare (square1 square2 : Square) : bool :=
  (fst square1 =? fst square2) && (snd square1 =? snd square2).

(** [color === 'white' ? -1 : 1] and [color === 'white' ? 6 : 1]. *)
Definition direction (c : PieceColor) : Z :=
  match c with white => -1 | black => 1 end.

Definition startRow (c : PieceColor) : Z :=
  match c with white => 6 | black => 1 end.

Definition isValidPawnMove (from to : Square) (color : PieceColor)
    (board : Board) (gameState : option GameState) : result bool :=
  let '(fromRow, fromCol) := from in
  let '(toRow, toCol) := to in
  (* Forward move *)
  forward ←
    (if fromCol =? toCol then
       one ← (if toRow =? fromRow + direction color
              then c ← getCell board (toRow, toCol); mret (negb (truthy c))
              else mret false);
       if one : bool then mret true
       else
         (* Two squares from start *)
         if (fromRow =? startRow color) && (toRow =? fromRow + 2 * direction color)
         then c ← getCell board (toRow, toCol); mret (negb (truthy c))
         else mret false
     else mret false);
  if forward : bool then mret true
  else
    (* Diagonal capture *)
    if (Z.abs (fromCol - toCol) =? 1) && (toRow =? fromRow + direction color) then
      c ← getCell board (toRow, toCol);
      if truthy c then mret true
      else
        (* En passant capture *)
        match gameState with
        | Some gs =>
            match enPassantTarget gs with
            | Some target => mret (isSameSquare to target)
            | None => mret false
            end
        | None => mret false
        end
    else mret false.

(** The scan shared by the rook and the bishop:
    [while (currentRow !== toRow || currentCol !== toCol)]. *)
Fixpoint pathLoop (fuel : nat) (board : Board)
    (currentRow currentCol rowDir colDir toRow toCol : Z) : result bool :=
  match fuel with
  | O => OutOfFuel
  | S fuel' =>
      if negb (currentRow =? toRow) || negb (currentCol =? toCol) then
        c ← getCell board (currentRow, currentCol);
        if truthy c then mret false
        else pathLoop fuel' board (currentRow + rowDir) (currentCol + colDir)
                      rowDir colDir toRow toCol
      else mret true
  end.

Definition isValidRookMove (from to : Square) (board : Board) : result bool :=
  let '(fromRow, fromCol) := from in
  let '(toRow, toCol) := to in
  if negb (fromRow =? toRow) && negb (fromCol =? toCol) then mret false
  else
    let rowDir := if fromRow =? toRow then 0
                  else (toRow - fromRow) / Z.abs (toRow - fromRow) in
    let colDir := if fromCol =? toCol then 0
                  else (toCol - fromCol) / Z.abs (toCol - fromCol) in
    pathLoop (S (Z.to_nat (Z.abs (toRow - fromRow) + Z.abs (toCol - fromCol))))
             board (fromRow + rowDir) (fromCol + colDir) rowDir colDir toRow toCol.

(** With [from = to] both directions are [0 / 0 = NaN]; the loop test
    [NaN !== toRow] holds and [board[NaN][NaN]] indexes [undefined]. *)
Definition isValidBishopMove (from to : Square) (board : Board) : result bool :=
  let '(fromRow, fromCol) := from in
  let '(toRow, toCol) := to in
  if negb (Z.abs (fromRow - toRow) =? Z.abs (fromCol - toCol)) then mret false
  else if toRow - fromRow =? 0 then TypeError
  else
    let rowDir := (toRow - fromRow) / Z.abs (toRow - fromRow) in
    let colDir := (toCol - fromCol) / Z.abs (toCol - fromCol) in
    pathLoop (S (Z.to_nat (Z.abs (toRow - fromRow))))
             board (fromRow + rowDir) (fromCol + colDir) rowDir colDir toRow toCol.

Definition isValidKnightMove (from to : Square) : bool :=
  let rowDiff := Z.abs (fst from - fst to) in
  let colDiff := Z.abs (snd from - snd to) in
  ((rowDiff =? 2) && (colDiff =? 1)) || ((rowDiff =? 1) && (colDiff =? 2)).

Definition isValidQueenMove (from to : Square) (board : Board) : result bool :=
  r ← isValidRookMove from to board;
  if r : bool then mret true else isValidBishopMove from to board.

(** [gameState.castlingRights[color === 'white' ? 'whiteKingSide' : 'blackKingSide']] *)
Definition kingSideRight (r : CastlingRights) (c : PieceColor) : bool :=
  match c with white => whiteKingSide r | black => blackKingSide r end.

Definition queenSideRight (r : CastlingRights) (c : PieceColor) : bool :=
  match c with white => whiteQueenSide r | black => blackQueenSide r end.

Definition kingRowOf (c : PieceColor) : Z :=
  match c with white => 7 | black => 0 end.

Definition isRookOf (color : PieceColor) (c : Cell) : bool :=
  match c with
  | Some (mkPiece t cl) => PieceType_eqb t rook && PieceColor_eqb cl color
  | None => false
  end.

Definition isValidKingMove (from to : Square) (board : Board)
    (gameState : option GameState) : result bool :=
  let '(fromRow, fromCol) := from in
  let '(toRow, toCol) := to in
  let rowDiff := Z.abs (fromRow - toRow) in
  let colDiff := Z.abs (fromCol - toCol) in
  (* Regular king move *)
  if (rowDiff <=? 1) && (colDiff <=? 1) && (0 <? rowDiff + colDiff) then mret true
  else
    (* Castling *)
    match gameState with
    | Some gs =>
        if (rowDiff =? 0) && (colDiff =? 2) then
          p ← getCell board (fromRow, fromCol);
          match p with
          | None => mret false
          | Some (mkPiece t color) =>
              if negb (PieceType_eqb t king) then mret false
              else
                let kingRow := kingRowOf color in
                if negb (fromRow =? kingRow) || negb (fromCol =? 4) then mret false
                else if toCol =? 6 then
                  (* King side castling *)
                  if negb (kingSideRight (castlingRights gs) color) then mret false
                  else
                    c5 ← getCell board (kingRow, 5);
                    if truthy c5 then mret false
                    else
                      c6 ← getCell board (kingRow, 6);
                      if truthy c6 then mret false
                      else
                        r ← getCell board (kingRow, 7);
                        mret (isRookOf color r)
                else if toCol =? 2 then
                  (* Queen side castling *)
                  if negb (queenSideRight (castlingRights gs) color) then mret false
                  else
                    c1 ← getCell board (kingRow, 1);
                    if truthy c1 then mret false
                    else
                      c2 ← getCell board (kingRow, 2);
                      if truthy c2 then mret false
                      else
                        c3 ← getCell board (kingRow, 3);
                        if truthy c3 then mret false
                        else
                          r ← getCell board (kingRow, 0);
                          mret (isRookOf color r)
                else mret false
          end
        else mret false
    | None => mret false
    end.

(** [targetPiece && targetPiece.color === piece.color] *)
Definition sameColor (targetPiece : Cell) (pc : ChessPiece) : bool :=
  match targetPiece with
  | Some tp => PieceColor_eqb (color tp) (color pc)
  | None => false
  end.

(** The validator's entry point; the spec calls it [isLegalMove]. *)
Definition isValidMove (from to : Square) (board : Board)
    (gameState : option GameState) : result bool :=
  p ← getCell board from;
  match p with
  | None => mret false
  | Some pc =>
      targetPiece ← getCell board to;
      if sameColor targetPiece pc then mret false
      else
        (* Basic move validation by piece type *)
        match type pc with
        | pawn => isValidPawnMove from to (color pc) board gameState
        | rook => isValidRookMove from to board
        | knight => mret (isValidKnightMove from to)
        | bishop => isValidBishopMove from to board
        | queen => isValidQueenMove from to board
        | king => isValidKingMove from to board gameState
        end
  end.

(** ** Notation encoder ([utils/notation.ts]) *)

Local Open Scope string_scope.

Definition FILES : list string := ["a"; "b"; "c"; "d"; "e"; "f"; "g"; "h"].
Definition RANKS : list string := ["8"; "7"; "6"; "5"; "4"; "3"; "2"; "1"].

(** [TABLE[i]] spliced into a string: an index outside the table reads
    [undefined], which concatenation renders as the text "undefined". *)
Definition tableAt (table : list string) (i : Z) : string :=
  if (0 <=? i)%Z then default "undefined" (table !! Z.to_nat i)
  else "undefined".

Definition squareToNotation (sq : Square) : string :=
  let '(row, col) := sq in tableAt FILES col ++ tableAt RANKS row.

(** The string values of [PieceType]. *)
Definition typeName (t : PieceType) : string :=
  match t with
  | pawn => "pawn" | rook => "rook" | knight => "knight"
  | bishop => "bishop" | queen => "queen" | king => "king"
  end.

(** [c.toUpperCase()] on one ASCII character. *)
Definition upperAscii (c : ascii) : ascii :=
  let n := nat_of_ascii c in
  if ((97 <=? n) && (n <=? 122))%nat then ascii_of_nat (n - 32) else c.

(** [s.charAt(0).toUpperCase()] *)
Definition charAt0Upper (s : string) : string :=
  match s with
  | EmptyString => EmptyString
  | String c _ => String (upperAscii c) EmptyString
  end.

(** A string is truthy when it is not empty. *)
Definition nonEmpty (s : string) : bool :=
  match s with EmptyString => false | String _ _ => true end.

Definition generateMoveNotation (from to : Square) (piece : ChessPiece)
    (capturedPiece : option ChessPiece) (isCastling isEnPassant isPromotion : bool)
    (promotedTo : option string) : string :=
  (* Castling notation *)
  if isCastling then
    if (snd from <? snd to)%Z then "O-O" else "O-O-O"
  else
    let toNotation := squareToNotation to in
    let notation := "" in
    (* Add piece symbol (except for pawns) *)
    let notation :=
      if negb (PieceType_eqb (type piece) pawn)
      then notation ++ charAt0Upper (typeName (type piece)) else notation in
    (* Add capture notation *)
    let notation :=
      if truthy capturedPiece || isEnPassant then
        (if PieceType_eqb (type piece) pawn
         then notation ++ tableAt FILES (snd from) else notation) ++ "x"
      else notation in
    (* Add destination square *)
    let notation := notation ++ toNotation in
    (* Add en passant notation *)
    let notation := if isEnPassant then notation ++ " e.p." else notation in
    (* Add promotion notation *)
    match promotedTo with
    | Some p =>
        if isPromotion && nonEmpty p
        then notation ++ "=" ++ charAt0Upper p else notation
    | None => notation
    end.

Local Close Scope string_scope.

(** ** Special-move resolver ([utils/specialMoves.ts]) *)

Definition isCastlingMove (from to : Square) (piece : ChessPiece) : bool :=
  if negb (PieceType_eqb (type piece) king) then false
  else (fst from =? fst to) && (Z.abs (snd from - snd to) =? 2).

Definition isEnPassantMove (from to : Square) (piece : ChessPiece)
    (gameState : GameState) : bool :=
  if negb (PieceType_eqb (type piece) pawn) then false
  else
    match enPassantTarget gameState with
    | None => false
    | Some target =>
        (Z.abs (snd from - snd to) =? 1)
        && (fst to =? fst from + direction (color piece))
        && isSameSquare to target
    end.

Definition isPromotionMove (from to : Square) (piece : ChessPiece) : bool :=
  if negb (PieceType_eqb (type piece) pawn) then false
  else (PieceColor_eqb (color piece) white && (fst to =? 0))
       || (PieceColor_eqb (color piece) black && (fst to =? 7)).

Definition executeCastling (board : Board) (from to : Square) : result Board :=
  let newBoard := copyBoard board in
  let '(fromRow, fromCol) := from in
  let toCol := snd to in
  king ← getCell newBoard (fromRow, fromCol);
  if negb (truthy king) then mret newBoard
  else
    (* Move king *)
    newBoard ← setCell newBoard (fromRow, fromCol) None;
    newBoard ← setCell newBoard (fromRow, toCol) king;
    (* Move rook *)
    if toCol =? 6 then
      rook ← getCell newBoard (fromRow, 7);
      newBoard ← setCell newBoard (fromRow, 7) None;
      setCell newBoard (fromRow, 5) rook
    else if toCol =? 2 then
      rook ← getCell newBoard (fromRow, 0);
      newBoard ← setCell newBoard (fromRow, 0) None;
      setCell newBoard (fromRow, 3) rook
    else mret newBoard.

Definition executeEnPassant (board : Board) (from to : Square)
    (piece : ChessPiece) : result (Board * Cell) :=
  let newBoard := copyBoard board in
  let '(toRow, toCol) := to in
  (* Move pawn *)
  newBoard ← setCell newBoard from None;
  newBoard ← setCell newBoard (toRow, toCol) (Some piece);
  (* Remove captured pawn *)
  let capturedPawnRow :=
    if PieceColor_eqb (color piece) white then toRow + 1 else toRow - 1 in
  capturedPiece ← getCell newBoard (capturedPawnRow, toCol);
  newBoard ← setCell newBoard (capturedPawnRow, toCol) None;
  mret (newBoard, capturedPiece).

Definition updateCastlingRights (gameState : GameState) (move : Move)
    : CastlingRights :=
  let newRights := castlingRights gameState in
  let '(fromRow, fromCol) := from move in
  let p := piece move in
  (* King moves disable all castling for that color *)
  let newRights :=
    if PieceType_eqb (type p) king then
      match color p with
      | white => mkRights false false (blackKingSide newRights) (blackQueenSide newRights)
      | black => mkRights (whiteKingSide newRights) (whiteQueenSide newRights) false false
      end
    else newRights in
  (* Rook moves disable castling on that side *)
  if PieceType_eqb (type p) rook then
    if PieceColor_eqb (color p) white && (fromRow =? 7) then
      let newRights :=
        if fromCol =? 0
        then mkRights (whiteKingSide newRights) false
                      (blackKingSide newRights) (blackQueenSide newRights)
        else newRights in
      if fromCol =? 7
      then mkRights false (whiteQueenSide newRights)
                    (blackKingSide newRights) (blackQueenSide newRights)
      else newRights
    else if PieceColor_eqb (color p) black && (fromRow =? 0) then
      let newRights :=
        if fromCol =? 0
        then mkRights (whiteKingSide newRights) (whiteQueenSide newRights)
                      (blackKingSide newRights) false
        else newRights in
      if fromCol =? 7
      then mkRights (whiteKingSide newRights) (whiteQueenSide newRights)
                    false (blackQueenSide newRights)
      else newRights
    else newRights
  else newRights.

Definition updateEnPassantTarget (move : Move) : option Square :=
  let fromRow := fst (from move) in
  let '(toRow, toCol) := to move in
  (* Pawn moves two squares forward sets en passant target *)
  if PieceType_eqb (type (piece move)) pawn && (Z.abs (fromRow - toRow) =? 2) then
    let targetRow :=
      if PieceColor_eqb (color (piece move)) white then fromRow - 1 else fromRow + 1 in
    Some (targetRow, toCol)
  else None.

(** ** Game-state manager
    ([components/ChessBoardWithCoordinates.tsx], [hooks/useChessGame.ts])

    The handlers read the snapshot [gameState] and hand a whole new
    snapshot to [onGameStateChange] / [setGameState]; a handler that
    returns without calling the setter yields the snapshot unchanged.
    [now] is the value [Date.now()] reads when the move is recorded. *)

(** [newCapturedPieces[capturedPiece.color === 'white' ? 'black' : 'white'].push(capturedPiece)];
    [capturedByWhite] and [capturedByBlack] are the fields
    [capturedPieces.white] and [capturedPieces.black].  The source pushes
    onto the array the previous snapshot still holds; the lists here are
    those of the new snapshot. *)
Definition pushCaptured (cp : CapturedPieces) (capturedPiece : Cell) : CapturedPieces :=
  match capturedPiece with
  | None => cp
  | Some p =>
      if PieceColor_eqb (color p) white
      then mkCaptured (capturedByWhite cp) (capturedByBlack cp ++ [p])
      else mkCaptured (capturedByWhite cp ++ [p]) (capturedByBlack cp)
  end.

Definition otherPlayer (c : PieceColor) : PieceColor :=
  match c with white => black | black => white end.

(** [executeMove], written twice in the source (in the board component
    and in the hook) with the same body. *)
Definition executeMove (now : Z) (gameState : GameState) (from to : Square)
    (movingPiece : ChessPiece) (promotedTo : option PieceType) : result GameState :=
  let newBoard := copyBoard (board gameState) in
  capturedPiece ← getCell newBoard to;
  (* Handle special moves *)
  let isCastling := isCastlingMove from to movingPiece in
  let isEnPassant := isEnPassantMove from to movingPiece gameState in
  '(newBoard, capturedPiece) ←
    (if isCastling then
       nb ← executeCastling newBoard from to; mret (nb, capturedPiece)
     else if isEnPassant then
       executeEnPassant newBoard from to movingPiece
     else
       (* Regular move *)
       nb ← setCell newBoard from None;
       nb ← setCell nb to (Some movingPiece);
       (* Handle promotion *)
       match promotedTo with
       | Some t =>
           nb ← setCell nb to (Some (mkPiece t (color movingPiece)));
           mret (nb, capturedPiece)
       | None => mret (nb, capturedPiece)
       end);
  (* Update captured pieces *)
  let newCapturedPieces := pushCaptured (capturedPieces gameState) capturedPiece in
  (* Generate notation *)
  let notation :=
    generateMoveNotation from to movingPiece capturedPiece isCastling isEnPassant
      (bool_decide (is_Some promotedTo)) (typeName <$> promotedTo) in
  let newMove :=
    {| from := from; to := to; piece := movingPiece;
       capturedPiece := capturedPiece; notation := notation; timestamp := now;
       isCastling := isCastling; isEnPassant := isEnPassant;
       isPromotion := bool_decide (is_Some promotedTo);
       promotedTo := promotedTo |} in
  (* Update game state *)
  let newCastlingRights := updateCastlingRights gameState newMove in
  let newEnPassantTarget := updateEnPassantTarget newMove in
  mret {| board := newBoard;
          currentPlayer := otherPlayer (currentPlayer gameState);
          selectedSquare := None;
          validMoves := [];
          isCheck := isCheck gameState;
          isCheckmate := isCheckmate gameState;
          gameOver := gameOver gameState;
          moves := moves gameState ++ [newMove];
          capturedPieces := newCapturedPieces;
          players := players gameState;
          castlingRights := newCastlingRights;
          enPassantTarget := newEnPassantTarget;
          promotionPending := None |}.

(** The 64 destinations, in the order of the two nested [for] loops. *)
Definition allSquares : list Square :=
  flat_map (fun row => map (fun col => (row, col)) (seqZ 0 8)) (seqZ 0 8).

Fixpoint filterValidMoves (gameState : GameState) (from : Square) (board : Board)
    (tos : list Square) : result (list Square) :=
  match tos with
  | [] => mret []
  | to :: rest =>
      ok ← isValidMove from to board (Some gameState);
      validMoves ← filterValidMoves gameState from board rest;
      mret (if ok : bool then to :: validMoves else validMoves)
  end.

Definition getValidMovesForPiece (gameState : GameState) (from : Square)
    (board : Board) : result (list Square) :=
  filterValidMoves gameState from board allSquares.

(** [{...gameState, selectedSquare, validMoves}] *)
Definition withSelection (gameState : GameState) (sel : option Square)
    (vm : list Square) : GameState :=
  {| board := board gameState;
     currentPlayer := currentPlayer gameState;
     selectedSquare := sel;
     validMoves := vm;
     isCheck := isCheck gameState;
     isCheckmate := isCheckmate gameState;
     gameOver := gameOver gameState;
     moves := moves gameState;
     capturedPieces := capturedPieces gameState;
     players := players gameState;
     castlingRights := castlingRights gameState;
     enPassantTarget := enPassantTarget gameState;
     promotionPending := promotionPending gameState |}.

(** [{...gameState, promotionPending}] *)
Definition withPromotionPending (gameState : GameState)
    (pp : option PromotionPending) : GameState :=
  {| board := board gameState;
     currentPlayer := currentPlayer gameState;
     selectedSquare := selectedSquare gameState;
     validMoves := validMoves gameState;
     isCheck := isCheck gameState;
     isCheckmate := isCheckmate gameState;
     gameOver := gameOver gameState;
     moves := moves gameState;
     capturedPieces := capturedPieces gameState;
     players := players gameState;
     castlingRights := castlingRights gameState;
     enPassantTarget := enPassantTarget gameState;
     promotionPending := pp |}.

(** [piece && piece.color === gameState.currentPlayer] *)
Definition ownPiece (gameState : GameState) (c : Cell) : bool :=
  match c with
  | Some p => PieceColor_eqb (color p) (currentPlayer gameState)
  | None => false
  end.

(** Selecting a square: shared by both branches of [handleSquareClick]. *)
Definition selectSquare (gameState : GameState) (sq : Square) : result GameState :=
  validMoves ← getValidMovesForPiece gameState sq (board gameState);
  mret (withSelection gameState (Some sq) validMoves).

Definition handleSquareClick (now : Z) (gameState : GameState) (sq : Square)
    : result GameState :=
  piece ← getCell (board gameState) sq;
  match selectedSquare gameState with
  | Some selected =>
      if isSameSquare selected sq then mret (withSelection gameState None [])
      else
        ok ← isValidMove selected sq (board gameState) (Some gameState);
        if ok : bool then
          movingPiece ← getCell (board gameState) selected;
          match movingPiece with
          | None => mret gameState
          | Some movingPiece =>
              (* Check for promotion *)
              if isPromotionMove selected sq movingPiece
              then mret (withPromotionPending gameState
                           (Some (mkPending sq (color movingPiece))))
              else executeMove now gameState selected sq movingPiece None
          end
        else if ownPiece gameState piece then selectSquare gameState sq
        else mret (withSelection gameState None [])
  | None =>
      if ownPiece gameState piece then selectSquare gameState sq
      else mret gameState
  end.

Definition handlePromotion (now : Z) (gameState : GameState)
    (pieceType : PieceType) : result GameState :=
  match promotionPending gameState, selectedSquare gameState with
  | Some pending, Some selected =>
      movingPiece ← getCell (board gameState) selected;
      match movingPiece with
      | None => mret gameState
      | Some movingPiece =>
          executeMove now gameState selected (square pending) movingPiece
                      (Some pieceType)
      end
  | _, _ => mret gameState
  end.

Definition handlePromotionCancel (prevState : GameState) : GameState :=
  withPromotionPending (withSelection prevState None []) None.

Definition handleNewGame : GameState := createInitialGameState.

(** The actions the interface offers, and one step of the machine.  An
    exception thrown by a handler reaches no setter: the snapshot stays. *)
Inductive Action :=
| Click (sq : Square)
| Promote (pieceType : PieceType)
| CancelPromotion
| NewGame.

Definition keep (gameState : GameState) (r : result GameState) : GameState :=
  match r with Ok s => s | _ => gameState end.

Definition step (gameState : GameState) (ev : Z * Action) : GameState :=
  let '(now, a) := ev in
  match a with
  | Click sq => keep gameState (handleSquareClick now gameState sq)
  | Promote t => keep gameState (handlePromotion now gameState t)
  | CancelPromotion => handlePromotionCancel gameState
  | NewGame => handleNewGame
  end.

Definition run (gameState : GameState) (evs : list (Z * Action)) : GameState :=
  fold_left step evs gameState.

(** Clicks with the clock ignored, for concrete games. *)
Definition clicks (sqs : list Square) : list (Z * Action) :=
  map (fun sq => (0, Click sq)) sqs.

(** ** Display helpers
    ([components/ChessBoardWithCoordinates.tsx], [components/MoveHistory.tsx]) *)

(** [(actualRow + actualCol) % 2 === 0]; [%] takes the sign of the
    dividend, as [Z.rem] does. *)
Definition isLight (sq : Square) : bool :=
  Z.rem (fst sq + snd sq) 2 =? 0.

(** What one [ChessSquare] receives: its coordinates, the piece drawn on
    it and its shade. *)
Record SquareView := mkView {
  viewSquare : Square;
  viewPiece : Cell;
  viewLight : bool
}.

(** [flipped ? [...xs].reverse() : xs] *)
Definition displayOrder {A} (flipped : bool) (xs : list A) : list A :=
  if flipped then reverse xs else xs.

(** [flipped ? 7 - index : index] *)
Definition actualIndex (flipped : bool) (index : nat) : Z :=
  if flipped then 7 - Z.of_nat index else Z.of_nat index.

(** The two nested [map]s that draw the board. *)
Definition renderBoard (flipped : bool) (board : Board) : list (list SquareView) :=
  imap (fun rowIndex row =>
          imap (fun colIndex piece =>
                  let actualRow := actualIndex flipped rowIndex in
                  let actualCol := actualIndex flipped colIndex in
                  let square := (actualRow, actualCol) in
                  mkView square piece (isLight square))
               (displayOrder flipped (elems row)))
       (displayOrder flipped board).

(** [isSquareSelected] and [isSquareValidMove] *)
Definition isSquareSelected (gameState : GameState) (sq : Square) : bool :=
  match selectedSquare gameState with
  | Some selected => isSameSquare selected sq
  | None => false
  end.

Definition isSquareValidMove (gameState : GameState) (sq : Square) : bool :=
  existsb (fun move => isSameSquare move sq) (validMoves gameState).

(** [MoveHistory]: the moves paired by full move. *)
Record GroupedMove := mkGroup {
  moveNumber : Z;
  whiteMove : Move;
  blackMove : option Move
}.

(** [for (let i = 0; i < moves.length; i += 2)]; the fuel bounds the
    number of rounds. *)
Fixpoint groupLoop (fuel : nat) (moves : list Move) (i : nat) : list GroupedMove :=
  match fuel with
  | O => []
  | S fuel' =>
      match moves !! i with
      | Some w =>
          mkGroup (Z.of_nat i / 2 + 1) w (moves !! (i + 1)%nat)
          :: groupLoop fuel' moves (i + 2)
      | None => []
      end
  end.

Definition groupedMoves (moves : list Move) : list GroupedMove :=
  groupLoop (length moves) moves 0.

(** * Vocabulary of the properties *)

(** ** Positions reached by play, used as concrete inputs *)

(** The position after 1. Nf3 a6: the white knight stands on f3, in front
    of the pawn of f2. *)
Definition afterNf3 : GameState :=
  run createInitialGameState (clicks [(7, 6); (5, 5); (1, 0); (2, 0)]).

(** A game that brings a white pawn to b7 and then sends it to a8:
    1. a4 b5 2. axb5 a6 3. bxa6 Bb7 4. axb7 Nc6, then b7 is selected. *)
Definition pawnOnB7Selected : GameState :=
  run createInitialGameState
    (clicks [(6, 0); (4, 0); (1, 1); (3, 1); (4, 0); (3, 1); (1, 0); (2, 0);
             (3, 1); (2, 0); (0, 2); (1, 1); (2, 0); (1, 1); (0, 1); (2, 2);
             (1, 1)]).

(** ... and the click on a8 that leaves the promotion pending. *)
Definition promotionIsPending : GameState :=
  run pawnOnB7Selected (clicks [(0, 0)]).

(** The position after 1. e4 a6 2. Be2 b6 3. Nf3 c6: white may castle
    on the king's side. *)
Definition readyToCastle : GameState :=
  run createInitialGameState
    (clicks [(6, 4); (4, 4); (1, 0); (2, 0); (7, 5); (6, 4); (1, 1); (2, 1);
             (7, 6); (5, 5); (1, 2); (2, 2)]).

(** The position after 1. e4 a6 2. e5 d5: the black d-pawn has just
    passed d6, next to the white pawn of e5. *)
Definition enPassantReady : GameState :=
  run createInitialGameState
    (clicks [(6, 4); (4, 4); (1, 0); (2, 0); (4, 4); (3, 4); (1, 3); (3, 3)]).

(** ** Boards of 8 by 8 *)

(** The board the callers work with: 8 rows that are plain arrays of 8
    cells. *)
Definition wfRow (row : Row) : Prop :=
  length (elems row) = 8%nat /\ props row = [].

Definition wfBoard (board : Board) : Prop :=
  length board = 8%nat /\ Forall wfRow board.

(** ** Castling *)

(** The corner the rook must stand on, and the right that must be held,
    for a king going from [from] towards [to]. *)
Definition rookCorner (from to : Square) : Z :=
  if snd from <? snd to then 7 else 0.

Definition castlingRightFor (r : CastlingRights) (c : PieceColor)
    (from to : Square) : bool :=
  if snd from <? snd to then kingSideRight r c else queenSideRight r c.

(** The rights a move takes away, in the specification's words: a king
    takes both rights of its color, a rook leaving its own starting
    corner takes the right of that side, any other move takes none. *)
Definition keepsWhiteKingSide (m : Move) : bool :=
  match type (piece m), color (piece m) with
  | king, white => false
  | rook, white => negb (isSameSquare (from m) (7, 7))
  | _, _ => true
  end.

Definition keepsWhiteQueenSide (m : Move) : bool :=
  match type (piece m), color (piece m) with
  | king, white => false
  | rook, white => negb (isSameSquare (from m) (7, 0))
  | _, _ => true
  end.

Definition keepsBlackKingSide (m : Move) : bool :=
  match type (piece m), color (piece m) with
  | king, black => false
  | rook, black => negb (isSameSquare (from m) (0, 7))
  | _, _ => true
  end.

Definition keepsBlackQueenSide (m : Move) : bool :=
  match type (piece m), color (piece m) with
  | king, black => false
  | rook, black => negb (isSameSquare (from m) (0, 0))
  | _, _ => true
  end.

(** Pointwise order on rights: nothing cleared is set again. *)
Definition rightsLe (r' r : CastlingRights) : Prop :=
  (whiteKingSide r' = true -> whiteKingSide r = true) /\
  (whiteQueenSide r' = true -> whiteQueenSide r = true) /\
  (blackKingSide r' = true -> blackKingSide r = true) /\
  (blackQueenSide r' = true -> blackQueenSide r = true).

(** ** Promotion *)

(** The farthest rank for a color. *)
Definition finalRank (c : PieceColor) : Z :=
  match c with white => 0 | black => 7 end.

(** ** En-passant window *)

(** A pawn advance of two ranks, in the pawn's own direction. *)
Definition isTwoRankAdvance (m : Move) : bool :=
  PieceType_eqb (type (piece m)) pawn
  && (fst (to m) =? fst (from m) + 2 * direction (color (piece m))).

(** The square passed over: the rank between [from] and [to], in the
    file of arrival. *)
Definition squarePassedOver (m : Move) : Square :=
  ((fst (from m) + fst (to m)) / 2, snd (to m)).

(** The en-passant window as the specification words it, at one move:
    the square passed over for a two-rank advance, nothing otherwise. *)
Definition enPassantWindowClaim (m : Move) : Prop :=
  if isTwoRankAdvance m
  then updateEnPassantTarget m = Some (squarePassedOver m)
  else updateEnPassantTarget m = None.

(** ** Turn order *)

(** The movers' colors alternate, [next] moving first. *)
Fixpoint alternating (next : PieceColor) (ms : list Move) : Prop :=
  match ms with
  | [] => True
  | m :: ms' => color (piece m) = next /\ alternating (otherPlayer next) ms'
  end.

(** Who is to move after [ms], when [first] moved first. *)
Fixpoint turnAfter (first : PieceColor) (ms : list Move) : PieceColor :=
  match ms with
  | [] => first
  | _ :: ms' => turnAfter (otherPlayer first) ms'
  end.

(** The selected square, if any, holds a piece of the player to move. *)
Definition selectionOwned (s : GameState) : Prop :=
  forall sel, selectedSquare s = Some sel ->
    exists p, getCell (board s) sel = Ok (Some p) /\ color p = currentPlayer s.

(** What one step may do to the history. *)
Definition nothingCommitted (s s' : GameState) : Prop :=
  moves s' = moves s /\ currentPlayer s' = currentPlayer s /\ board s' = board s.

Definition oneMoveCommitted (s s' : GameState) : Prop :=
  exists m, moves s' = moves s ++ [m] /\
            color (piece m) = currentPlayer s /\
            currentPlayer s' = otherPlayer (currentPlayer s).

Definition turnInvariant (s : GameState) : Prop :=
  alternating white (moves s) /\
  currentPlayer s = turnAfter white (moves s) /\
  selectionOwned s.

(** ** Lines of the sliding pieces *)

(** [from] and [to] share a row or a column, and every square strictly
    between them reads as empty. *)
Definition straightClear (board : Board) (from to : Square) : Prop :=
  (fst from = fst to /\
   forall c, Z.min (snd from) (snd to) < c < Z.max (snd from) (snd to) ->
             getCell board (fst from, c) = Ok None) \/
  (snd from = snd to /\
   forall r, Z.min (fst from) (fst to) < r < Z.max (fst from) (fst to) ->
             getCell board (r, snd from) = Ok None).

(** [from] and [to] are distinct squares of one diagonal, and every
    square strictly between them reads as empty. *)
Definition diagonalClear (board : Board) (from to : Square) : Prop :=
  from <> to /\
  Z.abs (fst from - fst to) = Z.abs (snd from - snd to) /\
  forall j, 0 < j < Z.abs (fst to - fst from) ->
            getCell board (fst from + j * Z.sgn (fst to - fst from),
                           snd from + j * Z.sgn (snd to - snd from)) = Ok None.

(** ** Destinations *)

(** The destination can be read and holds no piece of the mover's
    color. *)
Definition landingAllowed (board : Board) (to : Square) (p : ChessPiece) : Prop :=
  exists target, getCell board to = Ok target /\ sameColor target p = false.

(** The en-passant test of the validator. *)
Definition enPassantAt (gs : option GameState) (to : Square) : bool :=
  match gs with
  | Some g =>
      match enPassantTarget g with
      | Some target => isSameSquare to target
      | None => false
      end
  | None => false
  end.

(** ** Castling on the board *)

(** Where [executeCastling] takes the rook from, and where it puts it,
    for a king arriving on column [toCol]. *)
Definition castledRookFrom (toCol : Z) : Z := if toCol =? 6 then 7 else 0.
Definition castledRookTo (toCol : Z) : Z := if toCol =? 6 then 5 else 3.

(** ** En passant on the board *)

(** The square one rank behind [to], seen from the pawn [p] that
    arrives there. *)
Definition capturedPawnSquare (to : Square) (p : ChessPiece) : Square :=
  (fst to - direction (color p), snd to).

(** ** Regular moves *)

(** What stands on the destination after a regular move. *)
Definition arrivingPiece (movingPiece : ChessPiece) (promotedTo : option PieceType)
    : ChessPiece :=
  match promotedTo with
  | Some t => mkPiece t (color movingPiece)
  | None => movingPiece
  end.

(** ** The steps of the machine, case by case *)

(** The move [executeMove] records. *)
Definition recordedMove (now : Z) (gameState : GameState) (from to : Square)
    (movingPiece : ChessPiece) (promotedTo : option PieceType)
    (capturedPiece : Cell) : Move :=
  {| from := from; to := to; piece := movingPiece;
     capturedPiece := capturedPiece;
     notation :=
       generateMoveNotation from to movingPiece capturedPiece
         (isCastlingMove from to movingPiece)
         (isEnPassantMove from to movingPiece gameState)
         (bool_decide (is_Some promotedTo)) (typeName <$> promotedTo);
     timestamp := now;
     isCastling := isCastlingMove from to movingPiece;
     isEnPassant := isEnPassantMove from to movingPiece gameState;
     isPromotion := bool_decide (is_Some promotedTo);
     promotedTo := promotedTo |}.

(** The snapshot [executeMove] hands over, given the board and the
    captured piece it has computed. *)
Definition committedState (gameState : GameState) (newBoard : Board) (m : Move)
    : GameState :=
  {| board := newBoard;
     currentPlayer := otherPlayer (currentPlayer gameState);
     selectedSquare := None;
     validMoves := [];
     isCheck := isCheck gameState;
     isCheckmate := isCheckmate gameState;
     gameOver := gameOver gameState;
     moves := moves gameState ++ [m];
     capturedPieces := pushCaptured (capturedPieces gameState) (capturedPiece m);
     players := players gameState;
     castlingRights := updateCastlingRights gameState m;
     enPassantTarget := updateEnPassantTarget m;
     promotionPending := None |}.

(** All that one step can be. *)
Inductive stepKind (s : GameState) : Z * Action -> GameState -> Prop :=
| step_stays ev :
    stepKind s ev s
| step_deselects now sq :
    stepKind s (now, Click sq) (withSelection s None [])
| step_selects now sq p vm :
    getCell (board s) sq = Ok (Some p) ->
    color p = currentPlayer s ->
    getValidMovesForPiece s sq (board s) = Ok vm ->
    stepKind s (now, Click sq) (withSelection s (Some sq) vm)
| step_defers_promotion now sq sel mp :
    selectedSquare s = Some sel ->
    isValidMove sel sq (board s) (Some s) = Ok true ->
    getCell (board s) sel = Ok (Some mp) ->
    isPromotionMove sel sq mp = true ->
    stepKind s (now, Click sq)
             (withPromotionPending s (Some (mkPending sq (color mp))))
| step_moves now sq sel mp newBoard captured :
    selectedSquare s = Some sel ->
    isValidMove sel sq (board s) (Some s) = Ok true ->
    getCell (board s) sel = Ok (Some mp) ->
    isPromotionMove sel sq mp = false ->
    executeMove now s sel sq mp None
      = Ok (committedState s newBoard (recordedMove now s sel sq mp None captured)) ->
    stepKind s (now, Click sq)
             (committedState s newBoard (recordedMove now s sel sq mp None captured))
| step_promotes now t pending sel mp newBoard captured :
    promotionPending s = Some pending ->
    selectedSquare s = Some sel ->
    getCell (board s) sel = Ok (Some mp) ->
    executeMove now s sel (square pending) mp (Some t)
      = Ok (committedState s newBoard
              (recordedMove now s sel (square pending) mp (Some t) captured)) ->
    stepKind s (now, Promote t)
             (committedState s newBoard
                (recordedMove now s sel (square pending) mp (Some t) captured))
| step_cancels now :
    stepKind s (now, CancelPromotion) (handlePromotionCancel s)
| step_restarts now :
    stepKind s (now, NewGame) createInitialGameState.

(** Clicks land on squares of the board, as the squares drawn do. *)
Definition onBoardEvent (ev : Z * Action) : Prop :=
  match snd ev with
  | Click sq => isSquareOnBoard sq = true
  | _ => True
  end.

(** The game goes on: nobody asks for a new game. *)
Definition sameGameEvent (ev : Z * Action) : Prop := snd ev <> NewGame.

(** ** What the history determines *)

(** The en-passant target the last move of a history leaves. *)
Definition lastMoveWindow (ms : list Move) : option Square :=
  match last ms with
  | Some m => updateEnPassantTarget m
  | None => None
  end.

(** The en-passant target the specification gives after a history: the
    square passed over when the last move is a pawn's advance of two
    ranks, none otherwise. *)
Definition windowAfter (ms : list Move) : option Square :=
  match last ms with
  | Some m => if isTwoRankAdvance m then Some (squarePassedOver m) else None
  | None => None
  end.

(** A pending promotion waits on the last rank of the player to move. *)
Definition pendingOnLastRank (s : GameState) : Prop :=
  forall pending, promotionPending s = Some pending ->
    fst (square pending) = finalRank (currentPlayer s).

(** What the snapshots keep, so that every recorded move reads as the
    specification words the window. *)
Definition windowInvariant (s : GameState) : Prop :=
  turnInvariant s /\
  length (board s) = 8%nat /\
  pendingOnLastRank s /\
  Forall enPassantWindowClaim (moves s) /\
  enPassantTarget s = lastMoveWindow (moves s).

(** The pieces of color [c] recorded as captured in a history, in order. *)
Definition capturedOf (c : PieceColor) (ms : list Move) : list ChessPiece :=
  List.filter (fun p => PieceColor_eqb (color p) c) (omap capturedPiece ms).

(** A move whose notation and flags are those of its own fields. *)
Definition wellRecorded (m : Move) : Prop :=
  notation m
    = generateMoveNotation (from m) (to m) (piece m) (capturedPiece m)
        (isCastling m) (isEnPassant m) (isPromotion m) (typeName <$> promotedTo m)
  /\ isCastling m = isCastlingMove (from m) (to m) (piece m)
  /\ isPromotion m = bool_decide (is_Some (promotedTo m)).

(** ** The selection and its highlighted squares *)

(** The board is 8 by 8, the promotion square and the selected square
    are squares of the board, and the highlighted squares are the ones
    [getValidMovesForPiece] computes for the selected square (none when
    nothing is selected). *)
Definition uiInvariant (s : GameState) : Prop :=
  wfBoard (board s) /\
  (forall pending, promotionPending s = Some pending ->
     isSquareOnBoard (square pending) = true) /\
  match selectedSquare s with
  | Some sel =>
      isSquareOnBoard sel = true /\
      getValidMovesForPiece s sel (board s) = Ok (validMoves s)
  | None => validMoves s = []
  end.

(** The click took the selected piece from [sel] to [sq], or deferred
    that move until the promoted piece is chosen. *)
Definition playsOrDefers (s : GameState) (sel sq : Square) (s' : GameState) : Prop :=
  (exists m, moves s' = moves s ++ [m] /\ from m = sel /\ to m = sq) \/
  (exists c, promotionPending s' = Some (mkPending sq c) /\
             board s' = board s /\ moves s' = moves s).

(** * Properties *)

(** ** Generic facts about the [result] monad and the arrays *)

Lemma PieceType_eqb_eq a b : PieceType_eqb a b = true <-> a = b.
Proof. destruct a, b; simpl; split; congruence. Qed.

Lemma PieceColor_eqb_eq a b : PieceColor_eqb a b = true <-> a = b.
Proof. destruct a, b; simpl; split; congruence. Qed.

Lemma bind_Ok_inv {A B} (m : result A) (f : A -> result B) (b : B) :
  (m ≫= f) = Ok b -> exists a, m = Ok a /\ f a = Ok b.
Proof. destruct m as [a| |]; simpl; intros H; try discriminate; eauto. Qed.

(** Unfold the monad's operations so that [simpl] can compute. *)
Ltac result_simpl :=
  unfold mbind, mret, result_bind, result_ret in *; simpl.

Ltac inv_bind H :=
  let a := fresh "a" in
  let Ha := fresh "Ha" in
  apply bind_Ok_inv in H; destruct H as (a & Ha & H).

Lemma rowGet_rowSet row c v : rowGet (rowSet row c v) c = v.
Proof.
  unfold rowGet, rowSet.
  destruct (0 <=? c) eqn:Hc; [|simpl; rewrite Z.eqb_refl; reflexivity].
  destruct (Z.to_nat c <? length (elems row))%nat eqn:Hlt; simpl.
  - apply Nat.ltb_lt in Hlt.
    rewrite list_lookup_insert_eq by exact Hlt. reflexivity.
  - apply Nat.ltb_ge in Hlt.
    rewrite lookup_app_r by exact Hlt.
    rewrite lookup_app_r by (rewrite repeat_length; reflexivity).
    rewrite repeat_length, Nat.sub_diag. reflexivity.
Qed.

Lemma getRow_Some_lt board r row :
  getRow board r = Some row -> 0 <= r /\ (Z.to_nat r < length board)%nat.
Proof.
  unfold getRow. destruct (0 <=? r) eqn:Hr; [|discriminate].
  intros H. apply lookup_lt_Some in H. split; [lia | exact H].
Qed.

Lemma getCell_setCell board sq v board' :
  setCell board sq v = Ok board' -> getCell board' sq = Ok v.
Proof.
  unfold setCell, getCell.
  destruct (getRow board (fst sq)) as [row|] eqn:Hrow; [|discriminate].
  intros [= <-].
  destruct (getRow_Some_lt _ _ _ Hrow) as [Hr Hlt].
  unfold getRow. replace (0 <=? fst sq) with true by (symmetry; lia).
  cbv iota. rewrite list_lookup_insert_eq by exact Hlt.
  rewrite rowGet_rowSet. reflexivity.
Qed.

Lemma getRow_setCell board sq v board' r :
  setCell board sq v = Ok board' ->
  is_Some (getRow board' r) <-> is_Some (getRow board r).
Proof.
  unfold setCell.
  destruct (getRow board (fst sq)) as [row|] eqn:Hrow; [|discriminate].
  intros [= <-]. unfold getRow.
  destruct (0 <=? r); [|reflexivity].
  rewrite !lookup_lt_is_Some, length_insert. reflexivity.
Qed.

Lemma getRow_copyBoard board r :
  getRow (copyBoard board) r = (fun row => mkRow (elems row) []) <$> getRow board r.
Proof.
  unfold getRow, copyBoard. destruct (0 <=? r); [|reflexivity].
  apply list_lookup_fmap.
Qed.

(** ** Pawn double step (C1) *)

(** C1 (evaluation at the failing input): with the white knight on f3
    (row 5, col 5), the validator accepts the two-square advance of the
    f2 pawn from (6,5) to (4,5), and two clicks commit it as "f4": the
    intervening square is never looked at. *)
Theorem pawn_double_step_over_occupied_square :
  getCell (board afterNf3) (6, 5) = Ok (Some (mkPiece pawn white)) /\
  getCell (board afterNf3) (5, 5) = Ok (Some (mkPiece knight white)) /\
  getCell (board afterNf3) (4, 5) = Ok None /\
  isValidMove (6, 5) (4, 5) (board afterNf3) (Some afterNf3) = Ok true /\
  map notation (moves (run afterNf3 (clicks [(6, 5); (4, 5)])))
    = ["Kf3"; "a6"; "f4"]%string.
Proof. vm_compute. repeat split; reflexivity. Qed.

(** What the double step does test: the starting rank and the
    destination, whatever stands in between. *)
Lemma pawn_double_step_accepted board gs row col c :
  getCell board (row, col) = Ok (Some (mkPiece pawn c)) ->
  isValidMove (row, col) (row + 2 * direction c, col) board gs = Ok true <->
  row = startRow c /\ getCell board (row + 2 * direction c, col) = Ok None.
Proof.
  intros Hfrom. unfold isValidMove, isValidPawnMove. rewrite Hfrom.
  destruct (getCell board (row + 2 * direction c, col)) as [[tp|]| |];
    result_simpl;
    replace (row + 2 * direction c =? row + direction c) with false
      by (symmetry; destruct c; simpl; lia);
    replace (Z.abs (col - col) =? 1) with false by (symmetry; lia);
    rewrite ?Z.eqb_refl, ?andb_true_r; simpl.
  - destruct (PieceColor_eqb (color tp) c), (row =? startRow c); simpl;
      (split; [intros [=] | intros [_ [=]]]).
  - destruct (row =? startRow c) eqn:Hs; simpl.
    + apply Z.eqb_eq in Hs. split; auto.
    + apply Z.eqb_neq in Hs. split; [intros [=] | intros [? _]; contradiction].
  - split; [intros [=] | intros [_ [=]]].
  - split; [intros [=] | intros [_ [=]]].
Qed.

(** ** Committing 1. e4 (C6) *)

(** C6: from the initial state, committing the white pawn's move from
    (6,4) to (4,4) -- by [executeMove] directly or by the two clicks that
    lead to it -- records a move with notation "e4", sets the en-passant
    target to (5,4) and leaves the four castling rights set. *)
Theorem initial_e4 :
  forall now : Z,
    (exists s m,
        executeMove now createInitialGameState (6, 4) (4, 4)
                    (mkPiece pawn white) None = Ok s /\
        moves s = [m] /\ notation m = "e4"%string /\
        enPassantTarget s = Some (5, 4) /\
        castlingRights s = mkRights true true true true) /\
    run createInitialGameState [(now, Click (6, 4)); (now, Click (4, 4))]
      = keep createInitialGameState
          (executeMove now createInitialGameState (6, 4) (4, 4)
                       (mkPiece pawn white) None).
Proof.
  intros now. split.
  - eexists. eexists. split; [vm_compute; reflexivity|].
    repeat split; reflexivity.
  - vm_compute. reflexivity.
Qed.

(** ** En-passant window *)

(** What [updateEnPassantTarget] computes from a move record: the square
    passed over for a pawn's advance of two ranks; a square at all only
    for a pawn whose rank changes by two, and then the one next to
    [from], on the pawn's side, in the file of arrival. *)
Lemma updateEnPassantTarget_read (m : Move) :
  (isTwoRankAdvance m = true ->
     updateEnPassantTarget m = Some (squarePassedOver m)) /\
  (updateEnPassantTarget m <> None <->
     type (piece m) = pawn /\ Z.abs (fst (from m) - fst (to m)) = 2) /\
  (forall t, updateEnPassantTarget m = Some t ->
     t = (fst (from m) + direction (color (piece m)), snd (to m))).
Proof.
  destruct m as [[fr fc] [tr tc] [t c] cap nt ts ic ie ip pt].
  unfold isTwoRankAdvance, squarePassedOver, updateEnPassantTarget. simpl.
  split; [|split].
  - intros H. apply andb_true_iff in H. destruct H as [Ht Hr].
    rewrite Ht. apply Z.eqb_eq in Hr. subst tr.
    replace (Z.abs (fr - (fr + 2 * direction c)) =? 2) with true
      by (symmetry; destruct c; simpl; lia).
    simpl. f_equal. f_equal.
    destruct c; simpl.
    + replace (fr + (fr + 2 * -1)) with ((fr - 1) * 2) by lia.
      apply eq_sym, Z.div_mul. lia.
    + replace (fr + (fr + 2 * 1)) with ((fr + 1) * 2) by lia.
      apply eq_sym, Z.div_mul. lia.
  - destruct (PieceType_eqb t pawn) eqn:Ht; simpl.
    + apply PieceType_eqb_eq in Ht.
      destruct (Z.abs (fr - tr) =? 2) eqn:Hd.
      * apply Z.eqb_eq in Hd. split; [auto | intros _; discriminate].
      * apply Z.eqb_neq in Hd. split; [congruence | intros [_ ?]; contradiction].
    + split; [congruence|]. intros [-> _]. discriminate.
  - intros sq H.
    destruct (PieceType_eqb t pawn && (Z.abs (fr - tr) =? 2)); [|discriminate].
    injection H as <-. destruct c; reflexivity.
Qed.

(** ** Castling rights (C8) *)

(** C8: [updateCastlingRights] clears both rights of the mover's color
    for a king, exactly the matching right for a rook that leaves its own
    starting corner, nothing for any other move, and never sets a right
    that was clear. *)
Theorem updateCastlingRights_spec (gs : GameState) (m : Move) :
  updateCastlingRights gs m =
    {| whiteKingSide := whiteKingSide (castlingRights gs) && keepsWhiteKingSide m;
       whiteQueenSide := whiteQueenSide (castlingRights gs) && keepsWhiteQueenSide m;
       blackKingSide := blackKingSide (castlingRights gs) && keepsBlackKingSide m;
       blackQueenSide := blackQueenSide (castlingRights gs) && keepsBlackQueenSide m |}
  /\ rightsLe (updateCastlingRights gs m) (castlingRights gs).
Proof.
  assert (E : updateCastlingRights gs m =
    {| whiteKingSide := whiteKingSide (castlingRights gs) && keepsWhiteKingSide m;
       whiteQueenSide := whiteQueenSide (castlingRights gs) && keepsWhiteQueenSide m;
       blackKingSide := blackKingSide (castlingRights gs) && keepsBlackKingSide m;
       blackQueenSide := blackQueenSide (castlingRights gs) && keepsBlackQueenSide m |}).
  { destruct m as [[fr fc] tosq [t c] cap nt ts ic ie ip pt].
    destruct (castlingRights gs) as [wk wq bk bq] eqn:Hr.
    unfold updateCastlingRights, keepsWhiteKingSide, keepsWhiteQueenSide,
      keepsBlackKingSide, keepsBlackQueenSide, isSameSquare.
    rewrite Hr. simpl.
    destruct t, c; simpl; rewrite ?andb_true_r, ?andb_false_r; try reflexivity;
      destruct (fr =? 7) eqn:H7, (fr =? 0) eqn:H0, (fc =? 0) eqn:C0,
        (fc =? 7) eqn:C7; simpl; rewrite ?andb_true_r, ?andb_false_r;
        try reflexivity; lia. }
  split; [exact E|].
  rewrite E. unfold rightsLe. simpl.
  repeat split; intros H; apply andb_true_iff in H; tauto.
Qed.

(** ** Piece letters in the notation (C9) *)

(** C9: a non-castling move of a non-pawn piece is written with the
    upper-cased first letter of the piece type's name in front; for a
    knight that letter is K, and the whole notation is the one a king
    making the same move would get. *)
Theorem notation_leading_letter (from to : Square) (p : ChessPiece)
    (cap : option ChessPiece) (ep promo : bool) (pt : option string) :
  type p <> pawn ->
  (exists rest,
      generateMoveNotation from to p cap false ep promo pt
      = (charAt0Upper (typeName (type p)) ++ rest)%string) /\
  (type p = knight ->
     (exists rest,
         generateMoveNotation from to p cap false ep promo pt
         = String "K" rest) /\
     generateMoveNotation from to p cap false ep promo pt
     = generateMoveNotation from to (mkPiece king (color p)) cap false ep promo pt).
Proof.
  intros Hp. destruct p as [t c]. simpl in *.
  unfold generateMoveNotation.
  destruct t; try contradiction; simpl;
    (split; [|intros [=]; try split]);
    destruct cap, ep, promo, pt as [[|ch s]|]; simpl;
    try (eexists; reflexivity); reflexivity.
Qed.

(** The knight's move g1-f3 of the initial position. *)
Lemma notation_leading_letter_witness :
  (exists rest,
      generateMoveNotation (7, 6) (5, 5) (mkPiece knight white) None
                           false false false None
      = (charAt0Upper (typeName knight) ++ rest)%string) /\
  (knight = knight ->
     (exists rest,
         generateMoveNotation (7, 6) (5, 5) (mkPiece knight white) None
                              false false false None
         = String "K" rest) /\
     generateMoveNotation (7, 6) (5, 5) (mkPiece knight white) None
                          false false false None
     = generateMoveNotation (7, 6) (5, 5) (mkPiece king white) None
                            false false false None).
Proof.
  apply (notation_leading_letter (7, 6) (5, 5) (mkPiece knight white)
           None false false None).
  simpl. discriminate.
Defined.

(** ** Turn order (C10) *)

Lemma alternating_snoc c ms m :
  alternating c ms -> color (piece m) = turnAfter c ms ->
  alternating c (ms ++ [m]).
Proof.
  revert c. induction ms as [|m0 ms IH]; simpl; intros c Ha Hm.
  - split; [exact Hm | exact I].
  - destruct Ha as [H0 Ha]. split; [exact H0 | apply IH; assumption].
Qed.

Lemma turnAfter_snoc c ms m :
  turnAfter c (ms ++ [m]) = otherPlayer (turnAfter c ms).
Proof.
  revert c. induction ms as [|m0 ms IH]; simpl; intros c;
    [reflexivity | apply IH].
Qed.

Lemma executeMove_Ok now gs from to mp pt s' :
  executeMove now gs from to mp pt = Ok s' ->
  (exists m, moves s' = moves gs ++ [m] /\ piece m = mp /\
             promotedTo m = pt) /\
  currentPlayer s' = otherPlayer (currentPlayer gs) /\
  selectedSquare s' = None /\
  promotionPending s' = None.
Proof.
  unfold executeMove. intros H.
  inv_bind H. inv_bind H. destruct a0 as [nb cp].
  injection H as <-. simpl. repeat split. eexists. repeat split.
Qed.

Lemma handleSquareClick_step now gs sq s' :
  selectionOwned gs ->
  handleSquareClick now gs sq = Ok s' ->
  (nothingCommitted gs s' \/ oneMoveCommitted gs s') /\ selectionOwned s'.
Proof.
  intros Hown H. unfold handleSquareClick in H.
  inv_bind H. rename a into target, Ha into Htarget.
  assert (Hselect : forall s1, ownPiece gs target = true ->
            selectSquare gs sq = Ok s1 ->
            (nothingCommitted gs s1 \/ oneMoveCommitted gs s1) /\ selectionOwned s1).
  { intros s1 Hp Hs. unfold selectSquare in Hs. inv_bind Hs.
    injection Hs as <-. split; [left; repeat split|].
    intros sel [= <-]. simpl.
    destruct target as [p|]; [|discriminate]. simpl in Hp.
    apply PieceColor_eqb_eq in Hp. eauto. }
  assert (Hdeselect : forall s1, @Ok GameState (withSelection gs None []) = Ok s1 ->
            (nothingCommitted gs s1 \/ oneMoveCommitted gs s1) /\ selectionOwned s1).
  { intros s1 [= <-]. split; [left; repeat split|]. intros sel [=]. }
  destruct (selectedSquare gs) as [sel|] eqn:Hsel.
  - destruct (isSameSquare sel sq); [apply Hdeselect; exact H|].
    inv_bind H. destruct a as [|].
    + inv_bind H. destruct a as [mp|].
      * destruct (Hown sel Hsel) as (p & Hp & Hc).
        assert (p = mp) by congruence. subst p.
        destruct (isPromotionMove sel sq mp).
        -- injection H as <-. split; [left; repeat split|].
           intros sel' Hs'. simpl in *. apply Hown. congruence.
        -- apply executeMove_Ok in H.
           destruct H as ((m & Hm & Hpc & _) & Hcur & Hnone & _).
           split; [right; exists m; subst mp; auto|].
           intros sel' Hs'. congruence.
      * injection H as <-. split; [left; repeat split | exact Hown].
    + destruct (ownPiece gs target) eqn:Hp; [apply Hselect; auto|].
      apply Hdeselect; exact H.
  - destruct (ownPiece gs target) eqn:Hp; [apply Hselect; auto|].
    injection H as <-. split; [left; repeat split | exact Hown].
Qed.

Lemma handlePromotion_step now gs t s' :
  selectionOwned gs ->
  handlePromotion now gs t = Ok s' ->
  (nothingCommitted gs s' \/ oneMoveCommitted gs s') /\ selectionOwned s'.
Proof.
  intros Hown H. unfold handlePromotion in H.
  destruct (promotionPending gs) as [pp|];
    [|injection H as <-; split; [left; repeat split | exact Hown]].
  destruct (selectedSquare gs) as [sel|] eqn:Hsel;
    [|injection H as <-; split; [left; repeat split | exact Hown]].
  inv_bind H. destruct a as [mp|];
    [|injection H as <-; split; [left; repeat split | exact Hown]].
  destruct (Hown sel Hsel) as (p & Hp & Hc).
  assert (p = mp) by congruence. subst p.
  apply executeMove_Ok in H.
  destruct H as ((m & Hm & Hpc & _) & Hcur & Hnone & _).
  split; [right; exists m; subst mp; auto|].
  intros sel' Hs'. congruence.
Qed.

Lemma turnInvariant_initial : turnInvariant createInitialGameState.
Proof. repeat split. intros sel [=]. Qed.

Lemma turnInvariant_extend s s' :
  turnInvariant s ->
  (nothingCommitted s s' \/ oneMoveCommitted s s') /\ selectionOwned s' ->
  turnInvariant s'.
Proof.
  intros (Halt & Hcur & _) [[(Hm & Hc & _) | (m & Hm & Hpc & Hc)] Hown];
    repeat split; try exact Hown.
  - rewrite Hm. exact Halt.
  - rewrite Hm, Hc. exact Hcur.
  - rewrite Hm. apply alternating_snoc; [exact Halt | congruence].
  - rewrite Hm, turnAfter_snoc, Hc, Hcur. reflexivity.
Qed.

Lemma step_outcome s ev :
  selectionOwned s ->
  (nothingCommitted s (step s ev) \/ oneMoveCommitted s (step s ev)
   \/ step s ev = createInitialGameState)
  /\ selectionOwned (step s ev).
Proof.
  intros Hown. destruct ev as [now [sq|t| |]]; simpl.
  - destruct (handleSquareClick now s sq) as [s'| |] eqn:H; simpl.
    + destruct (handleSquareClick_step _ _ _ _ Hown H) as [[?|?] ?]; auto.
    + split; [left; repeat split | exact Hown].
    + split; [left; repeat split | exact Hown].
  - destruct (handlePromotion now s t) as [s'| |] eqn:H; simpl.
    + destruct (handlePromotion_step _ _ _ _ Hown H) as [[?|?] ?]; auto.
    + split; [left; repeat split | exact Hown].
    + split; [left; repeat split | exact Hown].
  - split; [left; repeat split|]. intros sel [=].
  - split; [right; right; reflexivity|]. intros sel [=].
Qed.

Lemma turnInvariant_step s ev : turnInvariant s -> turnInvariant (step s ev).
Proof.
  intros Hinv.
  destruct (step_outcome s ev) as [[H|[H|H]] Hown]; [apply Hinv | | |].
  - apply (turnInvariant_extend s); auto.
  - apply (turnInvariant_extend s); auto.
  - rewrite H. apply turnInvariant_initial.
Qed.

Lemma turnInvariant_run evs s : turnInvariant s -> turnInvariant (run s evs).
Proof.
  revert s. induction evs as [|ev evs IH]; simpl; intros s Hs;
    [exact Hs | apply IH, turnInvariant_step, Hs].
Qed.

(** C10: in every state reached from the initial one, each further step
    either commits nothing, or starts a new game, or appends one move
    whose piece has the color of the player to move and passes the turn
    to the other player; so the movers' colors in the history alternate,
    white first. *)
Theorem history_colors_alternate (evs : list (Z * Action)) (ev : Z * Action) :
  let s := run createInitialGameState evs in
  (nothingCommitted s (step s ev) \/ oneMoveCommitted s (step s ev)
   \/ step s ev = createInitialGameState) /\
  alternating white (moves s) /\
  currentPlayer s = turnAfter white (moves s).
Proof.
  intros s.
  destruct (turnInvariant_run evs _ turnInvariant_initial) as (Halt & Hcur & Hown).
  split; [apply step_outcome; exact Hown | split; assumption].
Qed.

(** ** Deferred promotion (C5) and the choice of the piece (C3) *)

Lemma getCell_Ok_row board sq c :
  getCell board sq = Ok c -> is_Some (getRow board (fst sq)).
Proof.
  unfold getCell. destruct (getRow board (fst sq)); [eauto | discriminate].
Qed.

Lemma getCell_is_Ok board sq :
  is_Some (getRow board (fst sq)) -> exists c, getCell board sq = Ok c.
Proof. unfold getCell. intros [row ->]. eauto. Qed.

Lemma setCell_is_Ok board sq v :
  is_Some (getRow board (fst sq)) -> exists board', setCell board sq v = Ok board'.
Proof. unfold setCell. intros [row ->]. eauto. Qed.

Lemma getRow_copyBoard_is_Some board r :
  is_Some (getRow (copyBoard board) r) <-> is_Some (getRow board r).
Proof.
  rewrite getRow_copyBoard. destruct (getRow board r); simpl;
    split; intros [x Hx]; try discriminate; eauto.
Qed.

Lemma isSameSquare_eq a b : isSameSquare a b = true -> a = b.
Proof.
  destruct a, b. unfold isSameSquare. simpl. intros H.
  apply andb_true_iff in H. destruct H as [H1 H2].
  apply Z.eqb_eq in H1, H2. congruence.
Qed.

Lemma PieceColor_eqb_refl c : PieceColor_eqb c c = true.
Proof. destruct c; reflexivity. Qed.

Lemma isValidMove_true_inv from to board gs :
  isValidMove from to board gs = Ok true ->
  exists pc tp, getCell board from = Ok (Some pc) /\
                getCell board to = Ok tp /\ sameColor tp pc = false.
Proof.
  unfold isValidMove. intros H.
  inv_bind H. destruct a as [pc|]; [|discriminate].
  inv_bind H. destruct (sameColor a pc) eqn:Hs; [discriminate|]. eauto.
Qed.

Lemma isValidMove_true_distinct from to board gs :
  isValidMove from to board gs = Ok true -> isSameSquare from to = false.
Proof.
  intros H. destruct (isValidMove_true_inv _ _ _ _ H) as (pc & tp & Hf & Ht & Hs).
  destruct (isSameSquare from to) eqn:E; [|reflexivity].
  apply isSameSquare_eq in E. subst to.
  assert (tp = Some pc) by congruence. subst tp.
  simpl in Hs. rewrite PieceColor_eqb_refl in Hs. discriminate.
Qed.

(** C5: when the selected pawn may legally go to a square of its final
    rank, the click on that square only records the pending promotion
    (square and color) and leaves the board as it is; cancelling then
    clears the pending promotion and the selection, with the board and
    the player to move as they were before the attempt. *)
Theorem promotion_pending_then_cancel now gs from to p :
  selectedSquare gs = Some from ->
  getCell (board gs) from = Ok (Some p) ->
  type p = pawn ->
  fst to = finalRank (color p) ->
  isValidMove from to (board gs) (Some gs) = Ok true ->
  exists s1,
    handleSquareClick now gs to = Ok s1 /\
    promotionPending s1 = Some (mkPending to (color p)) /\
    board s1 = board gs /\
    promotionPending (handlePromotionCancel s1) = None /\
    selectedSquare (handlePromotionCancel s1) = None /\
    board (handlePromotionCancel s1) = board gs /\
    currentPlayer (handlePromotionCancel s1) = currentPlayer gs.
Proof.
  intros Hsel Hfrom Hpawn Hrank Hvalid.
  destruct (isValidMove_true_inv _ _ _ _ Hvalid) as (pc & tp & _ & Hto & _).
  assert (Hpromo : isPromotionMove from to p = true).
  { unfold isPromotionMove. rewrite Hpawn, Hrank. simpl.
    destruct (color p); reflexivity. }
  exists (withPromotionPending gs (Some (mkPending to (color p)))).
  split; [|repeat split].
  unfold handleSquareClick.
  rewrite Hto, Hsel. result_simpl.
  rewrite (isValidMove_true_distinct _ _ _ _ Hvalid), Hvalid, Hfrom, Hpromo.
  reflexivity.
Qed.

(** The pawn of b7 taking on a8, in the game above. *)
Lemma promotion_pending_then_cancel_witness :
  exists s1,
    handleSquareClick 0 pawnOnB7Selected (0, 0) = Ok s1 /\
    promotionPending s1 = Some (mkPending (0, 0) white) /\
    board s1 = board pawnOnB7Selected /\
    promotionPending (handlePromotionCancel s1) = None /\
    selectedSquare (handlePromotionCancel s1) = None /\
    board (handlePromotionCancel s1) = board pawnOnB7Selected /\
    currentPlayer (handlePromotionCancel s1) = currentPlayer pawnOnB7Selected.
Proof.
  apply (promotion_pending_then_cancel 0 pawnOnB7Selected (1, 1) (0, 0)
           (mkPiece pawn white));
    vm_compute; reflexivity.
Defined.

(** C3 (counterexample): in a state reached by play, with the promotion
    of the b7 pawn on a8 pending, asking for a king (or a pawn) is not
    rejected: the move is committed, a white king (pawn) stands on a8,
    it is black's turn and nothing is pending any more. *)
Lemma handlePromotion_accepts_king_and_pawn :
  promotionPending promotionIsPending = Some (mkPending (0, 0) white) /\
  currentPlayer promotionIsPending = white /\
  (exists s,
      handlePromotion 0 promotionIsPending king = Ok s /\
      getCell (board s) (0, 0) = Ok (Some (mkPiece king white)) /\
      board s <> board promotionIsPending /\
      currentPlayer s = black /\
      promotionPending s = None) /\
  (exists s,
      handlePromotion 0 promotionIsPending pawn = Ok s /\
      getCell (board s) (0, 0) = Ok (Some (mkPiece pawn white)) /\
      board s <> board promotionIsPending /\
      currentPlayer s = black /\
      promotionPending s = None).
Proof.
  split; [reflexivity|]. split; [reflexivity|].
  split; (eexists; split; [vm_compute; reflexivity|]);
    (split; [reflexivity|]); (split; [vm_compute; discriminate|]);
    split; reflexivity.
Qed.

(** C3 (amended): no piece type is turned down.  With a promotion
    pending and the promoting pawn selected, the request for any type --
    king and pawn included -- commits the deferred move: a piece of that
    type and of the pawn's color stands on the promotion square, the
    turn passes, nothing is pending, and the move recorded carries the
    type as [promotedTo]. *)
Theorem handlePromotion_commits_any_type now gs t pending selected mp :
  promotionPending gs = Some pending ->
  selectedSquare gs = Some selected ->
  getCell (board gs) selected = Ok (Some mp) ->
  type mp = pawn ->
  isEnPassantMove selected (square pending) mp gs = false ->
  is_Some (getRow (board gs) (fst (square pending))) ->
  exists s m,
    handlePromotion now gs t = Ok s /\
    getCell (board s) (square pending) = Ok (Some (mkPiece t (color mp))) /\
    currentPlayer s = otherPlayer (currentPlayer gs) /\
    promotionPending s = None /\
    moves s = moves gs ++ [m] /\ promotedTo m = Some t.
Proof.
  intros Hpp Hsel Hmp Hpawn Hep Hrow.
  unfold handlePromotion. rewrite Hpp, Hsel, Hmp. result_simpl.
  unfold executeMove.
  assert (Hcastle : isCastlingMove selected (square pending) mp = false).
  { unfold isCastlingMove. rewrite Hpawn. reflexivity. }
  rewrite Hcastle, Hep.
  apply getRow_copyBoard_is_Some in Hrow.
  destruct (getCell_is_Ok _ (square pending) Hrow) as [cp Hcp].
  rewrite Hcp. result_simpl.
  assert (Hfrow : is_Some (getRow (copyBoard (board gs)) (fst selected))).
  { apply getRow_copyBoard_is_Some. eapply getCell_Ok_row. exact Hmp. }
  destruct (setCell_is_Ok _ selected None Hfrow) as [b1 Hb1].
  rewrite Hb1.
  assert (Hrow1 : is_Some (getRow b1 (fst (square pending)))).
  { apply (getRow_setCell _ _ _ _ _ Hb1). exact Hrow. }
  destruct (setCell_is_Ok _ (square pending) (Some mp) Hrow1) as [b2 Hb2].
  rewrite Hb2.
  assert (Hrow2 : is_Some (getRow b2 (fst (square pending)))).
  { apply (getRow_setCell _ _ _ _ _ Hb2). exact Hrow1. }
  destruct (setCell_is_Ok _ (square pending) (Some (mkPiece t (color mp))) Hrow2)
    as [b3 Hb3].
  rewrite Hb3.
  eexists. eexists. split; [reflexivity|]. simpl.
  split; [exact (getCell_setCell _ _ _ _ Hb3)|]. repeat split.
Qed.

(** The same game, a king being asked for. *)
Lemma handlePromotion_commits_any_type_witness :
  exists s m,
    handlePromotion 0 promotionIsPending king = Ok s /\
    getCell (board s) (0, 0) = Ok (Some (mkPiece king white)) /\
    currentPlayer s = otherPlayer (currentPlayer promotionIsPending) /\
    promotionPending s = None /\
    moves s = moves promotionIsPending ++ [m] /\ promotedTo m = Some king.
Proof.
  apply (handlePromotion_commits_any_type 0 promotionIsPending king
           (mkPending (0, 0) white) (1, 1) (mkPiece pawn white));
    try (vm_compute; reflexivity).
  vm_compute. eauto.
Defined.

(** ** Castling attempts (C4) *)

Lemma getCell_in_row board r row c :
  getRow board r = Some row -> getCell board (r, c) = Ok (rowGet row c).
Proof. unfold getCell. simpl. intros ->. reflexivity. Qed.

Lemma getCell_Some_row board r c p :
  getCell board (r, c) = Ok (Some p) ->
  exists row, getRow board r = Some row /\ rowGet row c = Some p.
Proof.
  unfold getCell. simpl. destruct (getRow board r) as [row|]; [|discriminate].
  intros [= H]. eauto.
Qed.

(** C4: for a king standing on [from], a move of two columns along its
    row is accepted exactly when the king is on its original square, the
    right of that side is held, the squares between king and rook are
    empty and a rook of the king's color stands on the corner. *)
Theorem castling_attempt_iff board gs from to k :
  getCell board from = Ok (Some k) ->
  type k = king ->
  fst to = fst from ->
  Z.abs (snd from - snd to) = 2 ->
  isValidMove from to board (Some gs) = Ok true <->
  from = (kingRowOf (color k), 4) /\
  castlingRightFor (castlingRights gs) (color k) from to = true /\
  (forall col, Z.min 4 (rookCorner from to) < col < Z.max 4 (rookCorner from to) ->
     getCell board (fst from, col) = Ok None) /\
  (exists r, getCell board (fst from, rookCorner from to) = Ok (Some r) /\
             type r = rook /\ color r = color k).
Proof.
  intros Hfrom Hking Hrow Hcol.
  destruct from as [fr fc], to as [tr tc], k as [t c]. simpl in *. subst t tr.
  destruct (getCell_Some_row _ _ _ _ Hfrom) as (row & Hgr & Hk).
  assert (Hcell : forall x, getCell board (fr, x) = Ok (rowGet row x))
    by (intros x; apply getCell_in_row, Hgr).
  unfold isValidMove, isValidKingMove, rookCorner, castlingRightFor.
  rewrite !Hcell, Hk. result_simpl.
  replace (Z.abs (fr - fr)) with 0 by lia. rewrite Hcol. simpl.
  destruct (fr =? kingRowOf c) eqn:Hkr; simpl.
  2: { apply Z.eqb_neq in Hkr.
       split; [destruct (sameColor (rowGet row tc) (mkPiece king c)); intros [=]
              | intros (Heq & _); inversion Heq; contradiction]. }
  apply Z.eqb_eq in Hkr. rewrite <- Hkr. rewrite !Hcell.
  destruct (fc =? 4) eqn:H4; simpl.
  2: { apply Z.eqb_neq in H4.
       split; [destruct (sameColor (rowGet row tc) (mkPiece king c)); intros [=]
              | intros (Heq & _); inversion Heq; contradiction]. }
  apply Z.eqb_eq in H4. subst fc.
  assert (Htc : tc = 6 \/ tc = 2) by lia.
  destruct Htc; subst tc; simpl.
  - (* king side *)
    destruct (rowGet row 5) as [p5|] eqn:H5, (rowGet row 6) as [p6|] eqn:H6,
      (rowGet row 7) as [[rt rc]|] eqn:H7, (kingSideRight (castlingRights gs) c);
      simpl;
      try (split;
           [repeat match goal with
                   | |- context [if ?b then _ else _] => destruct b; simpl
                   end; intros [=]
           | intros (_ & Hr & Hb & r & Hrk & Hrt & Hrc);
             try discriminate;
             try (specialize (Hb 5 ltac:(lia)); rewrite Hcell in Hb; congruence);
             try (specialize (Hb 6 ltac:(lia)); rewrite Hcell in Hb; congruence)];
           fail).
    destruct (PieceType_eqb rt rook) eqn:Et, (PieceColor_eqb rc c) eqn:Ec; simpl;
      try (split; [intros [=] | intros (_ & _ & _ & r & [= <-] & Hrt & Hrc)];
           simpl in *; subst;
           try (rewrite PieceColor_eqb_refl in Ec); discriminate).
    apply PieceType_eqb_eq in Et. apply PieceColor_eqb_eq in Ec. subst.
    split; [intros _ | reflexivity].
    split; [reflexivity|]. split; [reflexivity|].
    split; [|eexists; repeat split].
    intros col Hc. assert (col = 5 \/ col = 6) as [-> | ->] by lia;
      rewrite Hcell, ?H5, ?H6; reflexivity.
  - (* queen side *)
    destruct (rowGet row 1) as [p1|] eqn:H1, (rowGet row 2) as [p2|] eqn:H2,
      (rowGet row 3) as [p3|] eqn:H3,
      (rowGet row 0) as [[rt rc]|] eqn:H0, (queenSideRight (castlingRights gs) c);
      simpl;
      try (split;
           [repeat match goal with
                   | |- context [if ?b then _ else _] => destruct b; simpl
                   end; intros [=]
           | intros (_ & Hr & Hb & r & Hrk & Hrt & Hrc);
             try discriminate;
             try (specialize (Hb 1 ltac:(lia)); rewrite Hcell in Hb; congruence);
             try (specialize (Hb 2 ltac:(lia)); rewrite Hcell in Hb; congruence);
             try (specialize (Hb 3 ltac:(lia)); rewrite Hcell in Hb; congruence)];
           fail).
    destruct (PieceType_eqb rt rook) eqn:Et, (PieceColor_eqb rc c) eqn:Ec; simpl;
      try (split; [intros [=] | intros (_ & _ & _ & r & [= <-] & Hrt & Hrc)];
           simpl in *; subst;
           try (rewrite PieceColor_eqb_refl in Ec); discriminate).
    apply PieceType_eqb_eq in Et. apply PieceColor_eqb_eq in Ec. subst.
    split; [intros _ | reflexivity].
    split; [reflexivity|]. split; [reflexivity|].
    split; [|eexists; repeat split].
    intros col Hc. assert (col = 1 \/ col = 2 \/ col = 3) as [-> | [-> | ->]] by lia;
      rewrite Hcell, ?H1, ?H2, ?H3; reflexivity.
Qed.

(** White's king-side castling after 1. e4 a6 2. Be2 b6 3. Nf3 c6. *)
Lemma castling_attempt_iff_witness :
  isValidMove (7, 4) (7, 6) (board readyToCastle) (Some readyToCastle) = Ok true <->
  (7, 4) = (kingRowOf white, 4) /\
  castlingRightFor (castlingRights readyToCastle) white (7, 4) (7, 6) = true /\
  (forall col, Z.min 4 (rookCorner (7, 4) (7, 6)) < col
               < Z.max 4 (rookCorner (7, 4) (7, 6)) ->
     getCell (board readyToCastle) (7, col) = Ok None) /\
  (exists r, getCell (board readyToCastle) (7, rookCorner (7, 4) (7, 6)) = Ok (Some r) /\
             type r = rook /\ color r = white).
Proof.
  apply (castling_attempt_iff (board readyToCastle) readyToCastle (7, 4) (7, 6)
           (mkPiece king white)); vm_compute; reflexivity.
Defined.

(** ** Bounds (C2) *)

Lemma getCell_total (board : Board) r c :
  length board = 8%nat -> 0 <= r < 8 -> exists x, getCell board (r, c) = Ok x.
Proof.
  intros Hlen Hr. apply getCell_is_Ok. simpl. unfold getRow.
  replace (0 <=? r) with true by (symmetry; lia).
  apply lookup_lt_is_Some. lia.
Qed.

Lemma getCell_no_row (board : Board) sq :
  length board = 8%nat -> ~ 0 <= fst sq < 8 -> getCell board sq = TypeError.
Proof.
  intros Hlen Hr. unfold getCell, getRow.
  destruct (0 <=? fst sq) eqn:H0; [|reflexivity].
  apply Z.leb_le in H0.
  rewrite lookup_ge_None_2; [reflexivity | lia].
Qed.

Lemma getCell_no_column (board : Board) sq :
  wfBoard board -> 0 <= fst sq < 8 -> ~ 0 <= snd sq < 8 ->
  getCell board sq = Ok None.
Proof.
  intros [Hlen Hrows] Hr Hc. unfold getCell, getRow.
  replace (0 <=? fst sq) with true by (symmetry; lia).
  destruct (board !! Z.to_nat (fst sq)) as [row|] eqn:Hrow.
  - rewrite Forall_lookup in Hrows. destruct (Hrows _ _ Hrow) as [Hl Hp].
    unfold rowGet. rewrite Hp.
    destruct (0 <=? snd sq) eqn:H0; [|reflexivity].
    apply Z.leb_le in H0.
    rewrite lookup_ge_None_2; [reflexivity | lia].
  - apply lookup_ge_None in Hrow. lia.
Qed.

Lemma div_abs_sgn d : d <> 0 -> d / Z.abs d = Z.sgn d.
Proof.
  destruct d as [|p|p]; intros Hd; [contradiction | |]; simpl Z.abs; simpl Z.sgn.
  - apply Z.div_same. discriminate.
  - replace (Z.neg p) with (-1 * Z.pos p) by lia.
    apply Z.div_mul. discriminate.
Qed.

(** The scan ends, without exception, when it starts [k] steps before
    the destination and only crosses rows that exist. *)
Lemma pathLoop_total (board : Board) rowDir colDir toRow toCol :
  length board = 8%nat ->
  forall (k fuel : nat) currentRow currentCol,
    (k < fuel)%nat ->
    currentRow = toRow - Z.of_nat k * rowDir ->
    currentCol = toCol - Z.of_nat k * colDir ->
    (forall j : nat, (1 <= j <= k)%nat -> 0 <= toRow - Z.of_nat j * rowDir < 8) ->
    exists b, pathLoop fuel board currentRow currentCol rowDir colDir toRow toCol = Ok b.
Proof.
  intros Hlen. induction k as [|k IH]; intros fuel cr cc Hfuel Hr Hc Hrows;
    (destruct fuel as [|fuel]; [lia|]); simpl.
  - replace (cr =? toRow) with true by (symmetry; lia).
    replace (cc =? toCol) with true by (symmetry; lia).
    simpl. eauto.
  - destruct (negb (cr =? toRow) || negb (cc =? toCol)); [|eauto].
    destruct (getCell_total board cr cc Hlen) as [x Hx].
    { subst cr. apply Hrows. lia. }
    rewrite Hx. result_simpl. destruct (truthy x); [eauto|].
    apply IH; [lia | lia | lia |].
    intros j Hj. apply Hrows. lia.
Qed.

Lemma isValidMove_dispatch from to (board : Board) gs pc target :
  getCell board from = Ok (Some pc) ->
  getCell board to = Ok target ->
  isValidMove from to board gs =
    if sameColor target pc then Ok false
    else match type pc with
         | pawn => isValidPawnMove from to (color pc) board gs
         | rook => isValidRookMove from to board
         | knight => Ok (isValidKnightMove from to)
         | bishop => isValidBishopMove from to board
         | queen => isValidQueenMove from to board
         | king => isValidKingMove from to board gs
         end.
Proof.
  intros Hf Ht. unfold isValidMove, mbind, result_bind.
  rewrite Hf, Ht. reflexivity.
Qed.

(** The fuel is an artefact of the model: whatever the board and the
    squares, the scans of the rook and of the bishop stop before it runs
    out (they may still throw). *)
Lemma pathLoop_fuel (board : Board) rowDir colDir toRow toCol :
  forall (k fuel : nat) currentRow currentCol,
    (k < fuel)%nat ->
    currentRow = toRow - Z.of_nat k * rowDir ->
    currentCol = toCol - Z.of_nat k * colDir ->
    pathLoop fuel board currentRow currentCol rowDir colDir toRow toCol <> OutOfFuel.
Proof.
  induction k as [|k IH]; intros fuel cr cc Hfuel Hr Hc;
    (destruct fuel as [|fuel]; [lia|]); simpl.
  - replace (cr =? toRow) with true by (symmetry; lia).
    replace (cc =? toCol) with true by (symmetry; lia).
    simpl. discriminate.
  - destruct (negb (cr =? toRow) || negb (cc =? toCol)); [|discriminate].
    unfold getCell.
    destruct (getRow board (fst (cr, cc))) as [row|]; result_simpl;
      [|discriminate].
    destruct (truthy (rowGet row cc)); [discriminate|].
    apply IH; lia.
Qed.

Lemma isValidRookMove_fuel (board : Board) from to :
  isValidRookMove from to board <> OutOfFuel.
Proof.
  destruct from as [fr fc], to as [tr tc]. unfold isValidRookMove.
  destruct (fr =? tr) eqn:Hr, (fc =? tc) eqn:Hc; cbn [negb andb];
    cbv beta iota zeta; try discriminate;
    rewrite ?Z.eqb_eq, ?Z.eqb_neq in *.
  - subst. apply (pathLoop_fuel board 0 0 tr tc 0); lia.
  - subst tr. rewrite div_abs_sgn by lia.
    apply (pathLoop_fuel board 0 _ fr tc (Z.to_nat (Z.abs (tc - fc) - 1))); lia.
  - subst tc. rewrite div_abs_sgn by lia.
    apply (pathLoop_fuel board _ 0 tr fc (Z.to_nat (Z.abs (tr - fr) - 1))); lia.
Qed.

Lemma isValidBishopMove_fuel (board : Board) from to :
  isValidBishopMove from to board <> OutOfFuel.
Proof.
  destruct from as [fr fc], to as [tr tc]. unfold isValidBishopMove.
  destruct (Z.abs (fr - tr) =? Z.abs (fc - tc)) eqn:Hd; cbn [negb];
    cbv beta iota zeta; [|discriminate].
  apply Z.eqb_eq in Hd.
  destruct (tr - fr =? 0) eqn:H0; [discriminate|]. apply Z.eqb_neq in H0.
  rewrite !div_abs_sgn by lia.
  apply (pathLoop_fuel board _ _ tr tc (Z.to_nat (Z.abs (tr - fr) - 1))); lia.
Qed.

Lemma getCell_fuel (board : Board) sq : getCell board sq <> OutOfFuel.
Proof. unfold getCell. destruct (getRow board (fst sq)); discriminate. Qed.

Lemma isValidMove_fuel from to (board : Board) gs :
  isValidMove from to board gs <> OutOfFuel.
Proof.
  pose proof (getCell_fuel board from) as Hnf.
  pose proof (getCell_fuel board to) as Hnt.
  destruct (getCell board from) as [[pc|]| |] eqn:Hf; try congruence;
    try (unfold isValidMove; rewrite Hf; discriminate).
  destruct (getCell board to) as [target| |] eqn:Ht; try congruence;
    try (unfold isValidMove; rewrite Hf; result_simpl; rewrite Ht; discriminate).
  rewrite (isValidMove_dispatch from to board gs pc target Hf Ht).
  destruct (sameColor target pc); [discriminate|].
  destruct (type pc); try discriminate.
  - unfold isValidPawnMove. destruct from as [fr fc], to as [tr tc].
    rewrite Ht. result_simpl. repeat (case_match; simpl); congruence.
  - apply isValidRookMove_fuel.
  - apply isValidBishopMove_fuel.
  - unfold isValidQueenMove.
    pose proof (isValidRookMove_fuel board from to).
    destruct (isValidRookMove from to board) as [[|]| |]; result_simpl;
      try congruence.
    apply isValidBishopMove_fuel.
  - unfold isValidKingMove, getCell. destruct from as [fr fc], to as [tr tc].
    result_simpl. repeat (case_match; simpl); congruence.
Qed.

Lemma isValidRookMove_total (board : Board) from to :
  length board = 8%nat -> 0 <= fst from < 8 -> 0 <= fst to < 8 ->
  exists b, isValidRookMove from to board = Ok b.
Proof.
  intros Hlen Hf Ht. destruct from as [fr fc], to as [tr tc]. cbn [fst snd] in *.
  unfold isValidRookMove.
  destruct (fr =? tr) eqn:Hr, (fc =? tc) eqn:Hc; cbn [negb andb];
    cbv beta iota zeta;
    try (eexists; reflexivity); rewrite ?Z.eqb_eq, ?Z.eqb_neq in *.
  - subst. apply (pathLoop_total board 0 0 tr tc Hlen 0); lia.
  - subst tr. rewrite div_abs_sgn by lia.
    apply (pathLoop_total board 0 _ fr tc Hlen (Z.to_nat (Z.abs (tc - fc) - 1)));
      lia.
  - subst tc. rewrite div_abs_sgn by lia.
    apply (pathLoop_total board _ 0 tr fc Hlen (Z.to_nat (Z.abs (tr - fr) - 1)));
      lia.
Qed.

Lemma isValidBishopMove_total (board : Board) from to :
  length board = 8%nat -> 0 <= fst from < 8 -> 0 <= fst to < 8 ->
  from <> to ->
  exists b, isValidBishopMove from to board = Ok b.
Proof.
  intros Hlen Hf Ht Hne. destruct from as [fr fc], to as [tr tc]. cbn [fst snd] in *.
  unfold isValidBishopMove.
  destruct (Z.abs (fr - tr) =? Z.abs (fc - tc)) eqn:Hd; cbn [negb];
    cbv beta iota zeta; [|eauto].
  apply Z.eqb_eq in Hd.
  assert (tr - fr <> 0) by (intros E; apply Hne; f_equal; lia).
  replace (tr - fr =? 0) with false by (symmetry; lia).
  cbv beta iota zeta. rewrite !div_abs_sgn by lia.
  apply (pathLoop_total board _ _ tr tc Hlen (Z.to_nat (Z.abs (tr - fr) - 1)));
    lia.
Qed.

Lemma isValidPawnMove_total (board : Board) gs from to c :
  length board = 8%nat -> 0 <= fst to < 8 ->
  exists b, isValidPawnMove from to c board gs = Ok b.
Proof.
  intros Hlen Ht. destruct from as [fr fc], to as [tr tc]. cbn [fst snd] in *.
  destruct (getCell_total board tr tc Hlen Ht) as [x Hx].
  unfold isValidPawnMove. rewrite Hx. result_simpl.
  repeat (case_match; simpl); eauto; congruence.
Qed.

Lemma isValidKingMove_total (board : Board) gs from to :
  length board = 8%nat -> 0 <= fst from < 8 ->
  exists b, isValidKingMove from to board gs = Ok b.
Proof.
  intros Hlen Hf. destruct from as [fr fc], to as [tr tc]. cbn [fst snd] in *.
  destruct (getCell_total board fr fc Hlen Hf) as [x Hx].
  assert (Hrow : forall c col, exists y, getCell board (kingRowOf c, col) = Ok y).
  { intros c col. apply getCell_total; [exact Hlen | destruct c; simpl; lia]. }
  unfold isValidKingMove. rewrite Hx. result_simpl.
  destruct ((Z.abs (fr - tr) <=? 1) && (Z.abs (fc - tc) <=? 1)
            && (0 <? Z.abs (fr - tr) + Z.abs (fc - tc))); [eauto|].
  destruct gs as [gs|]; [|eauto].
  destruct ((Z.abs (fr - tr) =? 0) && (Z.abs (fc - tc) =? 2)); [|eauto].
  destruct x as [[t c]|]; [|eauto].
  destruct (Hrow c 0) as [y0 H0], (Hrow c 1) as [y1 H1], (Hrow c 2) as [y2 H2],
    (Hrow c 3) as [y3 H3], (Hrow c 5) as [y5 H5], (Hrow c 6) as [y6 H6],
    (Hrow c 7) as [y7 H7].
  rewrite H0, H1, H2, H3, H5, H6, H7. simpl.
  repeat (case_match; simpl); eauto; congruence.
Qed.

(** C2 (counterexample): on the initial board the black knight of g8,
    at (0,6), is allowed to go to (1,8), a square of no board: nothing
    checks the bounds, [board[1][8]] merely reads [undefined].  With a
    source row that does not exist the evaluation throws instead of
    answering false. *)
Lemma isValidMove_accepts_square_off_board :
  isSquareOnBoard (1, 8) = false /\
  isValidMove (0, 6) (1, 8) createInitialBoard (Some createInitialGameState)
    = Ok true /\
  isSquareOnBoard (8, 0) = false /\
  isValidMove (8, 0) (5, 0) createInitialBoard (Some createInitialGameState)
    = TypeError.
Proof. vm_compute. repeat split; reflexivity. Qed.

(** C2 (amended): the validator checks no bounds itself.  On a board of
    8 plain rows of 8 cells, with the four coordinates inside [0,8) it
    answers with a boolean and nothing is thrown; with the row of [from]
    outside [0,8), or with a piece on [from] and the row of [to] outside,
    the indexing throws instead of answering false; with only the column
    of [from] outside, the cell reads as empty and the answer is false. *)
Theorem isValidMove_bounds (board : Board) gs from to :
  wfBoard board ->
  (isSquareOnBoard from = true -> isSquareOnBoard to = true ->
     exists b, isValidMove from to board gs = Ok b) /\
  (~ 0 <= fst from < 8 -> isValidMove from to board gs = TypeError) /\
  (forall p, getCell board from = Ok (Some p) -> ~ 0 <= fst to < 8 ->
     isValidMove from to board gs = TypeError) /\
  (0 <= fst from < 8 -> ~ 0 <= snd from < 8 ->
     isValidMove from to board gs = Ok false).
Proof.
  intros Hwf. pose proof Hwf as [Hlen _].
  split; [|split; [|split]].
  - intros Hf Ht. destruct from as [fr fc], to as [tr tc].
    unfold isSquareOnBoard in Hf, Ht.
    assert (0 <= fr < 8 /\ 0 <= tr < 8) as [Hfr Htr] by lia.
    destruct (getCell_total board fr fc Hlen Hfr) as [p Hp].
    destruct (getCell_total board tr tc Hlen Htr) as [target Htarget].
    destruct p as [pc|];
      [|unfold isValidMove; rewrite Hp; eexists; reflexivity].
    rewrite (isValidMove_dispatch _ _ _ _ _ _ Hp Htarget).
    destruct (sameColor target pc) eqn:Hsame; [eauto|].
    destruct (type pc).
    + apply isValidPawnMove_total; assumption.
    + apply isValidRookMove_total; assumption.
    + eauto.
    + apply (isValidBishopMove_total board (fr, fc) (tr, tc) Hlen Hfr Htr).
      intros E. rewrite <- E, Hp in Htarget. injection Htarget as <-.
      simpl in Hsame. rewrite PieceColor_eqb_refl in Hsame. discriminate.
    + unfold isValidQueenMove.
      destruct (isValidRookMove_total board (fr, fc) (tr, tc) Hlen Hfr Htr)
        as [[|] ->]; result_simpl; [eauto|].
      apply (isValidBishopMove_total board (fr, fc) (tr, tc) Hlen Hfr Htr).
      intros E. rewrite <- E, Hp in Htarget. injection Htarget as <-.
      simpl in Hsame. rewrite PieceColor_eqb_refl in Hsame. discriminate.
    + apply isValidKingMove_total; assumption.
  - intros Hf. unfold isValidMove.
    rewrite (getCell_no_row board from Hlen Hf). reflexivity.
  - intros p Hp Ht. unfold isValidMove.
    rewrite Hp, (getCell_no_row board to Hlen Ht). reflexivity.
  - intros Hr Hc. unfold isValidMove.
    rewrite (getCell_no_column board from Hwf Hr Hc). reflexivity.
Qed.

Lemma wfBoard_initial : wfBoard createInitialBoard.
Proof.
  split; [reflexivity|]. repeat constructor.
Qed.

(** The initial board, the knight of g1 going to f3. *)
Lemma isValidMove_bounds_witness :
  (isSquareOnBoard (7, 6) = true -> isSquareOnBoard (5, 5) = true ->
     exists b, isValidMove (7, 6) (5, 5) createInitialBoard
                           (Some createInitialGameState) = Ok b) /\
  (~ 0 <= fst (7, 6) < 8 ->
     isValidMove (7, 6) (5, 5) createInitialBoard (Some createInitialGameState)
     = TypeError) /\
  (forall p, getCell createInitialBoard (7, 6) = Ok (Some p) ->
     ~ 0 <= fst (5, 5) < 8 ->
     isValidMove (7, 6) (5, 5) createInitialBoard (Some createInitialGameState)
     = TypeError) /\
  (0 <= fst (7, 6) < 8 -> ~ 0 <= snd (7, 6) < 8 ->
     isValidMove (7, 6) (5, 5) createInitialBoard (Some createInitialGameState)
     = Ok false).
Proof.
  apply (isValidMove_bounds createInitialBoard (Some createInitialGameState)
           (7, 6) (5, 5)).
  split; [reflexivity|]. repeat constructor.
Defined.

(** * Further properties of the code *)

(** ** Sliding pieces: the squares in between *)

(** The scan started [k] steps before the destination answers true
    exactly when the [k] squares it crosses all read as empty. *)
Lemma pathLoop_clear (board : Board) rowDir colDir toRow toCol :
  rowDir <> 0 \/ colDir <> 0 ->
  forall (k fuel : nat) currentRow currentCol,
    (k < fuel)%nat ->
    currentRow = toRow - Z.of_nat k * rowDir ->
    currentCol = toCol - Z.of_nat k * colDir ->
    pathLoop fuel board currentRow currentCol rowDir colDir toRow toCol = Ok true <->
    forall j, 1 <= j <= Z.of_nat k ->
      getCell board (toRow - j * rowDir, toCol - j * colDir) = Ok None.
Proof.
  intros Hdir. induction k as [|k IH]; intros fuel cr cc Hfuel Hr Hc;
    (destruct fuel as [|fuel]; [lia|]); simpl.
  - replace (cr =? toRow) with true by (symmetry; lia).
    replace (cc =? toCol) with true by (symmetry; lia).
    simpl. split; [intros _ j Hj; lia | reflexivity].
  - replace (negb (cr =? toRow) || negb (cc =? toCol)) with true.
    2: { symmetry. apply orb_true_iff. rewrite !negb_true_iff, !Z.eqb_neq.
         destruct Hdir; [left | right]; nia. }
    assert (Hcell : (cr, cc) = (toRow - Z.of_nat (S k) * rowDir,
                                toCol - Z.of_nat (S k) * colDir))
      by (f_equal; assumption).
    rewrite Hcell.
    destruct (getCell board (toRow - Z.of_nat (S k) * rowDir,
                             toCol - Z.of_nat (S k) * colDir))
      as [[p|]| |] eqn:Hx; result_simpl.
    + split; [intros [=]|]. intros H.
      specialize (H (Z.of_nat (S k)) ltac:(lia)). congruence.
    + rewrite (IH fuel (cr + rowDir) (cc + colDir)) by lia.
      split; intros H j Hj.
      * destruct (Z.eq_dec j (Z.of_nat (S k))) as [->|Hne];
          [exact Hx | apply H; lia].
      * apply H. lia.
    + split; [intros [=]|]. intros H.
      specialize (H (Z.of_nat (S k)) ltac:(lia)). congruence.
    + split; [intros [=]|]. intros H.
      specialize (H (Z.of_nat (S k)) ltac:(lia)). congruence.
Qed.

Lemma isValidRookMove_straightClear (board : Board) from to :
  isValidRookMove from to board = Ok true <-> straightClear board from to.
Proof.
  destruct from as [fr fc], to as [tr tc]. unfold straightClear. cbn [fst snd].
  unfold isValidRookMove.
  destruct (fr =? tr) eqn:Hr, (fc =? tc) eqn:Hc; cbn [negb andb];
    cbv beta iota zeta; rewrite ?Z.eqb_eq, ?Z.eqb_neq in *.
  - subst. split; [intros _; left; split; [reflexivity | intros; lia]|].
    intros _. destruct (Z.to_nat (Z.abs (tr - tr) + Z.abs (tc - tc))); simpl;
      rewrite !Z.add_0_r, !Z.eqb_refl; reflexivity.
  - subst tr. rewrite div_abs_sgn by lia.
    rewrite (pathLoop_clear board 0 (Z.sgn (tc - fc)) fr tc
               ltac:(right; lia) (Z.to_nat (Z.abs (tc - fc) - 1))) by lia.
    split.
    + intros H. left. split; [reflexivity|]. intros c Hcb.
      specialize (H (Z.abs (tc - c)) ltac:(lia)).
      replace (fr - Z.abs (tc - c) * 0) with fr in H by lia.
      replace (tc - Z.abs (tc - c) * Z.sgn (tc - fc)) with c in H by lia.
      exact H.
    + intros [[_ H] | [? _]]; [|contradiction]. intros j Hj.
      replace (fr - j * 0) with fr by lia. apply H. lia.
  - subst tc. rewrite div_abs_sgn by lia.
    rewrite (pathLoop_clear board (Z.sgn (tr - fr)) 0 tr fc
               ltac:(left; lia) (Z.to_nat (Z.abs (tr - fr) - 1))) by lia.
    split.
    + intros H. right. split; [reflexivity|]. intros r Hrb.
      specialize (H (Z.abs (tr - r)) ltac:(lia)).
      replace (fc - Z.abs (tr - r) * 0) with fc in H by lia.
      replace (tr - Z.abs (tr - r) * Z.sgn (tr - fr)) with r in H by lia.
      exact H.
    + intros [[? _] | [_ H]]; [contradiction|]. intros j Hj.
      replace (fc - j * 0) with fc by lia. apply H. lia.
  - split; [intros [=] | intros [[? _] | [? _]]; contradiction].
Qed.

Lemma isValidBishopMove_diagonalClear (board : Board) from to :
  isValidBishopMove from to board = Ok true <-> diagonalClear board from to.
Proof.
  destruct from as [fr fc], to as [tr tc]. unfold diagonalClear. cbn [fst snd].
  unfold isValidBishopMove.
  destruct (Z.abs (fr - tr) =? Z.abs (fc - tc)) eqn:Hd; cbn [negb];
    cbv beta iota zeta; rewrite ?Z.eqb_eq, ?Z.eqb_neq in *.
  2: { split; [intros [=] | intros (_ & ? & _); contradiction]. }
  destruct (tr - fr =? 0) eqn:H0; rewrite ?Z.eqb_eq, ?Z.eqb_neq in *.
  { split; [intros [=]|]. intros (Hne & _ & _). exfalso. apply Hne.
    f_equal; lia. }
  rewrite !div_abs_sgn by lia.
  rewrite (pathLoop_clear board (Z.sgn (tr - fr)) (Z.sgn (tc - fc)) tr tc
             ltac:(left; lia) (Z.to_nat (Z.abs (tr - fr) - 1))) by lia.
  split.
  - intros H. split; [intros [= ? ?]; lia|]. split; [exact Hd|].
    intros j Hj. specialize (H (Z.abs (tr - fr) - j) ltac:(lia)).
    replace (tr - (Z.abs (tr - fr) - j) * Z.sgn (tr - fr))
      with (fr + j * Z.sgn (tr - fr)) in H by lia.
    replace (tc - (Z.abs (tr - fr) - j) * Z.sgn (tc - fc))
      with (fc + j * Z.sgn (tc - fc)) in H by lia.
    exact H.
  - intros (_ & _ & H) j Hj.
    specialize (H (Z.abs (tr - fr) - j) ltac:(lia)).
    replace (fr + (Z.abs (tr - fr) - j) * Z.sgn (tr - fr))
      with (tr - j * Z.sgn (tr - fr)) in H by lia.
    replace (fc + (Z.abs (tr - fr) - j) * Z.sgn (tc - fc))
      with (tc - j * Z.sgn (tc - fc)) in H by lia.
    exact H.
Qed.

Lemma isValidQueenMove_clear (board : Board) from to :
  isValidQueenMove from to board = Ok true <->
  straightClear board from to \/ diagonalClear board from to.
Proof.
  unfold isValidQueenMove. split.
  - intros H. inv_bind H. destruct a as [|].
    + left. apply isValidRookMove_straightClear. exact Ha.
    + right. apply isValidBishopMove_diagonalClear. exact H.
  - intros [Hs | Hd].
    + apply isValidRookMove_straightClear in Hs. rewrite Hs. reflexivity.
    + assert (Hrook : isValidRookMove from to board = Ok false).
      { destruct Hd as (Hne & Habs & _).
        destruct from as [fr fc], to as [tr tc]. cbn [fst snd] in *.
        unfold isValidRookMove.
        assert (fr <> tr /\ fc <> tc) as [H1 H2].
        { split; intros ->; apply Hne; f_equal; lia. }
        apply Z.eqb_neq in H1, H2. rewrite H1, H2. reflexivity. }
      rewrite Hrook. result_simpl.
      apply isValidBishopMove_diagonalClear. exact Hd.
Qed.

Lemma isValidMove_true_iff from to (board : Board) gs p :
  getCell board from = Ok (Some p) ->
  isValidMove from to board gs = Ok true <->
  landingAllowed board to p /\
  match type p with
  | pawn => isValidPawnMove from to (color p) board gs
  | rook => isValidRookMove from to board
  | knight => Ok (isValidKnightMove from to)
  | bishop => isValidBishopMove from to board
  | queen => isValidQueenMove from to board
  | king => isValidKingMove from to board gs
  end = Ok true.
Proof.
  intros Hf. unfold landingAllowed. split.
  - intros H. destruct (isValidMove_true_inv _ _ _ _ H) as (pc & tp & Hf' & Ht & Hs).
    assert (pc = p) by congruence. subst pc.
    rewrite (isValidMove_dispatch _ _ _ _ _ _ Hf Ht), Hs in H. eauto.
  - intros [(target & Ht & Hs) H].
    rewrite (isValidMove_dispatch _ _ _ _ _ _ Hf Ht), Hs. exact H.
Qed.

(** ** What a legal move never is *)

(** X1: the validator never lets a piece stay on its square and never
    lets it land on a piece of its own color: an accepted move starts
    from an occupied square, ends on another square, and what stands
    there, if anything, is of the other color. *)
Theorem legal_move_changes_square_and_spares_own_pieces
    from to (board : Board) gs :
  isValidMove from to board gs = Ok true ->
  from <> to /\
  exists p, getCell board from = Ok (Some p) /\
            forall q, getCell board to = Ok (Some q) -> color q <> color p.
Proof.
  intros H. split.
  - intros ->. apply isValidMove_true_distinct in H.
    destruct to as [r c]. unfold isSameSquare in H. simpl in H.
    rewrite !Z.eqb_refl in H. discriminate.
  - destruct (isValidMove_true_inv _ _ _ _ H) as (p & tp & Hf & Ht & Hs).
    exists p. split; [exact Hf|]. intros q Hq Hc.
    assert (tp = Some q) by congruence. subst tp. simpl in Hs.
    rewrite Hc, PieceColor_eqb_refl in Hs. discriminate.
Qed.

(** The knight of g1 going to f3 on the initial board. *)
Lemma legal_move_changes_square_and_spares_own_pieces_witness :
  (7, 6) <> (5, 5) /\
  exists p, getCell createInitialBoard (7, 6) = Ok (Some p) /\
            forall q, getCell createInitialBoard (5, 5) = Ok (Some q) ->
                      color q <> color p.
Proof.
  apply (legal_move_changes_square_and_spares_own_pieces
           (7, 6) (5, 5) createInitialBoard (Some createInitialGameState)).
  vm_compute. reflexivity.
Defined.

(** ** Rook, bishop and queen *)

(** X2: a rook's move is accepted exactly when the destination holds no
    piece of its color, lies on the rook's row or column, and every
    square strictly in between is empty -- whatever the color of a piece
    standing in the way. *)
Theorem rook_move_legal_iff from to (board : Board) gs p :
  getCell board from = Ok (Some p) ->
  type p = rook ->
  isValidMove from to board gs = Ok true <->
  landingAllowed board to p /\ straightClear board from to.
Proof.
  intros Hf Ht. rewrite (isValidMove_true_iff _ _ _ _ _ Hf), Ht.
  rewrite isValidRookMove_straightClear. reflexivity.
Qed.

(** X3: a bishop's move is accepted exactly when the destination holds
    no piece of its color, lies on a diagonal of the bishop, and every
    square strictly in between is empty. *)
Theorem bishop_move_legal_iff from to (board : Board) gs p :
  getCell board from = Ok (Some p) ->
  type p = bishop ->
  isValidMove from to board gs = Ok true <->
  landingAllowed board to p /\ diagonalClear board from to.
Proof.
  intros Hf Ht. rewrite (isValidMove_true_iff _ _ _ _ _ Hf), Ht.
  rewrite isValidBishopMove_diagonalClear. reflexivity.
Qed.

(** X4: the queen moves as a rook or as a bishop: her move is accepted
    exactly when the destination holds no piece of her color and the
    straight line or the diagonal to it is clear. *)
Theorem queen_move_legal_iff from to (board : Board) gs p :
  getCell board from = Ok (Some p) ->
  type p = queen ->
  isValidMove from to board gs = Ok true <->
  landingAllowed board to p /\
  (straightClear board from to \/ diagonalClear board from to).
Proof.
  intros Hf Ht. rewrite (isValidMove_true_iff _ _ _ _ _ Hf), Ht.
  rewrite isValidQueenMove_clear. reflexivity.
Qed.

(** The rook of h1 going to g1, after 1. e4 a6 2. Be2 b6 3. Nf3 c6. *)
Lemma rook_move_legal_iff_witness :
  isValidMove (7, 7) (7, 6) (board readyToCastle) (Some readyToCastle) = Ok true <->
  landingAllowed (board readyToCastle) (7, 6) (mkPiece rook white) /\
  straightClear (board readyToCastle) (7, 7) (7, 6).
Proof.
  apply (rook_move_legal_iff (7, 7) (7, 6) (board readyToCastle)
           (Some readyToCastle) (mkPiece rook white));
    vm_compute; reflexivity.
Defined.

(** The bishop of e2 going to b5, in the same position. *)
Lemma bishop_move_legal_iff_witness :
  isValidMove (6, 4) (3, 1) (board readyToCastle) (Some readyToCastle) = Ok true <->
  landingAllowed (board readyToCastle) (3, 1) (mkPiece bishop white) /\
  diagonalClear (board readyToCastle) (6, 4) (3, 1).
Proof.
  apply (bishop_move_legal_iff (6, 4) (3, 1) (board readyToCastle)
           (Some readyToCastle) (mkPiece bishop white));
    vm_compute; reflexivity.
Defined.

(** The queen of d1 looking at d3, in the same position. *)
Lemma queen_move_legal_iff_witness :
  isValidMove (7, 3) (5, 3) (board readyToCastle) (Some readyToCastle) = Ok true <->
  landingAllowed (board readyToCastle) (5, 3) (mkPiece queen white) /\
  (straightClear (board readyToCastle) (7, 3) (5, 3) \/
   diagonalClear (board readyToCastle) (7, 3) (5, 3)).
Proof.
  apply (queen_move_legal_iff (7, 3) (5, 3) (board readyToCastle)
           (Some readyToCastle) (mkPiece queen white));
    vm_compute; reflexivity.
Defined.

(** ** Pawns *)

Lemma isSameSquare_refl sq : isSameSquare sq sq = true.
Proof. unfold isSameSquare. rewrite !Z.eqb_refl. reflexivity. Qed.

Lemma isSameSquare_true_iff a b : isSameSquare a b = true <-> a = b.
Proof.
  split; [apply isSameSquare_eq | intros ->; apply isSameSquare_refl].
Qed.

Lemma enPassantAt_true_iff gs to :
  enPassantAt gs to = true <->
  exists g, gs = Some g /\ enPassantTarget g = Some to.
Proof.
  unfold enPassantAt. destruct gs as [g|]; [|split; [discriminate | intros (? & [=] & _)]].
  destruct (enPassantTarget g) as [target|] eqn:He.
  - rewrite isSameSquare_true_iff. split.
    + intros ->. eauto.
    + intros (g' & [= <-] & He'). congruence.
  - split; [discriminate | intros (g' & [= <-] & He'); congruence].
Qed.

(** The pawn's validator as one boolean, once the destination is read. *)
Lemma isValidPawnMove_read (board : Board) gs fr fc tr tc c target :
  getCell board (tr, tc) = Ok target ->
  isValidPawnMove (fr, fc) (tr, tc) c board gs =
  Ok (((fc =? tc)
       && ((tr =? fr + direction c)
           || ((fr =? startRow c) && (tr =? fr + 2 * direction c)))
       && negb (truthy target))
      || ((Z.abs (fc - tc) =? 1) && (tr =? fr + direction c)
          && (truthy target || enPassantAt gs (tr, tc)))).
Proof.
  intros Hto. unfold isValidPawnMove, enPassantAt. rewrite Hto. result_simpl.
  destruct (fc =? tc), (tr =? fr + direction c), (fr =? startRow c),
    (tr =? fr + 2 * direction c), (Z.abs (fc - tc) =? 1), (truthy target);
    simpl; try reflexivity;
    destruct gs as [g|]; try reflexivity;
    destruct (enPassantTarget g); reflexivity.
Qed.

(** X5: the whole rule of the pawn.  A pawn's move is accepted exactly
    when it is one step straight ahead onto an empty square, or two
    steps straight ahead from its starting rank onto an empty square,
    or one step diagonally ahead onto a piece of the other color or,
    the square being empty, onto the current en-passant target.  So a
    pawn never goes backwards or sideways and never captures straight
    ahead. *)
Theorem pawn_move_legal_iff from to (board : Board) gs p :
  getCell board from = Ok (Some p) ->
  type p = pawn ->
  isValidMove from to board gs = Ok true <->
  (snd to = snd from /\ getCell board to = Ok None /\
   (fst to = fst from + direction (color p) \/
    (fst from = startRow (color p) /\
     fst to = fst from + 2 * direction (color p))))
  \/
  (Z.abs (snd from - snd to) = 1 /\ fst to = fst from + direction (color p) /\
   ((exists q, getCell board to = Ok (Some q) /\ color q <> color p) \/
    (getCell board to = Ok None /\
     exists g, gs = Some g /\ enPassantTarget g = Some to))).
Proof.
  intros Hf Ht. rewrite (isValidMove_true_iff _ _ _ _ _ Hf), Ht.
  unfold landingAllowed.
  destruct from as [fr fc], to as [tr tc]. cbn [fst snd] in *.
  rewrite <- (enPassantAt_true_iff gs (tr, tc)).
  destruct (getCell board (tr, tc)) as [target| |] eqn:Hto.
  2,3: (split; [intros [(? & [=] & _) _]|];
        intros [(_ & [=] & _) | (_ & _ & [(q & [=] & _) | ([=] & _)])]).
  rewrite (isValidPawnMove_read board gs fr fc tr tc (color p) target Hto).
  destruct target as [q|]; cbn [truthy negb]; rewrite ?andb_false_r, ?andb_true_r;
    cbn [orb].
  - (* the destination is occupied *)
    split.
    + intros [(target & Ht' & Hs) H]. injection Ht' as <-. injection H as H.
      apply andb_true_iff in H. destruct H as [H Hr].
      apply Z.eqb_eq in H, Hr. right. split; [exact H|]. split; [exact Hr|].
      left. exists q. split; [reflexivity|]. intros Hc. simpl in Hs.
      rewrite Hc, PieceColor_eqb_refl in Hs. discriminate.
    + intros [(_ & [=] & _) | (Hd & Hr & [(q' & [= <-] & Hq) | ([=] & _)])].
      split.
      * exists (Some q). split; [reflexivity|]. simpl.
        destruct (PieceColor_eqb (color q) (color p)) eqn:E; [|reflexivity].
        apply PieceColor_eqb_eq in E. contradiction.
      * f_equal. apply andb_true_iff. rewrite !Z.eqb_eq. auto.
  - (* the destination is empty *)
    split.
    + intros [_ H]. injection H as H. apply orb_true_iff in H.
      destruct H as [H|H].
      * apply andb_true_iff in H. destruct H as [Hc H].
        apply Z.eqb_eq in Hc. left. split; [auto|]. split; [reflexivity|].
        apply orb_true_iff in H. destruct H as [H|H].
        -- left. apply Z.eqb_eq. exact H.
        -- right. apply andb_true_iff in H. rewrite !Z.eqb_eq in H. exact H.
      * apply andb_true_iff in H. destruct H as [H He].
        apply andb_true_iff in H. rewrite !Z.eqb_eq in H.
        right. split; [tauto|]. split; [tauto|]. right. auto.
    + intros [(Hc & _ & H) | (Hd & Hr & [(q & [=] & _) | (_ & He)])];
        (split; [exists None; split; reflexivity|]); f_equal;
        apply orb_true_iff.
      * left. apply andb_true_iff. rewrite Z.eqb_eq. split; [auto|].
        apply orb_true_iff. rewrite andb_true_iff, !Z.eqb_eq. exact H.
      * right. rewrite !andb_true_iff, !Z.eqb_eq. auto.
Qed.

(** The double step of the e-pawn on the initial board. *)
Lemma pawn_move_legal_iff_witness :
  isValidMove (6, 4) (4, 4) createInitialBoard (Some createInitialGameState)
    = Ok true <->
  (snd (4, 4) = snd (6, 4) /\ getCell createInitialBoard (4, 4) = Ok None /\
   (fst (4, 4) = fst (6, 4) + direction white \/
    (fst (6, 4) = startRow white /\
     fst (4, 4) = fst (6, 4) + 2 * direction white)))
  \/
  (Z.abs (snd (6, 4) - snd (4, 4)) = 1 /\ fst (4, 4) = fst (6, 4) + direction white /\
   ((exists q, getCell createInitialBoard (4, 4) = Ok (Some q) /\ color q <> white) \/
    (getCell createInitialBoard (4, 4) = Ok None /\
     exists g, Some createInitialGameState = Some g /\
               enPassantTarget g = Some (4, 4)))).
Proof.
  apply (pawn_move_legal_iff (6, 4) (4, 4) createInitialBoard
           (Some createInitialGameState) (mkPiece pawn white));
    vm_compute; reflexivity.
Defined.

(** X6: the en-passant classifier and the validator agree.  For a pawn
    and an empty destination in another column, the validator accepts
    the move exactly when [isEnPassantMove] classifies it as an
    en-passant capture. *)
Theorem enPassant_classifier_agrees_with_validator
    from to (board : Board) gs p :
  getCell board from = Ok (Some p) ->
  type p = pawn ->
  getCell board to = Ok None ->
  snd from <> snd to ->
  isValidMove from to board (Some gs) = Ok true <->
  isEnPassantMove from to p gs = true.
Proof.
  intros Hf Ht Hto Hcol. rewrite (isValidMove_true_iff _ _ _ _ _ Hf), Ht.
  destruct from as [fr fc], to as [tr tc]. cbn [fst snd] in *.
  rewrite (isValidPawnMove_read board (Some gs) fr fc tr tc (color p) None Hto).
  unfold isEnPassantMove, enPassantAt. rewrite Ht. cbn [fst snd PieceType_eqb negb truthy orb].
  apply Z.eqb_neq in Hcol. rewrite Hcol. cbn [andb orb].
  split.
  - intros [_ [= H]]. destruct (enPassantTarget gs); [exact H|].
    rewrite andb_false_r in H. discriminate.
  - intros H. split; [exists None; split; [exact Hto | reflexivity]|].
    destruct (enPassantTarget gs); [rewrite H; reflexivity | discriminate].
Qed.

(** The white pawn of e5 taking the d-pawn in passing, after
    1. e4 a6 2. e5 d5. *)
Lemma enPassant_classifier_agrees_with_validator_witness :
  isValidMove (3, 4) (2, 3) (board enPassantReady) (Some enPassantReady) = Ok true <->
  isEnPassantMove (3, 4) (2, 3) (mkPiece pawn white) enPassantReady = true.
Proof.
  apply (enPassant_classifier_agrees_with_validator (3, 4) (2, 3)
           (board enPassantReady) enPassantReady (mkPiece pawn white));
    vm_compute; (reflexivity || discriminate).
Defined.

(** ** Kings *)

(** X7: king safety is never looked at.  For a king and a destination
    one step away (in any of the 8 directions) the answer depends on the
    destination alone: the move is accepted exactly when that square
    holds no piece of the king's color, whatever else stands on the
    board.  And without the auxiliary state a king never moves farther
    than one step: there is no castling. *)
Theorem king_step_depends_on_destination_only from to (board : Board) gs p :
  getCell board from = Ok (Some p) ->
  type p = king ->
  (Z.abs (fst from - fst to) <= 1 -> Z.abs (snd from - snd to) <= 1 ->
   from <> to ->
   (isValidMove from to board gs = Ok true <-> landingAllowed board to p)) /\
  (isValidMove from to board None = Ok true ->
   Z.abs (fst from - fst to) <= 1 /\ Z.abs (snd from - snd to) <= 1).
Proof.
  intros Hf Ht. split.
  - intros Hr Hc Hne. rewrite (isValidMove_true_iff _ _ _ _ _ Hf), Ht.
    destruct from as [fr fc], to as [tr tc]. cbn [fst snd] in *.
    unfold isValidKingMove.
    replace ((Z.abs (fr - tr) <=? 1) && (Z.abs (fc - tc) <=? 1)
             && (0 <? Z.abs (fr - tr) + Z.abs (fc - tc))) with true.
    + result_simpl. tauto.
    + symmetry. rewrite !andb_true_iff, !Z.leb_le, Z.ltb_lt.
      repeat split; try assumption.
      destruct (Z.eq_dec fr tr), (Z.eq_dec fc tc); subst; try lia.
      contradiction Hne. reflexivity.
  - rewrite (isValidMove_true_iff _ _ _ _ _ Hf), Ht.
    destruct from as [fr fc], to as [tr tc]. cbn [fst snd] in *.
    unfold isValidKingMove. intros [_ H].
    destruct ((Z.abs (fr - tr) <=? 1) && (Z.abs (fc - tc) <=? 1)
              && (0 <? Z.abs (fr - tr) + Z.abs (fc - tc))) eqn:E;
      [|discriminate].
    rewrite !andb_true_iff, !Z.leb_le in E. tauto.
Qed.

(** The white king after 1. e4 a6 2. Be2 b6 3. Nf3 c6, looking at f1. *)
Lemma king_step_depends_on_destination_only_witness :
  (Z.abs (fst (7, 4) - fst (7, 5)) <= 1 -> Z.abs (snd (7, 4) - snd (7, 5)) <= 1 ->
   (7, 4) <> (7, 5) ->
   (isValidMove (7, 4) (7, 5) (board readyToCastle) (Some readyToCastle) = Ok true
    <-> landingAllowed (board readyToCastle) (7, 5) (mkPiece king white))) /\
  (isValidMove (7, 4) (7, 5) (board readyToCastle) None = Ok true ->
   Z.abs (fst (7, 4) - fst (7, 5)) <= 1 /\ Z.abs (snd (7, 4) - snd (7, 5)) <= 1).
Proof.
  apply (king_step_depends_on_destination_only (7, 4) (7, 5)
           (board readyToCastle) (Some readyToCastle) (mkPiece king white));
    vm_compute; reflexivity.
Defined.

(** ** Shades *)

Lemma isLight_even sq : isLight sq = Z.even (fst sq + snd sq).
Proof.
  unfold isLight. apply eq_true_iff_eq.
  rewrite Z.eqb_eq, Z.even_spec, Z.rem_divide by discriminate.
  split; intros [k Hk]; exists k; lia.
Qed.

(** X8: a knight always lands on a square of the other shade, and a
    bishop never leaves the shade it stands on. *)
Theorem knight_changes_shade_bishop_keeps_it from to (board : Board) :
  (isValidKnightMove from to = true -> isLight to = negb (isLight from)) /\
  (isValidBishopMove from to board = Ok true -> isLight to = isLight from).
Proof.
  rewrite !isLight_even. destruct from as [fr fc], to as [tr tc].
  cbn [fst snd]. split.
  - unfold isValidKnightMove. cbn [fst snd]. intros H.
    assert (Hd : exists d, tr + tc = (fr + fc) + d /\ Z.odd d = true).
    { exists ((tr - fr) + (tc - fc)). split; [lia|].
      rewrite orb_true_iff, !andb_true_iff, !Z.eqb_eq in H.
      assert ((tr - fr) + (tc - fc) = 3 \/ (tr - fr) + (tc - fc) = 1 \/
              (tr - fr) + (tc - fc) = -1 \/ (tr - fr) + (tc - fc) = -3)
        as [-> | [-> | [-> | ->]]] by lia; reflexivity. }
    destruct Hd as (d & -> & Hd).
    rewrite Z.even_add, <- (Z.negb_odd d), Hd.
    destruct (Z.even (fr + fc)); reflexivity.
  - intros H. apply isValidBishopMove_diagonalClear in H.
    destruct H as (_ & Habs & _). cbn [fst snd] in Habs.
    assert (Hd : exists k, tr + tc = (fr + fc) + 2 * k).
    { destruct (Z.eq_dec (fr - tr) (fc - tc)).
      - exists (tr - fr). lia.
      - exists 0. lia. }
    destruct Hd as (k & ->).
    rewrite Z.even_add, Z.even_mul. simpl.
    destruct (Z.even (fr + fc)); reflexivity.
Qed.

(** ** Writes leave the other squares alone *)

Lemma rowGet_rowSet_other row c c' v :
  c' <> c -> rowGet (rowSet row c v) c' = rowGet row c'.
Proof.
  intros Hne. unfold rowGet, rowSet.
  destruct (0 <=? c) eqn:Hc, (0 <=? c') eqn:Hc';
    rewrite ?Z.leb_le, ?Z.leb_gt in *.
  - destruct (Z.to_nat c <? length (elems row))%nat eqn:Hlt; cbn [elems].
    + rewrite list_lookup_insert_ne by lia. reflexivity.
    + apply Nat.ltb_ge in Hlt.
      destruct (Nat.lt_ge_cases (Z.to_nat c') (length (elems row))) as [H|H].
      * rewrite lookup_app_l by exact H. reflexivity.
      * rewrite lookup_app_r by exact H.
        rewrite (lookup_ge_None_2 (elems row)) by exact H.
        destruct (Nat.lt_ge_cases (Z.to_nat c' - length (elems row))
                    (Z.to_nat c - length (elems row))) as [H'|H'].
        -- rewrite lookup_app_l by (rewrite repeat_length; exact H').
           destruct (repeat (None : Cell) (Z.to_nat c - length (elems row))%nat
                     !! (Z.to_nat c' - length (elems row))%nat) as [x|] eqn:E;
             [|reflexivity].
           apply list_elem_of_lookup_2, list_elem_of_In, repeat_spec in E.
           subst x. reflexivity.
        -- rewrite lookup_app_r by (rewrite repeat_length; exact H').
           rewrite repeat_length.
           destruct (Z.to_nat c' - length (elems row)
                     - (Z.to_nat c - length (elems row)))%nat eqn:E;
             [lia | reflexivity].
  - destruct (Z.to_nat c <? length (elems row))%nat; reflexivity.
  - reflexivity.
  - cbn [props lookupProp]. replace (c =? c') with false by (symmetry; lia).
    reflexivity.
Qed.

Lemma getCell_setCell_other (board : Board) sq sq' v board' :
  setCell board sq v = Ok board' -> sq' <> sq ->
  getCell board' sq' = getCell board sq'.
Proof.
  unfold setCell, getCell.
  destruct (getRow board (fst sq)) as [row|] eqn:Hrow; [|discriminate].
  intros [= <-] Hne.
  destruct (getRow_Some_lt _ _ _ Hrow) as [Hr Hlt].
  unfold getRow in *. replace (0 <=? fst sq) with true in Hrow by (symmetry; lia).
  destruct (0 <=? fst sq') eqn:Hr'; [|reflexivity].
  apply Z.leb_le in Hr'.
  destruct (Z.eq_dec (fst sq') (fst sq)) as [E|E].
  - rewrite E, list_lookup_insert_eq by exact Hlt. rewrite Hrow.
    rewrite rowGet_rowSet_other; [reflexivity|].
    intros Ec. apply Hne. destruct sq, sq'. simpl in *. congruence.
  - rewrite list_lookup_insert_ne by lia. reflexivity.
Qed.

Lemma getCell_copyBoard (board : Board) sq :
  0 <= snd sq -> getCell (copyBoard board) sq = getCell board sq.
Proof.
  intros Hc. unfold getCell. rewrite getRow_copyBoard.
  destruct (getRow board (fst sq)) as [row|]; [|reflexivity].
  simpl. unfold rowGet. cbn [elems].
  replace (0 <=? snd sq) with true by (symmetry; lia). reflexivity.
Qed.

Lemma setCell_ex (board : Board) sq v :
  is_Some (getRow board (fst sq)) ->
  exists board',
    setCell board sq v = Ok board' /\
    getCell board' sq = Ok v /\
    (forall sq', sq' <> sq -> getCell board' sq' = getCell board sq') /\
    (forall r, is_Some (getRow board' r) <-> is_Some (getRow board r)).
Proof.
  intros Hrow. destruct (setCell_is_Ok board sq v Hrow) as [b' Hb'].
  exists b'. split; [exact Hb'|]. split; [exact (getCell_setCell _ _ _ _ Hb')|].
  split.
  - intros sq' Hne. exact (getCell_setCell_other _ _ _ _ _ Hb' Hne).
  - intros r. exact (getRow_setCell _ _ _ _ r Hb').
Qed.

(** ** Special moves on the board *)

Lemma executeCastling_frame (board : Board) r to k :
  getCell board (r, 4) = Ok (Some k) ->
  snd to = 6 \/ snd to = 2 ->
  exists board',
    executeCastling board (r, 4) to = Ok board' /\
    getCell board' (r, 4) = Ok None /\
    getCell board' (r, snd to) = Ok (Some k) /\
    getCell board' (r, castledRookTo (snd to))
      = getCell board (r, castledRookFrom (snd to)) /\
    getCell board' (r, castledRookFrom (snd to)) = Ok None /\
    forall sq, 0 <= snd sq ->
      sq <> (r, 4) -> sq <> (r, snd to) ->
      sq <> (r, castledRookTo (snd to)) -> sq <> (r, castledRookFrom (snd to)) ->
      getCell board' sq = getCell board sq.
Proof.
  intros Hk Hside. destruct to as [tr tc]. cbn [fst snd] in *.
  assert (Hrow0 : is_Some (getRow (copyBoard board) r)).
  { apply getRow_copyBoard_is_Some. exact (getCell_Ok_row _ _ _ Hk). }
  unfold executeCastling. cbn [fst snd].
  rewrite (getCell_copyBoard board (r, 4)) by (simpl; lia).
  rewrite Hk. result_simpl.
  destruct (setCell_ex (copyBoard board) (r, 4) None Hrow0)
    as (b1 & -> & G1 & O1 & R1).
  destruct (setCell_ex b1 (r, tc) (Some k) (proj2 (R1 r) Hrow0))
    as (b2 & -> & G2 & O2 & R2).
  assert (Hrow2 : is_Some (getRow b2 r)) by (apply R2, R1, Hrow0).
  assert (Hcopy : forall c, 0 <= c ->
            getCell (copyBoard board) (r, c) = getCell board (r, c))
    by (intros c Hc; apply getCell_copyBoard; exact Hc).
  destruct Hside as [-> | ->]; cbn [Z.eqb Pos.eqb castledRookFrom castledRookTo];
    unfold castledRookFrom, castledRookTo; cbn [Z.eqb Pos.eqb].
  - destruct (getCell_is_Ok b2 (r, 7) Hrow2) as [rk Hrk]. rewrite Hrk.
    destruct (setCell_ex b2 (r, 7) None Hrow2) as (b3 & -> & G3 & O3 & R3).
    destruct (setCell_ex b3 (r, 5) rk (proj2 (R3 r) Hrow2))
      as (b4 & -> & G4 & O4 & R4).
    exists b4. split; [reflexivity|].
    assert (Hrk' : getCell board (r, 7) = Ok rk).
    { rewrite <- Hcopy by lia. rewrite <- O1, <- O2, Hrk by congruence.
      reflexivity. }
    repeat split.
    + rewrite O4, O3, O2, G1 by congruence. reflexivity.
    + rewrite O4, O3, G2 by congruence. reflexivity.
    + rewrite G4, Hrk'. reflexivity.
    + rewrite O4, G3 by congruence. reflexivity.
    + intros sq Hc H4 H6 H5 H7.
      rewrite O4, O3, O2, O1 by assumption. apply getCell_copyBoard, Hc.
  - destruct (getCell_is_Ok b2 (r, 0) Hrow2) as [rk Hrk]. rewrite Hrk.
    destruct (setCell_ex b2 (r, 0) None Hrow2) as (b3 & -> & G3 & O3 & R3).
    destruct (setCell_ex b3 (r, 3) rk (proj2 (R3 r) Hrow2))
      as (b4 & -> & G4 & O4 & R4).
    exists b4. split; [reflexivity|].
    assert (Hrk' : getCell board (r, 0) = Ok rk).
    { rewrite <- Hcopy by lia. rewrite <- O1, <- O2, Hrk by congruence.
      reflexivity. }
    repeat split.
    + rewrite O4, O3, O2, G1 by congruence. reflexivity.
    + rewrite O4, O3, G2 by congruence. reflexivity.
    + rewrite G4, Hrk'. reflexivity.
    + rewrite O4, G3 by congruence. reflexivity.
    + intros sq Hc H4 H6 H5 H7.
      rewrite O4, O3, O2, O1 by assumption. apply getCell_copyBoard, Hc.
Qed.


Lemma executeEnPassant_frame (board : Board) from to p :
  is_Some (getRow board (fst from)) ->
  is_Some (getRow board (fst to)) ->
  is_Some (getRow board (fst (capturedPawnSquare to p))) ->
  0 <= snd to ->
  snd from <> snd to ->
  exists board' captured,
    executeEnPassant board from to p = Ok (board', captured) /\
    getCell board (capturedPawnSquare to p) = Ok captured /\
    getCell board' from = Ok None /\
    getCell board' to = Ok (Some p) /\
    getCell board' (capturedPawnSquare to p) = Ok None /\
    forall sq, 0 <= snd sq ->
      sq <> from -> sq <> to -> sq <> capturedPawnSquare to p ->
      getCell board' sq = getCell board sq.
Proof.
  intros Hrf Hrt Hrc Hcol Hne.
  destruct from as [fr fc], to as [tr tc]. cbn [fst snd] in *.
  assert (Hcap : (if PieceColor_eqb (color p) white then tr + 1 else tr - 1, tc)
                 = capturedPawnSquare (tr, tc) p).
  { unfold capturedPawnSquare. cbn [fst snd].
    destruct (color p); simpl; f_equal; lia. }
  unfold executeEnPassant. rewrite Hcap. clear Hcap.
  set (cap := capturedPawnSquare (tr, tc) p) in *.
  assert (Hcap_to : cap <> (tr, tc)).
  { unfold cap, capturedPawnSquare. cbn [fst snd].
    intros [= E]. destruct (color p); simpl in E; lia. }
  assert (Hcap_from : cap <> (fr, fc)).
  { unfold cap, capturedPawnSquare. cbn [fst snd]. intros [= _ E]. lia. }
  assert (Hcapcol : 0 <= snd cap) by exact Hcol.
  apply getRow_copyBoard_is_Some in Hrf, Hrt, Hrc.
  destruct (setCell_ex (copyBoard board) (fr, fc) None Hrf)
    as (b1 & -> & G1 & O1 & R1).
  destruct (setCell_ex b1 (tr, tc) (Some p) (proj2 (R1 tr) Hrt))
    as (b2 & Hb2 & G2 & O2 & R2).
  result_simpl. rewrite Hb2.
  assert (Hrc2 : is_Some (getRow b2 (fst cap))) by (apply R2, R1, Hrc).
  destruct (getCell_is_Ok b2 cap Hrc2) as [x Hx]. rewrite Hx.
  destruct (setCell_ex b2 cap None Hrc2) as (b3 & -> & G3 & O3 & R3).
  exists b3, x. split; [reflexivity|].
  repeat split.
  - rewrite <- (getCell_copyBoard board cap Hcapcol).
    rewrite <- O1, <- O2, Hx by assumption. reflexivity.
  - rewrite O3, O2, G1 by congruence. reflexivity.
  - rewrite O3, G2 by congruence. reflexivity.
  - exact G3.
  - intros sq Hc H1 H2 H3.
    rewrite O3, O2, O1 by assumption. apply getCell_copyBoard, Hc.
Qed.


(** X9: a regular move (neither castling nor en passant) relocates one
    piece and touches nothing else.  [executeMove] succeeds when the two
    rows exist; in the new board [from] is empty, [to] holds the moving
    piece (or the piece it is promoted to), every other square is as
    before; what stood on [to] is recorded as the captured piece of the
    move and, if it is a piece, pushed onto the captured lists. *)
Theorem executeMove_regular_move now gs from to mp pt :
  isCastlingMove from to mp = false ->
  isEnPassantMove from to mp gs = false ->
  is_Some (getRow (board gs) (fst from)) ->
  is_Some (getRow (board gs) (fst to)) ->
  0 <= snd to ->
  from <> to ->
  exists s' m,
    executeMove now gs from to mp pt = Ok s' /\
    moves s' = moves gs ++ [m] /\
    getCell (board gs) to = Ok (capturedPiece m) /\
    capturedPieces s' = pushCaptured (capturedPieces gs) (capturedPiece m) /\
    getCell (board s') from = Ok None /\
    getCell (board s') to = Ok (Some (arrivingPiece mp pt)) /\
    forall sq, 0 <= snd sq -> sq <> from -> sq <> to ->
      getCell (board s') sq = getCell (board gs) sq.
Proof.
  intros Hc He Hrf Hrt Hcol Hne.
  unfold executeMove. rewrite Hc, He.
  rewrite (getCell_copyBoard (board gs) to Hcol).
  destruct (getCell_is_Ok (board gs) to Hrt) as [x Hx]. rewrite Hx.
  apply getRow_copyBoard_is_Some in Hrf, Hrt.
  destruct (setCell_ex (copyBoard (board gs)) from None Hrf)
    as (b1 & Hb1 & G1 & O1 & R1).
  destruct (setCell_ex b1 to (Some mp) (proj2 (R1 (fst to)) Hrt))
    as (b2 & Hb2 & G2 & O2 & R2).
  result_simpl. rewrite Hb1, Hb2.
  destruct pt as [t|]; cbn [arrivingPiece].
  - destruct (setCell_ex b2 to (Some (mkPiece t (color mp)))
                (proj2 (R2 (fst to)) (proj2 (R1 (fst to)) Hrt)))
      as (b3 & -> & G3 & O3 & R3).
    eexists. eexists. split; [reflexivity|]. cbn [moves board capturedPieces capturedPiece].
    split; [reflexivity|]. split; [reflexivity|]. split; [reflexivity|].
    split; [rewrite O3, O2, G1 by congruence; reflexivity|].
    split; [exact G3|].
    intros sq Hsc H1 H2. rewrite O3, O2, O1 by assumption.
    apply getCell_copyBoard, Hsc.
  - eexists. eexists. split; [reflexivity|]. cbn [moves board capturedPieces capturedPiece].
    split; [reflexivity|]. split; [reflexivity|]. split; [reflexivity|].
    split; [rewrite O2, G1 by congruence; reflexivity|].
    split; [exact G2|].
    intros sq Hsc H1 H2. rewrite O2, O1 by assumption.
    apply getCell_copyBoard, Hsc.
Qed.

(** 1. e4 on the initial board. *)
Lemma executeMove_regular_move_witness :
  exists s' m,
    executeMove 0 createInitialGameState (6, 4) (4, 4) (mkPiece pawn white) None
      = Ok s' /\
    moves s' = moves createInitialGameState ++ [m] /\
    getCell (board createInitialGameState) (4, 4) = Ok (capturedPiece m) /\
    capturedPieces s'
      = pushCaptured (capturedPieces createInitialGameState) (capturedPiece m) /\
    getCell (board s') (6, 4) = Ok None /\
    getCell (board s') (4, 4)
      = Ok (Some (arrivingPiece (mkPiece pawn white) None)) /\
    forall sq, 0 <= snd sq -> sq <> (6, 4) -> sq <> (4, 4) ->
      getCell (board s') sq = getCell (board createInitialGameState) sq.
Proof.
  apply (executeMove_regular_move 0 createInitialGameState (6, 4) (4, 4)
           (mkPiece pawn white) None);
    try (vm_compute; eauto; fail); try (simpl; lia); discriminate.
Defined.

(** ** The state machine, step by step *)

Lemma executeMove_committed now gs from to mp pt s' :
  executeMove now gs from to mp pt = Ok s' ->
  exists newBoard captured,
    s' = committedState gs newBoard (recordedMove now gs from to mp pt captured).
Proof.
  unfold executeMove. intros H.
  inv_bind H. inv_bind H. destruct a0 as [nb cp].
  injection H as <-. exists nb, cp. reflexivity.
Qed.

Lemma step_stepKind s ev : stepKind s ev (step s ev).
Proof.
  destruct ev as [now [sq|t| |]]; cbn [step]; try constructor.
  - (* a click *)
    destruct (handleSquareClick now s sq) as [s'| |] eqn:H; cbn [keep];
      try apply step_stays.
    unfold handleSquareClick in H. inv_bind H. rename a into target.
    assert (Hselect : ownPiece s target = true ->
              selectSquare s sq = Ok s' -> stepKind s (now, Click sq) s').
    { intros Hp Hs. unfold selectSquare in Hs. inv_bind Hs.
      injection Hs as <-. destruct target as [p|]; [|discriminate].
      simpl in Hp. apply PieceColor_eqb_eq in Hp.
      eapply step_selects; eassumption. }
    destruct (selectedSquare s) as [sel|] eqn:Hsel.
    + destruct (isSameSquare sel sq); [injection H as <-; apply step_deselects|].
      inv_bind H. destruct a as [|].
      * inv_bind H. destruct a as [mp|]; [|injection H as <-; apply step_stays].
        destruct (isPromotionMove sel sq mp) eqn:Hpromo.
        -- injection H as <-. eapply step_defers_promotion; eassumption.
        -- destruct (executeMove_committed _ _ _ _ _ _ _ H) as (nb & cp & ->).
           eapply step_moves; eassumption.
      * destruct (ownPiece s target) eqn:Hp; [apply Hselect; auto|].
        injection H as <-. apply step_deselects.
    + destruct (ownPiece s target) eqn:Hp; [apply Hselect; auto|].
      injection H as <-. apply step_stays.
  - (* the choice of a promotion *)
    destruct (handlePromotion now s t) as [s'| |] eqn:H; cbn [keep];
      try apply step_stays.
    unfold handlePromotion in H.
    destruct (promotionPending s) as [pp|] eqn:Hpp;
      [|injection H as <-; apply step_stays].
    destruct (selectedSquare s) as [sel|] eqn:Hsel;
      [|injection H as <-; apply step_stays].
    inv_bind H. destruct a as [mp|]; [|injection H as <-; apply step_stays].
    destruct (executeMove_committed _ _ _ _ _ _ _ H) as (nb & cp & ->).
    eapply step_promotes; eassumption.
Qed.

(** Induction over the runs of the machine. *)
Lemma run_invariant (Q : Z * Action -> Prop) (P : GameState -> Prop) :
  (forall s ev, Q ev -> P s -> P (step s ev)) ->
  forall evs s, Forall Q evs -> P s -> P (run s evs).
Proof.
  intros Hstep. induction evs as [|ev evs IH]; intros s Hq Hs; [exact Hs|].
  inversion Hq; subst. simpl. apply IH; [assumption|]. apply Hstep; assumption.
Qed.

Lemma run_invariant_all (P : GameState -> Prop) :
  (forall s ev, P s -> P (step s ev)) ->
  forall evs s, P s -> P (run s evs).
Proof.
  intros Hstep evs s Hs.
  apply (run_invariant (fun _ => True) P); auto.
  apply Forall_forall. auto.
Qed.

(** ** Invariants of the game *)

(** X10: the machine never reports check, checkmate or the end of the
    game, and never touches the players: in every state reached from
    the initial one the three flags are false and the players are those
    of the initial state. *)
Theorem never_reports_check_or_game_over (evs : list (Z * Action)) :
  isCheck (run createInitialGameState evs) = false /\
  isCheckmate (run createInitialGameState evs) = false /\
  gameOver (run createInitialGameState evs) = false /\
  players (run createInitialGameState evs) = players createInitialGameState.
Proof.
  apply (run_invariant_all
           (fun s => isCheck s = false /\ isCheckmate s = false /\
                     gameOver s = false /\
                     players s = players createInitialGameState));
    [|repeat split].
  intros s ev Hs. generalize (step_stepKind s ev). generalize (step s ev).
  intros s' K. destruct K; simpl; try exact Hs; repeat split.
Qed.

Lemma rightsLe_refl r : rightsLe r r.
Proof. unfold rightsLe. tauto. Qed.

Lemma rightsLe_trans r1 r2 r3 : rightsLe r1 r2 -> rightsLe r2 r3 -> rightsLe r1 r3.
Proof. unfold rightsLe. tauto. Qed.

Lemma updateCastlingRights_le gs m :
  rightsLe (updateCastlingRights gs m) (castlingRights gs).
Proof.
  destruct m as [[fr fc] tosq [t c] cap nt ts ic ie ip pt].
  destruct (castlingRights gs) as [wk wq bk bq] eqn:Hr.
  unfold updateCastlingRights, rightsLe. rewrite Hr. simpl.
  destruct t, c; simpl;
    try destruct (fr =? 7); try destruct (fr =? 0);
    try destruct (fc =? 0); try destruct (fc =? 7); simpl;
    repeat split; auto; discriminate.
Qed.

(** X11: within one game the castling rights only ever go away: after
    any sequence of clicks, promotion choices and cancellations, a right
    that is set was set at the start of the sequence. *)
Theorem castling_rights_never_come_back (s : GameState) (evs : list (Z * Action)) :
  Forall sameGameEvent evs ->
  rightsLe (castlingRights (run s evs)) (castlingRights s).
Proof.
  intros Hevs.
  apply (run_invariant sameGameEvent
           (fun s' => rightsLe (castlingRights s') (castlingRights s)));
    [|exact Hevs|apply rightsLe_refl].
  intros s1 ev Hev H1. generalize (step_stepKind s1 ev). generalize (step s1 ev).
  intros s' K. destruct K; simpl; try exact H1.
  - eapply rightsLe_trans; [apply updateCastlingRights_le | exact H1].
  - eapply rightsLe_trans; [apply updateCastlingRights_le | exact H1].
  - contradiction Hev. reflexivity.
Qed.

(** The white king steps to f1 and back to e1. *)
Lemma castling_rights_never_come_back_witness :
  rightsLe
    (castlingRights
       (run readyToCastle
            (clicks [(7, 4); (7, 5); (1, 3); (2, 3); (7, 5); (7, 4)])))
    (castlingRights readyToCastle).
Proof.
  apply (castling_rights_never_come_back readyToCastle
           (clicks [(7, 4); (7, 5); (1, 3); (2, 3); (7, 5); (7, 4)])).
  repeat constructor; discriminate.
Defined.

(** X12: the en-passant window is one ply wide.  In every state reached
    from the initial one the target is the one the last move of the
    history leaves: the square a pawn has just passed, or none when the
    last move is anything else or when no move was made. *)
Theorem enPassant_target_is_that_of_the_last_move (evs : list (Z * Action)) :
  enPassantTarget (run createInitialGameState evs)
  = lastMoveWindow (moves (run createInitialGameState evs)).
Proof.
  apply (run_invariant_all
           (fun s => enPassantTarget s = lastMoveWindow (moves s)));
    [|reflexivity].
  intros s ev Hs. generalize (step_stepKind s ev). generalize (step s ev).
  intros s' K. destruct K; simpl; try exact Hs;
    unfold lastMoveWindow; rewrite ?last_snoc; reflexivity.
Qed.

Lemma capturedOf_snoc c ms m :
  capturedOf c (ms ++ [m])
  = capturedOf c ms
    ++ match capturedPiece m with
       | Some p => if PieceColor_eqb (color p) c then [p] else []
       | None => []
       end.
Proof.
  unfold capturedOf. rewrite omap_app, List.filter_app. f_equal.
  simpl. destruct (capturedPiece m); reflexivity.
Qed.

(** X13: the captured lists are the captures of the history.  In every
    state reached from the initial one, the list shown for White is
    exactly the black pieces recorded as captured in the moves, in
    order, and the list shown for Black the white ones. *)
Theorem captured_lists_match_history (evs : list (Z * Action)) :
  capturedByWhite (capturedPieces (run createInitialGameState evs))
    = capturedOf black (moves (run createInitialGameState evs)) /\
  capturedByBlack (capturedPieces (run createInitialGameState evs))
    = capturedOf white (moves (run createInitialGameState evs)).
Proof.
  apply (run_invariant_all
           (fun s => capturedByWhite (capturedPieces s) = capturedOf black (moves s) /\
                     capturedByBlack (capturedPieces s) = capturedOf white (moves s)));
    [|split; reflexivity].
  intros s ev [Hw Hb]. generalize (step_stepKind s ev). generalize (step s ev).
  intros s' K. destruct K; simpl; try (split; assumption); try (split; reflexivity);
    rewrite !capturedOf_snoc; simpl; unfold pushCaptured;
    (destruct captured as [[ct [|]]|]; simpl; rewrite ?app_nil_r, Hw, Hb;
     split; reflexivity).
Qed.

(** X14: every move of the history is recorded consistently: its
    notation is the one the encoder gives for its own fields, it is
    flagged as castling exactly when a king goes two columns along its
    row, and as a promotion exactly when it carries a promoted type. *)
Theorem history_is_well_recorded (evs : list (Z * Action)) :
  Forall wellRecorded (moves (run createInitialGameState evs)).
Proof.
  apply (run_invariant_all (fun s => Forall wellRecorded (moves s)));
    [|constructor].
  intros s ev Hs. generalize (step_stepKind s ev). generalize (step s ev).
  intros s' K. destruct K; simpl; try exact Hs; try constructor;
    (apply Forall_app; split; [exact Hs|]);
    repeat constructor.
Qed.

(** ** The board stays 8 by 8 *)

Lemma copyBoard_wf (board : Board) : wfBoard board -> wfBoard (copyBoard board).
Proof.
  intros [Hlen Hrows]. split.
  - unfold copyBoard. rewrite length_map. exact Hlen.
  - unfold copyBoard. apply Forall_map. eapply Forall_impl; [exact Hrows|].
    intros row [Hl _]. split; [exact Hl | reflexivity].
Qed.

Lemma setCell_wf (board : Board) sq v board' :
  wfBoard board -> 0 <= snd sq < 8 ->
  setCell board sq v = Ok board' -> wfBoard board'.
Proof.
  intros [Hlen Hrows] Hc. unfold setCell.
  destruct (getRow board (fst sq)) as [row|] eqn:Hrow; [|discriminate].
  intros [= <-]. split; [rewrite length_insert; exact Hlen|].
  apply Forall_insert; [exact Hrows|].
  unfold getRow in Hrow. destruct (0 <=? fst sq); [|discriminate].
  rewrite Forall_lookup in Hrows. destruct (Hrows _ _ Hrow) as [Hl Hp].
  unfold rowSet. replace (0 <=? snd sq) with true by (symmetry; lia).
  replace (Z.to_nat (snd sq) <? length (elems row))%nat with true
    by (symmetry; apply Nat.ltb_lt; lia).
  split; [cbn [elems]; rewrite length_insert; exact Hl | exact Hp].
Qed.

Lemma wfBoard_row (board : Board) r :
  wfBoard board -> 0 <= r < 8 -> is_Some (getRow board r).
Proof.
  intros [Hlen _] Hr. unfold getRow.
  replace (0 <=? r) with true by (symmetry; lia).
  apply lookup_lt_is_Some. lia.
Qed.

Lemma getRow_wf_range (board : Board) r :
  wfBoard board -> is_Some (getRow board r) -> 0 <= r < 8.
Proof.
  intros [Hlen _] [row Hrow]. apply getRow_Some_lt in Hrow. lia.
Qed.

Lemma isSquareOnBoard_range sq :
  isSquareOnBoard sq = true <-> (0 <= fst sq < 8 /\ 0 <= snd sq < 8).
Proof.
  destruct sq as [r c]. unfold isSquareOnBoard. cbn [fst snd].
  rewrite !andb_true_iff, !Z.leb_le, !Z.ltb_lt. tauto.
Qed.

Lemma executeCastling_wf (board : Board) from to board' :
  wfBoard board -> 0 <= snd from < 8 -> 0 <= snd to < 8 ->
  executeCastling board from to = Ok board' -> wfBoard board'.
Proof.
  intros Hwf Hf Ht. apply copyBoard_wf in Hwf.
  destruct from as [fr fc], to as [tr tc]. cbn [fst snd] in *.
  unfold executeCastling. cbn [fst snd]. intros H.
  inv_bind H. destruct (truthy a); cbn [negb] in H;
    [|injection H as <-; exact Hwf].
  inv_bind H. inv_bind H.
  assert (W1 : wfBoard a0) by (eapply setCell_wf; [exact Hwf | | exact Ha0]; simpl; lia).
  assert (W2 : wfBoard a1) by (eapply setCell_wf; [exact W1 | | exact Ha1]; simpl; lia).
  destruct (tc =? 6).
  - inv_bind H. inv_bind H.
    assert (W3 : wfBoard a3) by (eapply setCell_wf; [exact W2 | | exact Ha3]; simpl; lia).
    eapply setCell_wf; [exact W3 | | exact H]. simpl; lia.
  - destruct (tc =? 2); [|injection H as <-; exact W2].
    inv_bind H. inv_bind H.
    assert (W3 : wfBoard a3) by (eapply setCell_wf; [exact W2 | | exact Ha3]; simpl; lia).
    eapply setCell_wf; [exact W3 | | exact H]. simpl; lia.
Qed.

Lemma executeEnPassant_wf (board : Board) from to p board' captured :
  wfBoard board -> 0 <= snd from < 8 -> 0 <= snd to < 8 ->
  executeEnPassant board from to p = Ok (board', captured) -> wfBoard board'.
Proof.
  intros Hwf Hf Ht. apply copyBoard_wf in Hwf.
  destruct to as [tr tc]. cbn [fst snd] in *.
  unfold executeEnPassant. intros H.
  inv_bind H. inv_bind H. inv_bind H. inv_bind H. injection H as <- _.
  assert (W1 : wfBoard a) by (eapply setCell_wf; [exact Hwf | | exact Ha]; assumption).
  assert (W2 : wfBoard a0) by (eapply setCell_wf; [exact W1 | | exact Ha0]; simpl; lia).
  eapply setCell_wf; [exact W2 | | exact Ha2]. simpl; lia.
Qed.

Lemma executeMove_wf now gs from to mp pt s' :
  wfBoard (board gs) -> 0 <= snd from < 8 -> 0 <= snd to < 8 ->
  executeMove now gs from to mp pt = Ok s' -> wfBoard (board s').
Proof.
  intros Hwf Hf Ht. unfold executeMove. intros H.
  inv_bind H. inv_bind H. destruct a0 as [nb cp]. injection H as <-.
  cbn [board]. pose proof (copyBoard_wf _ Hwf) as Hwf0.
  destruct (isCastlingMove from to mp).
  - inv_bind Ha0. injection Ha0 as <- _.
    eapply executeCastling_wf; [exact Hwf0 | | | exact Ha1]; assumption.
  - destruct (isEnPassantMove from to mp gs).
    + eapply executeEnPassant_wf; [exact Hwf0 | | | exact Ha0]; assumption.
    + inv_bind Ha0. inv_bind Ha0.
      assert (W1 : wfBoard a0) by (eapply setCell_wf; [exact Hwf0 | | exact Ha1]; assumption).
      assert (W2 : wfBoard a1) by (eapply setCell_wf; [exact W1 | | exact Ha2]; assumption).
      destruct pt as [t|].
      * inv_bind Ha0. injection Ha0 as <- _.
        eapply setCell_wf; [exact W2 | | exact Ha3]. assumption.
      * injection Ha0 as <- _. exact W2.
Qed.

(** ** On the board nothing throws *)

Lemma isValidMove_total (board : Board) gs from to :
  length board = 8%nat -> 0 <= fst from < 8 -> 0 <= fst to < 8 ->
  exists b, isValidMove from to board gs = Ok b.
Proof.
  intros Hlen Hfr Htr. destruct from as [fr fc], to as [tr tc]. cbn [fst snd] in *.
  destruct (getCell_total board fr fc Hlen Hfr) as [p Hp].
  destruct (getCell_total board tr tc Hlen Htr) as [target Htarget].
  destruct p as [pc|];
    [|unfold isValidMove; rewrite Hp; eexists; reflexivity].
  rewrite (isValidMove_dispatch _ _ _ _ _ _ Hp Htarget).
  destruct (sameColor target pc) eqn:Hsame; [eauto|].
  assert (Hne : (fr, fc) <> (tr, tc)).
  { intros E. rewrite <- E, Hp in Htarget. injection Htarget as <-.
    simpl in Hsame. rewrite PieceColor_eqb_refl in Hsame. discriminate. }
  destruct (type pc).
  - apply isValidPawnMove_total; assumption.
  - apply isValidRookMove_total; assumption.
  - eauto.
  - apply (isValidBishopMove_total board (fr, fc) (tr, tc) Hlen Hfr Htr Hne).
  - unfold isValidQueenMove.
    destruct (isValidRookMove_total board (fr, fc) (tr, tc) Hlen Hfr Htr)
      as [[|] ->]; result_simpl; [eauto|].
    apply (isValidBishopMove_total board (fr, fc) (tr, tc) Hlen Hfr Htr Hne).
  - apply isValidKingMove_total; assumption.
Qed.

Lemma filterValidMoves_total (board : Board) gs from tos :
  length board = 8%nat -> 0 <= fst from < 8 ->
  Forall (fun to => isSquareOnBoard to = true) tos ->
  exists vm, filterValidMoves gs from board tos = Ok vm.
Proof.
  intros Hlen Hf. induction tos as [|to tos IH]; intros Htos; simpl; [eauto|].
  inversion Htos as [|? ? Hto Hrest]; subst.
  apply isSquareOnBoard_range in Hto. destruct Hto as [Hto _].
  destruct (isValidMove_total board (Some gs) from to Hlen Hf Hto) as [b ->].
  destruct (IH Hrest) as [vm ->]. result_simpl. eauto.
Qed.

Lemma allSquares_on_board : Forall (fun sq => isSquareOnBoard sq = true) allSquares.
Proof.
  apply Forall_forall. intros sq Hin. apply list_elem_of_In in Hin.
  revert sq Hin. apply (proj1 (List.forallb_forall _ _)). vm_compute. reflexivity.
Qed.

Lemma allSquares_complete sq : isSquareOnBoard sq = true -> In sq allSquares.
Proof.
  intros H. apply isSquareOnBoard_range in H. destruct sq as [r c].
  cbn [fst snd] in H. unfold allSquares. apply in_flat_map.
  exists r. split.
  - apply list_elem_of_In, elem_of_seqZ. lia.
  - apply in_map. apply list_elem_of_In, elem_of_seqZ. lia.
Qed.

Lemma allSquares_NoDup : List.NoDup allSquares.
Proof.
  apply NoDup_ListNoDup. apply (bool_decide_unpack (NoDup allSquares)).
  vm_compute. exact I.
Qed.

Lemma filterValidMoves_spec (board : Board) gs from tos vm :
  filterValidMoves gs from board tos = Ok vm ->
  (forall to, In to vm <->
              In to tos /\ isValidMove from to board (Some gs) = Ok true) /\
  (List.NoDup tos -> List.NoDup vm).
Proof.
  revert vm. induction tos as [|t tos IH]; simpl; intros vm H.
  - injection H as <-. split; [simpl; tauto | auto].
  - inv_bind H. inv_bind H. injection H as <-.
    destruct (IH a0 Ha0) as [Hin Hnd]. split.
    + intros to. destruct a as [|]; simpl; rewrite Hin; split.
      * intros [<- | [? ?]]; auto.
      * intros [[<- | ?] ?]; auto.
      * intros [? ?]; auto.
      * intros [[<- | ?] Hv]; [congruence | auto].
    + intros Hd. inversion Hd as [|? ? Hnotin Hd']; subst.
      destruct a as [|]; [|auto].
      constructor; [|auto]. rewrite Hin. tauto.
Qed.

Lemma executeCastling_total (board : Board) from to :
  is_Some (getRow board (fst from)) ->
  exists board', executeCastling board from to = Ok board'.
Proof.
  intros Hrow. apply getRow_copyBoard_is_Some in Hrow.
  destruct from as [fr fc], to as [tr tc]. cbn [fst snd] in *.
  unfold executeCastling. cbn [fst snd].
  destruct (getCell_is_Ok (copyBoard board) (fr, fc) Hrow) as [k ->].
  result_simpl. destruct (truthy k); cbn [negb]; [|eauto].
  destruct (setCell_ex (copyBoard board) (fr, fc) None Hrow)
    as (b1 & -> & _ & _ & R1).
  destruct (setCell_ex b1 (fr, tc) k (proj2 (R1 fr) Hrow))
    as (b2 & -> & _ & _ & R2).
  assert (H2 : is_Some (getRow b2 fr)) by (apply R2, R1; exact Hrow).
  destruct (tc =? 6).
  - destruct (getCell_is_Ok b2 (fr, 7) H2) as [rk ->].
    destruct (setCell_ex b2 (fr, 7) None H2) as (b3 & -> & _ & _ & R3).
    destruct (setCell_ex b3 (fr, 5) rk (proj2 (R3 fr) H2)) as (b4 & -> & _).
    eauto.
  - destruct (tc =? 2); [|eauto].
    destruct (getCell_is_Ok b2 (fr, 0) H2) as [rk ->].
    destruct (setCell_ex b2 (fr, 0) None H2) as (b3 & -> & _ & _ & R3).
    destruct (setCell_ex b3 (fr, 3) rk (proj2 (R3 fr) H2)) as (b4 & -> & _).
    eauto.
Qed.

Lemma executeEnPassant_total (board : Board) from to p :
  is_Some (getRow board (fst from)) ->
  is_Some (getRow board (fst to)) ->
  fst to = fst from + direction (color p) ->
  exists r, executeEnPassant board from to p = Ok r.
Proof.
  intros Hrf Hrt Hdir. apply getRow_copyBoard_is_Some in Hrf, Hrt.
  destruct to as [tr tc]. cbn [fst snd] in *.
  assert (Hcap : (if PieceColor_eqb (color p) white then tr + 1 else tr - 1)
                 = fst from).
  { destruct (color p); simpl in *; lia. }
  unfold executeEnPassant. rewrite Hcap.
  destruct (setCell_ex (copyBoard board) from None Hrf)
    as (b1 & -> & _ & _ & R1).
  destruct (setCell_ex b1 (tr, tc) (Some p) (proj2 (R1 tr) Hrt))
    as (b2 & Hb2 & _ & _ & R2).
  result_simpl. rewrite Hb2.
  assert (H2 : is_Some (getRow b2 (fst from))) by (apply R2, R1; exact Hrf).
  destruct (getCell_is_Ok b2 (fst from, tc) H2) as [x ->].
  destruct (setCell_ex b2 (fst from, tc) None H2) as (b3 & -> & _).
  eauto.
Qed.

Lemma isEnPassantMove_direction from to p gs :
  isEnPassantMove from to p gs = true ->
  fst to = fst from + direction (color p).
Proof.
  unfold isEnPassantMove.
  destruct (PieceType_eqb (type p) pawn); cbn [negb]; [|discriminate].
  destruct (enPassantTarget gs); [|discriminate].
  rewrite !andb_true_iff. intros [[_ H] _]. apply Z.eqb_eq. exact H.
Qed.

Lemma executeMove_total now gs from to mp pt :
  wfBoard (board gs) -> 0 <= fst from < 8 -> 0 <= fst to < 8 ->
  exists s', executeMove now gs from to mp pt = Ok s'.
Proof.
  intros Hwf Hf Ht.
  pose proof (wfBoard_row _ _ Hwf Hf) as Hrf.
  pose proof (wfBoard_row _ _ Hwf Ht) as Hrt.
  unfold executeMove.
  destruct (getCell_is_Ok (copyBoard (board gs)) to
              (proj2 (getRow_copyBoard_is_Some _ _) Hrt)) as [cp ->].
  result_simpl.
  destruct (isCastlingMove from to mp).
  - destruct (executeCastling_total (copyBoard (board gs)) from to
                (proj2 (getRow_copyBoard_is_Some _ _) Hrf)) as [nb ->].
    eauto.
  - destruct (isEnPassantMove from to mp gs) eqn:He.
    + destruct (executeEnPassant_total (copyBoard (board gs)) from to mp
                  (proj2 (getRow_copyBoard_is_Some _ _) Hrf)
                  (proj2 (getRow_copyBoard_is_Some _ _) Hrt)
                  (isEnPassantMove_direction _ _ _ _ He)) as [[nb cap] ->].
      eauto.
    + apply getRow_copyBoard_is_Some in Hrf, Hrt.
      destruct (setCell_ex (copyBoard (board gs)) from None Hrf)
        as (b1 & -> & _ & _ & R1).
      destruct (setCell_ex b1 to (Some mp) (proj2 (R1 (fst to)) Hrt))
        as (b2 & -> & _ & _ & R2).
      destruct pt as [t|]; [|eauto].
      destruct (setCell_ex b2 to (Some (mkPiece t (color mp)))
                  (proj2 (R2 (fst to)) (proj2 (R1 (fst to)) Hrt)))
        as (b3 & -> & _).
      eauto.
Qed.

(** X15: the list of legal destinations.  On a board of 8 rows, for a
    source square whose row exists, [getValidMovesForPiece] succeeds and
    its result lists, without repetition, exactly the squares of the
    board the validator accepts. *)
Theorem getValidMovesForPiece_lists_legal_destinations
    (board : Board) gs from :
  length board = 8%nat -> 0 <= fst from < 8 ->
  exists vm,
    getValidMovesForPiece gs from board = Ok vm /\
    (forall to, In to vm <->
       isSquareOnBoard to = true /\
       isValidMove from to board (Some gs) = Ok true) /\
    List.NoDup vm.
Proof.
  intros Hlen Hf. unfold getValidMovesForPiece.
  destruct (filterValidMoves_total board gs from allSquares Hlen Hf
              allSquares_on_board) as [vm Hvm].
  exists vm. split; [exact Hvm|].
  destruct (filterValidMoves_spec _ _ _ _ _ Hvm) as [Hin Hnd].
  split; [|exact (Hnd allSquares_NoDup)].
  intros to. rewrite Hin. split; intros [H1 H2]; split; try exact H2.
  - pose proof allSquares_on_board as Hall. rewrite Forall_forall in Hall.
    apply Hall, list_elem_of_In, H1.
  - apply allSquares_complete, H1.
Qed.

(** The e-pawn on the initial board. *)
Lemma getValidMovesForPiece_lists_legal_destinations_witness :
  exists vm,
    getValidMovesForPiece createInitialGameState (6, 4) createInitialBoard = Ok vm /\
    (forall to, In to vm <->
       isSquareOnBoard to = true /\
       isValidMove (6, 4) to createInitialBoard (Some createInitialGameState)
       = Ok true) /\
    List.NoDup vm.
Proof.
  apply (getValidMovesForPiece_lists_legal_destinations createInitialBoard
           createInitialGameState (6, 4)).
  - reflexivity.
  - simpl. lia.
Defined.

Lemma isValidMove_ext from to (board : Board) g1 g2 :
  castlingRights g1 = castlingRights g2 ->
  enPassantTarget g1 = enPassantTarget g2 ->
  isValidMove from to board (Some g1) = isValidMove from to board (Some g2).
Proof.
  intros H1 H2. destruct from as [fr fc], to as [tr tc].
  unfold isValidMove, isValidPawnMove, isValidKingMove.
  rewrite H1, H2. reflexivity.
Qed.

Lemma getValidMovesForPiece_ext from (board : Board) g1 g2 :
  castlingRights g1 = castlingRights g2 ->
  enPassantTarget g1 = enPassantTarget g2 ->
  getValidMovesForPiece g1 from board = getValidMovesForPiece g2 from board.
Proof.
  intros H1 H2. unfold getValidMovesForPiece.
  induction allSquares as [|to tos IH]; simpl; [reflexivity|].
  rewrite (isValidMove_ext from to board g1 g2 H1 H2), IH. reflexivity.
Qed.

Lemma uiInvariant_initial : uiInvariant createInitialGameState.
Proof.
  split; [exact wfBoard_initial|]. split; [intros pp [=] | reflexivity].
Qed.

Lemma uiInvariant_step s ev :
  onBoardEvent ev -> uiInvariant s -> uiInvariant (step s ev).
Proof.
  intros Hev (Hwf & Hpp & Hsel).
  generalize (step_stepKind s ev). generalize (step s ev).
  intros s' K. destruct K; unfold onBoardEvent in Hev; cbn [snd] in Hev.
  - split; [exact Hwf|]. split; assumption.
  - split; [exact Hwf|]. split; [exact Hpp | reflexivity].
  - split; [exact Hwf|]. split; [exact Hpp|]. cbn [selectedSquare withSelection].
    split; [exact Hev|].
    etransitivity; [|exact H1]. apply getValidMovesForPiece_ext; reflexivity.
  - split; [exact Hwf|]. split.
    + intros pp [= <-]. exact Hev.
    + cbn [selectedSquare withPromotionPending board validMoves].
      rewrite H in Hsel |- *. destruct Hsel as [Hon Hvm]. split; [exact Hon|].
      etransitivity; [|exact Hvm]. apply getValidMovesForPiece_ext; reflexivity.
  - rewrite H in Hsel. destruct Hsel as [Hon _].
    apply isSquareOnBoard_range in Hon, Hev.
    split; [|split; [intros pp [=] | reflexivity]].
    exact (executeMove_wf _ _ _ _ _ _ _ Hwf (proj2 Hon) (proj2 Hev) H3).
  - rewrite H0 in Hsel. destruct Hsel as [Hon _].
    pose proof (Hpp _ H) as Hto.
    apply isSquareOnBoard_range in Hon, Hto.
    split; [|split; [intros pp [=] | reflexivity]].
    exact (executeMove_wf _ _ _ _ _ _ _ Hwf (proj2 Hon) (proj2 Hto) H2).
  - split; [exact Hwf|]. split; [intros pp [=] | reflexivity].
  - exact uiInvariant_initial.
Qed.

Lemma uiInvariant_run evs :
  Forall onBoardEvent evs -> uiInvariant (run createInitialGameState evs).
Proof.
  intros Hevs.
  apply (run_invariant onBoardEvent uiInvariant);
    [intros s ev; apply uiInvariant_step | exact Hevs | exact uiInvariant_initial].
Qed.

Lemma existsb_isSameSquare vm sq :
  existsb (fun move => isSameSquare move sq) vm = true <-> In sq vm.
Proof.
  rewrite existsb_exists. split.
  - intros (x & Hin & Hx). apply isSameSquare_eq in Hx. subst. exact Hin.
  - intros Hin. exists sq. split; [exact Hin | apply isSameSquare_refl].
Qed.

Lemma handleSquareClick_total now s sq :
  uiInvariant s -> isSquareOnBoard sq = true ->
  exists s', handleSquareClick now s sq = Ok s'.
Proof.
  intros (Hwf & Hpp & Hsel) Hsq. pose proof Hwf as [Hlen _].
  apply isSquareOnBoard_range in Hsq. destruct Hsq as [Hr Hc].
  unfold handleSquareClick.
  destruct sq as [r c]. cbn [fst snd] in *.
  destruct (getCell_total (board s) r c Hlen Hr) as [target ->]. result_simpl.
  assert (Hselect : exists s', selectSquare s (r, c) = Ok s').
  { unfold selectSquare, getValidMovesForPiece.
    destruct (filterValidMoves_total (board s) s (r, c) allSquares Hlen Hr
                allSquares_on_board) as [vm ->].
    result_simpl. eauto. }
  destruct (selectedSquare s) as [sel|]; [|destruct (ownPiece s target); eauto].
  destruct Hsel as [Hon _]. apply isSquareOnBoard_range in Hon.
  destruct Hon as [Hsr Hsc].
  destruct (isSameSquare sel (r, c)); [eauto|].
  destruct (isValidMove_total (board s) (Some s) sel (r, c) Hlen Hsr Hr) as [b ->].
  destruct b; [|destruct (ownPiece s target); eauto].
  destruct sel as [sr sc]. cbn [fst snd] in *.
  destruct (getCell_total (board s) sr sc Hlen Hsr) as [mp ->].
  destruct mp as [mp|]; [|eauto].
  destruct (isPromotionMove (sr, sc) (r, c) mp); [eauto|].
  apply executeMove_total; assumption.
Qed.

Lemma handlePromotion_total now s t :
  uiInvariant s -> exists s', handlePromotion now s t = Ok s'.
Proof.
  intros (Hwf & Hpp & Hsel). pose proof Hwf as [Hlen _].
  unfold handlePromotion.
  destruct (promotionPending s) as [pp|]; [|eauto].
  destruct (selectedSquare s) as [[sr sc]|]; [|eauto].
  destruct Hsel as [Hon _]. apply isSquareOnBoard_range in Hon.
  destruct Hon as [Hsr Hsc]. cbn [fst snd] in *.
  destruct (getCell_total (board s) sr sc Hlen Hsr) as [mp ->]. result_simpl.
  destruct mp as [mp|]; [|eauto].
  pose proof (Hpp pp eq_refl) as Hto. apply isSquareOnBoard_range in Hto.
  apply executeMove_total; [assumption | assumption | tauto].
Qed.

(** X16: on the board nothing throws and the board keeps its shape.
    After any sequence of actions whose clicks land on squares of the
    board, the board still has 8 rows of 8 cells, every further click on
    a square of the board is handled without exception, and so is every
    choice of a promoted piece. *)
Theorem board_stays_8_by_8_and_handlers_never_throw (evs : list (Z * Action)) :
  Forall onBoardEvent evs ->
  wfBoard (board (run createInitialGameState evs)) /\
  (forall now sq, isSquareOnBoard sq = true ->
     exists s', handleSquareClick now (run createInitialGameState evs) sq = Ok s') /\
  (forall now t,
     exists s', handlePromotion now (run createInitialGameState evs) t = Ok s').
Proof.
  intros Hevs. pose proof (uiInvariant_run evs Hevs) as Hinv.
  split; [exact (proj1 Hinv)|]. split.
  - intros now sq Hsq. apply handleSquareClick_total; assumption.
  - intros now t. apply handlePromotion_total; assumption.
Qed.

(** After the two clicks of 1. e4. *)
Lemma board_stays_8_by_8_and_handlers_never_throw_witness :
  wfBoard (board (run createInitialGameState (clicks [(6, 4); (4, 4)]))) /\
  (forall now sq, isSquareOnBoard sq = true ->
     exists s', handleSquareClick now
                  (run createInitialGameState (clicks [(6, 4); (4, 4)])) sq = Ok s') /\
  (forall now t,
     exists s', handlePromotion now
                  (run createInitialGameState (clicks [(6, 4); (4, 4)])) t = Ok s').
Proof.
  apply (board_stays_8_by_8_and_handlers_never_throw (clicks [(6, 4); (4, 4)])).
  repeat constructor.
Defined.

(** X17: the highlighted squares are the moves.  After any sequence of
    actions whose clicks land on the board, a click on a highlighted
    square takes the selected piece there (or, for a pawn reaching its
    last rank, defers exactly that move), and a click on any other
    square of the board changes neither the board, nor the history, nor
    the player to move, nor the pending promotion. *)
Theorem click_on_highlighted_square_plays_the_move
    (evs : list (Z * Action)) now sq :
  Forall onBoardEvent evs ->
  isSquareOnBoard sq = true ->
  exists s',
    handleSquareClick now (run createInitialGameState evs) sq = Ok s' /\
    if isSquareValidMove (run createInitialGameState evs) sq
    then exists sel,
           selectedSquare (run createInitialGameState evs) = Some sel /\
           playsOrDefers (run createInitialGameState evs) sel sq s'
    else nothingCommitted (run createInitialGameState evs) s' /\
         promotionPending s'
         = promotionPending (run createInitialGameState evs).
Proof.
  intros Hevs Hsq. pose proof (uiInvariant_run evs Hevs) as Hinv.
  set (s := run createInitialGameState evs) in *.
  destruct (handleSquareClick_total now s sq Hinv Hsq) as [s' Hs'].
  exists s'. split; [exact Hs'|].
  destruct Hinv as (Hwf & Hpp & Hsel).
  assert (Hlegal : forall sel, selectedSquare s = Some sel ->
            (In sq (validMoves s) <->
             isValidMove sel sq (board s) (Some s) = Ok true)).
  { intros sel E. rewrite E in Hsel. destruct Hsel as [_ Hvm].
    unfold getValidMovesForPiece in Hvm.
    destruct (filterValidMoves_spec _ _ _ _ _ Hvm) as [Hin _].
    rewrite Hin. split; [tauto|]. intros H. split; [|exact H].
    apply allSquares_complete, Hsq. }
  unfold isSquareValidMove.
  destruct (existsb (fun move => isSameSquare move sq) (validMoves s)) eqn:Hh.
  - apply existsb_isSameSquare in Hh.
    destruct (selectedSquare s) as [sel|] eqn:E;
      [|rewrite Hsel in Hh; destruct Hh].
    exists sel. split; [reflexivity|].
    pose proof (proj1 (Hlegal sel eq_refl) Hh) as Hvalid.
    destruct (isValidMove_true_inv _ _ _ _ Hvalid) as (mp & tp & Hmp & Htp & _).
    unfold handleSquareClick in Hs'.
    rewrite Htp, E in Hs'. result_simpl.
    rewrite (isValidMove_true_distinct _ _ _ _ Hvalid), Hvalid, Hmp in Hs'.
    destruct (isPromotionMove sel sq mp).
    + injection Hs' as <-. right. exists (color mp). repeat split.
    + destruct (executeMove_committed _ _ _ _ _ _ _ Hs') as (nb & cp & ->).
      left. eexists. repeat split.
  - assert (Hnot : ~ In sq (validMoves s)).
    { intros Hin. apply existsb_isSameSquare in Hin. congruence. }
    assert (K : stepKind s (now, Click sq) s').
    { pose proof (step_stepKind s (now, Click sq)) as K.
      cbn [step] in K. rewrite Hs' in K. exact K. }
    inversion K; subst; try (repeat split; reflexivity).
    + exfalso. apply Hnot. eapply Hlegal; eassumption.
    + exfalso. apply Hnot. eapply Hlegal; eassumption.
Qed.

(** The e-pawn selected on the initial board, and the click on e4. *)
Lemma click_on_highlighted_square_plays_the_move_witness :
  exists s',
    handleSquareClick 0 (run createInitialGameState (clicks [(6, 4)])) (4, 4)
      = Ok s' /\
    if isSquareValidMove (run createInitialGameState (clicks [(6, 4)])) (4, 4)
    then exists sel,
           selectedSquare (run createInitialGameState (clicks [(6, 4)])) = Some sel /\
           playsOrDefers (run createInitialGameState (clicks [(6, 4)])) sel (4, 4) s'
    else nothingCommitted (run createInitialGameState (clicks [(6, 4)])) s' /\
         promotionPending s'
         = promotionPending (run createInitialGameState (clicks [(6, 4)])).
Proof.
  apply (click_on_highlighted_square_plays_the_move (clicks [(6, 4)]) 0 (4, 4)).
  - repeat constructor.
  - reflexivity.
Defined.

(** ** Notation *)

(** X18: on the board the notation of a square names it: two squares of
    the board with the same notation are the same square. *)
Theorem squareToNotation_injective_on_board (a b : Square) :
  isSquareOnBoard a = true -> isSquareOnBoard b = true ->
  squareToNotation a = squareToNotation b -> a = b.
Proof.
  intros Ha Hb Heq.
  assert (Hall : forallb (fun x =>
                   forallb (fun y =>
                     implb (String.eqb (squareToNotation x) (squareToNotation y))
                           (isSameSquare x y)) allSquares) allSquares = true)
    by (vm_compute; reflexivity).
  rewrite List.forallb_forall in Hall.
  specialize (Hall a (allSquares_complete a Ha)).
  rewrite List.forallb_forall in Hall.
  specialize (Hall b (allSquares_complete b Hb)).
  rewrite Heq, String.eqb_refl in Hall. simpl in Hall.
  apply isSameSquare_eq. exact Hall.
Qed.

(** e4 is e4. *)
Lemma squareToNotation_injective_on_board_witness : (4, 4) = ((4, 4) : Square).
Proof.
  apply (squareToNotation_injective_on_board (4, 4) (4, 4)); reflexivity.
Defined.

(** X19: the notation does not say where a piece comes from.  For a
    move that is not castling, made by a piece other than a pawn, or by
    a pawn that captures nothing, the notation is the same from whatever
    square the move starts: two knights that can reach the same square
    are written alike. *)
Theorem notation_ignores_the_origin (from1 from2 to : Square) (p : ChessPiece)
    (cap : option ChessPiece) (ep promo : bool) (pt : option string) :
  type p <> pawn \/ (cap = None /\ ep = false) ->
  generateMoveNotation from1 to p cap false ep promo pt
  = generateMoveNotation from2 to p cap false ep promo pt.
Proof.
  intros H. unfold generateMoveNotation.
  destruct (PieceType_eqb (type p) pawn) eqn:E.
  - destruct H as [H | [-> ->]]; [|reflexivity].
    apply PieceType_eqb_eq in E. contradiction.
  - reflexivity.
Qed.

(** The two white knights, both able to reach d2 once it is free. *)
Lemma notation_ignores_the_origin_witness :
  generateMoveNotation (7, 1) (6, 3) (mkPiece knight white) None
                       false false false None
  = generateMoveNotation (5, 5) (6, 3) (mkPiece knight white) None
                         false false false None.
Proof.
  apply (notation_ignores_the_origin (7, 1) (5, 5) (6, 3) (mkPiece knight white)
           None false false None).
  left. discriminate.
Defined.

(** ** The move list *)

Lemma groupLoop_length fuel moves i : (length (groupLoop fuel moves i) <= fuel)%nat.
Proof.
  revert i. induction fuel as [|fuel IH]; intros i; simpl; [lia|].
  destruct (moves !! i); simpl; [|lia]. specialize (IH (i + 2)%nat). lia.
Qed.

Lemma groupLoop_lookup (moves : list Move) :
  forall (k fuel i : nat), (k < fuel)%nat ->
    groupLoop fuel moves i !! k
    = match moves !! (i + 2 * k)%nat with
      | Some w => Some (mkGroup (Z.of_nat (i + 2 * k) / 2 + 1) w
                                (moves !! (i + 2 * k + 1)%nat))
      | None => None
      end.
Proof.
  induction k as [|k IH]; intros fuel i Hfuel;
    (destruct fuel as [|fuel]; [lia|]); simpl.
  - rewrite Nat.add_0_r. destruct (moves !! i); reflexivity.
  - destruct (moves !! i) as [w|] eqn:Hi; simpl.
    + rewrite IH by lia.
      replace (i + 2 + 2 * k)%nat with (i + S (k + S (k + 0)))%nat by lia.
      reflexivity.
    + apply lookup_ge_None in Hi.
      rewrite (lookup_ge_None_2 moves (i + S (k + S (k + 0)))) by lia.
      reflexivity.
Qed.

(** X20: the move list pairs the history.  Row [k] of [MoveHistory]
    exists exactly when the history has a move of index [2k]; it then
    bears the number [k + 1], shows that move in the white column and
    the move of index [2k + 1], if there is one, in the black column.
    So no move is dropped or shown twice, and only the last row can have
    an empty black column. *)
Theorem groupedMoves_pairs_the_history (moves : list Move) (k : nat) :
  groupedMoves moves !! k
  = match moves !! (2 * k)%nat with
    | Some w => Some (mkGroup (Z.of_nat k + 1) w (moves !! (2 * k + 1)%nat))
    | None => None
    end.
Proof.
  unfold groupedMoves.
  destruct (Nat.lt_ge_cases k (length moves)) as [Hk|Hk].
  - rewrite (groupLoop_lookup moves k (length moves) 0 Hk). cbn [Nat.add].
    replace (Z.of_nat (2 * k) / 2) with (Z.of_nat k); [reflexivity|].
    rewrite Nat2Z.inj_mul, Z.mul_comm, Z.div_mul by discriminate. reflexivity.
  - rewrite (lookup_ge_None_2 moves (2 * k)) by lia.
    apply lookup_ge_None_2.
    pose proof (groupLoop_length (length moves) moves 0). lia.
Qed.

Lemma alternating_lookup c ms i m :
  alternating c ms -> ms !! i = Some m ->
  color (piece m) = Nat.iter i otherPlayer c.
Proof.
  revert c i. induction ms as [|m0 ms IH]; intros c i Ha Hi; [discriminate|].
  destruct Ha as [H0 Ha]. destruct i as [|i]; simpl in *.
  - injection Hi as <-. exact H0.
  - rewrite (IH _ _ Ha Hi). clear. induction i as [|i IHi]; simpl;
      [reflexivity | rewrite IHi; reflexivity].
Qed.

Lemma iter_otherPlayer_double c k :
  Nat.iter (2 * k) otherPlayer c = c.
Proof.
  induction k as [|k IH]; [reflexivity|].
  replace (2 * S k)%nat with (S (S (2 * k))) by lia.
  change (otherPlayer (otherPlayer (Nat.iter (2 * k) otherPlayer c)) = c).
  rewrite IH. destruct c; reflexivity.
Qed.

(** X21: the columns of the move list tell the truth.  In every state
    reached from the initial one, each row of the move list shows a move
    of a white piece in its white column and, when the black column is
    filled, a move of a black piece there. *)
Theorem move_list_columns_match_colors (evs : list (Z * Action)) :
  Forall (fun g => color (piece (whiteMove g)) = white /\
                   forall b, blackMove g = Some b -> color (piece b) = black)
         (groupedMoves (moves (run createInitialGameState evs))).
Proof.
  destruct (turnInvariant_run evs _ turnInvariant_initial) as (Halt & _ & _).
  set (ms := moves (run createInitialGameState evs)) in *.
  apply Forall_lookup. unfold groupedMoves.
  intros k g Hg.
  assert (Hk : (k < length ms)%nat).
  { apply lookup_lt_Some in Hg. pose proof (groupLoop_length (length ms) ms 0). lia. }
  rewrite (groupLoop_lookup ms k (length ms) 0 Hk) in Hg. cbn [Nat.add] in Hg.
  destruct (ms !! (2 * k)%nat) as [w|] eqn:Hw; [|discriminate].
  injection Hg as <-. cbn [whiteMove blackMove]. split.
  - rewrite (alternating_lookup _ _ _ _ Halt Hw). apply iter_otherPlayer_double.
  - intros b Hb. rewrite (alternating_lookup _ _ _ _ Halt Hb).
    assert (E : forall n, Nat.iter (n + 1) otherPlayer white
                          = otherPlayer (Nat.iter n otherPlayer white)).
    { intros n. replace (n + 1)%nat with (S n) by lia. reflexivity. }
    rewrite E. change (k + (k + 0))%nat with (2 * k)%nat.
    rewrite iter_otherPlayer_double. reflexivity.
Qed.

(** ** The board as it is drawn *)

Lemma displayOrder_length {A} flipped (xs : list A) :
  length (displayOrder flipped xs) = length xs.
Proof. destruct flipped; [apply length_reverse | reflexivity]. Qed.

Lemma displayOrder_lookup {A} flipped (xs : list A) (index : nat) :
  length xs = 8%nat -> (index < 8)%nat ->
  displayOrder flipped xs !! index = xs !! Z.to_nat (actualIndex flipped index).
Proof.
  intros Hlen Hi. unfold displayOrder, actualIndex. destruct flipped.
  - rewrite reverse_lookup by lia. f_equal. lia.
  - f_equal. lia.
Qed.

(** X23: every square is drawn where it is.  On a board of 8 rows of 8
    cells, flipped or not, each square drawn carries the coordinates of
    a square of the board together with the piece that stands on that
    very square and its shade, and every square of the board is drawn:
    the square a click reports is the square of the piece clicked. *)
Theorem renderBoard_shows_each_square_where_it_is (flipped : bool) (board : Board) :
  wfBoard board ->
  (forall i j rowViews v,
     renderBoard flipped board !! i = Some rowViews ->
     rowViews !! j = Some v ->
     viewSquare v = (actualIndex flipped i, actualIndex flipped j) /\
     isSquareOnBoard (viewSquare v) = true /\
     getCell board (viewSquare v) = Ok (viewPiece v) /\
     viewLight v = isLight (viewSquare v)) /\
  (forall sq, isSquareOnBoard sq = true ->
     exists i j rowViews v,
       renderBoard flipped board !! i = Some rowViews /\
       rowViews !! j = Some v /\ viewSquare v = sq).
Proof.
  intros [Hlen Hrows]. rewrite Forall_lookup in Hrows.
  assert (Hact : forall n : nat, (n < 8)%nat -> 0 <= actualIndex flipped n < 8)
    by (intros n Hn; unfold actualIndex; destruct flipped; lia).
  split.
  - intros i j rowViews v Hi Hj. unfold renderBoard in Hi.
    apply list_lookup_imap_Some in Hi. destruct Hi as (row & Hrow & ->).
    apply list_lookup_imap_Some in Hj. destruct Hj as (piece & Hpiece & ->).
    cbn [viewSquare viewPiece viewLight].
    assert (Hi8 : (i < 8)%nat).
    { apply lookup_lt_Some in Hrow. rewrite displayOrder_length in Hrow. lia. }
    rewrite (displayOrder_lookup flipped board i Hlen Hi8) in Hrow.
    destruct (Hrows _ _ Hrow) as [Hl _].
    assert (Hj8 : (j < 8)%nat).
    { apply lookup_lt_Some in Hpiece. rewrite displayOrder_length in Hpiece. lia. }
    rewrite (displayOrder_lookup flipped (elems row) j Hl Hj8) in Hpiece.
    pose proof (Hact i Hi8) as Ha. pose proof (Hact j Hj8) as Hb.
    split; [reflexivity|]. split; [apply isSquareOnBoard_range; split; assumption|].
    split; [|reflexivity].
    unfold getCell, getRow. cbn [fst snd].
    replace (0 <=? actualIndex flipped i) with true by (symmetry; lia).
    rewrite Hrow. unfold rowGet.
    replace (0 <=? actualIndex flipped j) with true by (symmetry; lia).
    rewrite Hpiece. reflexivity.
  - intros [r c] Hsq. apply isSquareOnBoard_range in Hsq. cbn [fst snd] in Hsq.
    set (i := Z.to_nat (if flipped then 7 - r else r)).
    set (j := Z.to_nat (if flipped then 7 - c else c)).
    assert (Hi8 : (i < 8)%nat) by (unfold i; destruct flipped; lia).
    assert (Hj8 : (j < 8)%nat) by (unfold j; destruct flipped; lia).
    assert (Hai : actualIndex flipped i = r)
      by (unfold actualIndex, i; destruct flipped; lia).
    assert (Haj : actualIndex flipped j = c)
      by (unfold actualIndex, j; destruct flipped; lia).
    destruct (lookup_lt_is_Some_2 (displayOrder flipped board) i) as [row Hrow];
      [rewrite displayOrder_length; lia|].
    pose proof Hrow as Hrow'.
    rewrite (displayOrder_lookup flipped board i Hlen Hi8) in Hrow'.
    destruct (Hrows _ _ Hrow') as [Hl _].
    destruct (lookup_lt_is_Some_2 (displayOrder flipped (elems row)) j)
      as [piece Hpiece]; [rewrite displayOrder_length; lia|].
    exists i, j. eexists. eexists. split; [|split].
    + unfold renderBoard. apply list_lookup_imap_Some. eauto.
    + apply list_lookup_imap_Some. eauto.
    + cbn [viewSquare]. rewrite Hai, Haj. reflexivity.
Qed.

(** The initial board, seen from Black's side. *)
Lemma renderBoard_shows_each_square_where_it_is_witness :
  (forall i j rowViews v,
     renderBoard true createInitialBoard !! i = Some rowViews ->
     rowViews !! j = Some v ->
     viewSquare v = (actualIndex true i, actualIndex true j) /\
     isSquareOnBoard (viewSquare v) = true /\
     getCell createInitialBoard (viewSquare v) = Ok (viewPiece v) /\
     viewLight v = isLight (viewSquare v)) /\
  (forall sq, isSquareOnBoard sq = true ->
     exists i j rowViews v,
       renderBoard true createInitialBoard !! i = Some rowViews /\
       rowViews !! j = Some v /\ viewSquare v = sq).
Proof.
  apply (renderBoard_shows_each_square_where_it_is true createInitialBoard).
  split; [reflexivity|]. repeat constructor.
Defined.

(** ** Special moves, from the click to the new snapshot *)

(** X24: a committed castling is one atomic update.  For a king on
    column 4 of row [r] sent to column 6 (or 2) of that row,
    [executeMove] succeeds; the move is recorded as castling and written
    O-O (O-O-O); in the new board the king stands on column 6 (2), what
    stood on the corner column 7 (0) stands on column 5 (3), the king's
    square and the corner are empty and every other square is as before;
    and both castling rights of the king's color are gone. *)
Theorem committed_castling now gs r to k :
  getCell (board gs) (r, 4) = Ok (Some k) ->
  type k = king ->
  fst to = r ->
  snd to = 6 \/ snd to = 2 ->
  exists s' m,
    executeMove now gs (r, 4) to k None = Ok s' /\
    moves s' = moves gs ++ [m] /\
    isCastling m = true /\
    notation m = (if snd to =? 6 then "O-O"%string else "O-O-O"%string) /\
    getCell (board s') (r, 4) = Ok None /\
    getCell (board s') (r, snd to) = Ok (Some k) /\
    getCell (board s') (r, castledRookTo (snd to))
      = getCell (board gs) (r, castledRookFrom (snd to)) /\
    getCell (board s') (r, castledRookFrom (snd to)) = Ok None /\
    (forall sq, 0 <= snd sq ->
       sq <> (r, 4) -> sq <> (r, snd to) ->
       sq <> (r, castledRookTo (snd to)) -> sq <> (r, castledRookFrom (snd to)) ->
       getCell (board s') sq = getCell (board gs) sq) /\
    kingSideRight (castlingRights s') (color k) = false /\
    queenSideRight (castlingRights s') (color k) = false.
Proof.
  intros Hk Hking Hrow Hside. destruct to as [tr tc]. cbn [fst snd] in *. subst tr.
  assert (Hcastle : isCastlingMove (r, 4) (r, tc) k = true).
  { unfold isCastlingMove. rewrite Hking. cbn [fst snd PieceType_eqb negb].
    rewrite Z.eqb_refl. destruct Hside as [-> | ->]; reflexivity. }
  assert (Hk0 : getCell (copyBoard (board gs)) (r, 4) = Ok (Some k))
    by (rewrite getCell_copyBoard by (simpl; lia); exact Hk).
  destruct (executeCastling_frame (copyBoard (board gs)) r (r, tc) k Hk0 Hside)
    as (nb & Hnb & G4 & Gto & Grook & Gcorner & Gother).
  cbn [fst snd] in *.
  unfold executeMove. cbv zeta. rewrite Hcastle.
  destruct (getCell_is_Ok (copyBoard (board gs)) (r, tc)
              (getCell_Ok_row _ _ _ Hk0)) as [cp ->].
  unfold mbind, result_bind at 1. cbv beta iota. rewrite Hnb. result_simpl.
  eexists. eexists. split; [reflexivity|].
  cbn [moves board castlingRights isCastling notation].
  split; [reflexivity|]. split; [reflexivity|].
  split; [destruct Hside as [-> | ->]; reflexivity|].
  split; [exact G4|]. split; [exact Gto|].
  split; [rewrite Grook; apply getCell_copyBoard; cbn [snd];
          unfold castledRookFrom; destruct (tc =? 6); lia|].
  split; [exact Gcorner|].
  split; [intros sq Hc H1 H2 H3 H4; rewrite Gother by assumption;
          apply getCell_copyBoard, Hc|].
  unfold updateCastlingRights. cbn [from piece fst snd]. rewrite Hking.
  cbn [PieceType_eqb]. destruct (color k); split; reflexivity.
Qed.

(** White castling on the king's side after 1. e4 a6 2. Be2 b6 3. Nf3 c6. *)
Lemma committed_castling_witness :
  exists s' m,
    executeMove 0 readyToCastle (7, 4) (7, 6) (mkPiece king white) None = Ok s' /\
    moves s' = moves readyToCastle ++ [m] /\
    isCastling m = true /\
    notation m = (if snd (7, 6) =? 6 then "O-O"%string else "O-O-O"%string) /\
    getCell (board s') (7, 4) = Ok None /\
    getCell (board s') (7, snd (7, 6)) = Ok (Some (mkPiece king white)) /\
    getCell (board s') (7, castledRookTo (snd (7, 6)))
      = getCell (board readyToCastle) (7, castledRookFrom (snd (7, 6))) /\
    getCell (board s') (7, castledRookFrom (snd (7, 6))) = Ok None /\
    (forall sq, 0 <= snd sq ->
       sq <> (7, 4) -> sq <> (7, snd (7, 6)) ->
       sq <> (7, castledRookTo (snd (7, 6))) ->
       sq <> (7, castledRookFrom (snd (7, 6))) ->
       getCell (board s') sq = getCell (board readyToCastle) sq) /\
    kingSideRight (castlingRights s') (color (mkPiece king white)) = false /\
    queenSideRight (castlingRights s') (color (mkPiece king white)) = false.
Proof.
  apply (committed_castling 0 readyToCastle 7 (7, 6) (mkPiece king white)).
  - vm_compute. reflexivity.
  - reflexivity.
  - reflexivity.
  - left. reflexivity.
Defined.

(** X25: a committed en-passant capture.  When the classifier says en
    passant and the two rows exist, [executeMove] succeeds; the pawn
    stands on [to], [from] is empty, the square one rank behind [to] is
    emptied, what stood there is the captured piece of the move and goes
    to the captured lists, every other square is as before; the move is
    written with the file of origin, an x, the destination and the
    suffix " e.p."; and no en-passant target remains. *)
Theorem committed_en_passant now gs from to p :
  isEnPassantMove from to p gs = true ->
  is_Some (getRow (board gs) (fst from)) ->
  is_Some (getRow (board gs) (fst to)) ->
  0 <= snd to ->
  exists s' m,
    executeMove now gs from to p None = Ok s' /\
    moves s' = moves gs ++ [m] /\
    isEnPassant m = true /\
    notation m = (((tableAt FILES (snd from) ++ "x") ++ squareToNotation to)
                  ++ " e.p.")%string /\
    getCell (board gs) (capturedPawnSquare to p) = Ok (capturedPiece m) /\
    capturedPieces s' = pushCaptured (capturedPieces gs) (capturedPiece m) /\
    getCell (board s') from = Ok None /\
    getCell (board s') to = Ok (Some p) /\
    getCell (board s') (capturedPawnSquare to p) = Ok None /\
    (forall sq, 0 <= snd sq ->
       sq <> from -> sq <> to -> sq <> capturedPawnSquare to p ->
       getCell (board s') sq = getCell (board gs) sq) /\
    enPassantTarget s' = None.
Proof.
  intros Hep Hrf Hrt Hcol.
  pose proof (isEnPassantMove_direction _ _ _ _ Hep) as Hdir.
  assert (Hpawn : type p = pawn /\ Z.abs (snd from - snd to) = 1).
  { unfold isEnPassantMove in Hep.
    destruct (PieceType_eqb (type p) pawn) eqn:E; cbn [negb] in Hep;
      [|discriminate].
    apply PieceType_eqb_eq in E. split; [exact E|].
    destruct (enPassantTarget gs); [|discriminate].
    rewrite !andb_true_iff in Hep. apply Z.eqb_eq. tauto. }
  destruct Hpawn as [Hpawn Hdiag].
  assert (Hcastle : isCastlingMove from to p = false).
  { unfold isCastlingMove. rewrite Hpawn. reflexivity. }
  assert (Hcaprow : fst (capturedPawnSquare to p) = fst from)
    by (unfold capturedPawnSquare; cbn [fst]; lia).
  pose proof Hrf as Hrf0. pose proof Hrt as Hrt0.
  apply getRow_copyBoard_is_Some in Hrf0, Hrt0.
  assert (Hrc0 : is_Some (getRow (copyBoard (board gs))
                            (fst (capturedPawnSquare to p))))
    by (rewrite Hcaprow; exact Hrf0).
  destruct (executeEnPassant_frame (copyBoard (board gs)) from to p
              Hrf0 Hrt0 Hrc0 Hcol ltac:(lia))
    as (nb & cap & Hnb & Gcap & Gfrom & Gto & Gc & Gother).
  unfold executeMove. cbv zeta. rewrite Hcastle, Hep.
  destruct (getCell_is_Ok (copyBoard (board gs)) to Hrt0) as [cp ->].
  unfold mbind, result_bind at 1. cbv beta iota. rewrite Hnb. result_simpl.
  eexists. eexists. split; [reflexivity|].
  cbn [moves board capturedPieces capturedPiece isEnPassant notation enPassantTarget].
  split; [reflexivity|]. split; [reflexivity|].
  split.
  { rewrite Hpawn. cbn [PieceType_eqb negb]. rewrite orb_true_r. reflexivity. }
  split.
  { change (getCell (board gs) (capturedPawnSquare to p) = Ok cap).
    rewrite <- Gcap. symmetry. apply getCell_copyBoard. exact Hcol. }
  split; [reflexivity|].
  split; [exact Gfrom|]. split; [exact Gto|]. split; [exact Gc|].
  split; [intros sq Hc H1 H2 H3; change (getCell nb sq = getCell (board gs) sq);
          rewrite Gother by assumption; apply getCell_copyBoard, Hc|].
  unfold updateEnPassantTarget. simpl. rewrite Hpawn.
  cbn [PieceType_eqb andb].
  destruct to as [tr tc]. cbn [fst snd] in *.
  replace (Z.abs (fst from - tr) =? 2) with false; [reflexivity|].
  symmetry. apply Z.eqb_neq. destruct (color p); simpl in Hdir; lia.
Qed.

(** The white pawn of e5 taking the d-pawn in passing, after
    1. e4 a6 2. e5 d5. *)
Lemma committed_en_passant_witness :
  exists s' m,
    executeMove 0 enPassantReady (3, 4) (2, 3) (mkPiece pawn white) None = Ok s' /\
    moves s' = moves enPassantReady ++ [m] /\
    isEnPassant m = true /\
    notation m = (((tableAt FILES (snd (3, 4)) ++ "x") ++ squareToNotation (2, 3))
                  ++ " e.p.")%string /\
    getCell (board enPassantReady)
            (capturedPawnSquare (2, 3) (mkPiece pawn white))
      = Ok (capturedPiece m) /\
    capturedPieces s'
      = pushCaptured (capturedPieces enPassantReady) (capturedPiece m) /\
    getCell (board s') (3, 4) = Ok None /\
    getCell (board s') (2, 3) = Ok (Some (mkPiece pawn white)) /\
    getCell (board s') (capturedPawnSquare (2, 3) (mkPiece pawn white)) = Ok None /\
    (forall sq, 0 <= snd sq ->
       sq <> (3, 4) -> sq <> (2, 3) ->
       sq <> capturedPawnSquare (2, 3) (mkPiece pawn white) ->
       getCell (board s') sq = getCell (board enPassantReady) sq) /\
    enPassantTarget s' = None.
Proof.
  apply (committed_en_passant 0 enPassantReady (3, 4) (2, 3) (mkPiece pawn white));
    try (vm_compute; eauto; fail); simpl; lia.
Defined.

(** ** What every reachable snapshot satisfies *)

(** X26: the selection always belongs to the player to move.  In every
    state reached from the initial one, the selected square, if there is
    one, holds a piece, and that piece has the color of the player whose
    turn it is: after a move the selection is cleared, so the opponent's
    piece is never left selected. *)
Theorem selected_piece_belongs_to_player_to_move (evs : list (Z * Action)) :
  selectionOwned (run createInitialGameState evs).
Proof.
  exact (proj2 (proj2 (turnInvariant_run evs _ turnInvariant_initial))).
Qed.

(** X27: no pawn is recorded on its last rank without a promotion.  In
    every state reached from the initial one, each move of the history
    that takes a pawn to its last rank carries a promoted type and is
    flagged as a promotion: a click never commits such a move, only the
    choice of a piece does. *)
Theorem pawn_reaching_last_rank_is_recorded_as_promotion
    (evs : list (Z * Action)) :
  Forall (fun m => isPromotionMove (from m) (to m) (piece m) = true ->
                   isPromotion m = true /\ is_Some (promotedTo m))
         (moves (run createInitialGameState evs)).
Proof.
  apply (run_invariant_all
           (fun s => Forall (fun m =>
              isPromotionMove (from m) (to m) (piece m) = true ->
              isPromotion m = true /\ is_Some (promotedTo m)) (moves s)));
    [|constructor].
  intros s ev Hs. generalize (step_stepKind s ev). generalize (step s ev).
  intros s' K. destruct K; simpl; try exact Hs; try apply Forall_nil_2;
    (apply Forall_app; split; [exact Hs|]);
    (apply Forall_cons_2; [|apply Forall_nil_2]); simpl; intros Hp.
  - congruence.
  - split; [reflexivity | eauto].
Qed.

(** * The en-passant window on the moves the program records (C7) *)

Lemma setCell_length (board : Board) sq v board' :
  setCell board sq v = Ok board' -> length board' = length board.
Proof.
  unfold setCell. destruct (getRow board (fst sq)); [|discriminate].
  intros [= <-]. apply length_insert.
Qed.

Lemma copyBoard_length (board : Board) : length (copyBoard board) = length board.
Proof. unfold copyBoard. apply length_map. Qed.

Lemma executeCastling_length (board : Board) from to board' :
  executeCastling board from to = Ok board' -> length board' = length board.
Proof.
  destruct from as [fr fc], to as [tr tc].
  unfold executeCastling. cbn [fst snd]. intros H.
  pose proof (copyBoard_length board) as L0.
  inv_bind H. destruct (truthy a); cbn [negb] in H;
    [|injection H as <-; exact L0].
  inv_bind H. inv_bind H.
  pose proof (setCell_length _ _ _ _ Ha0) as L1.
  pose proof (setCell_length _ _ _ _ Ha1) as L2.
  destruct (tc =? 6).
  - inv_bind H. inv_bind H.
    pose proof (setCell_length _ _ _ _ Ha3) as L3.
    pose proof (setCell_length _ _ _ _ H) as L4. congruence.
  - destruct (tc =? 2); [|injection H as <-; congruence].
    inv_bind H. inv_bind H.
    pose proof (setCell_length _ _ _ _ Ha3) as L3.
    pose proof (setCell_length _ _ _ _ H) as L4. congruence.
Qed.

Lemma executeEnPassant_length (board : Board) from to p board' captured :
  executeEnPassant board from to p = Ok (board', captured) ->
  length board' = length board.
Proof.
  destruct to as [tr tc]. unfold executeEnPassant. intros H.
  pose proof (copyBoard_length board) as L0.
  inv_bind H. inv_bind H. inv_bind H. inv_bind H. injection H as <- _.
  pose proof (setCell_length _ _ _ _ Ha) as L1.
  pose proof (setCell_length _ _ _ _ Ha0) as L2.
  pose proof (setCell_length _ _ _ _ Ha2) as L3. congruence.
Qed.

Lemma executeMove_length now gs from to mp pt s' :
  executeMove now gs from to mp pt = Ok s' ->
  length (board s') = length (board gs).
Proof.
  unfold executeMove. intros H.
  inv_bind H. inv_bind H. destruct a0 as [nb cp]. injection H as <-.
  cbn [board]. pose proof (copyBoard_length (board gs)) as L0.
  destruct (isCastlingMove from to mp).
  - inv_bind Ha0. injection Ha0 as <- _.
    rewrite (executeCastling_length _ _ _ _ Ha1). exact L0.
  - destruct (isEnPassantMove from to mp gs).
    + rewrite (executeEnPassant_length _ _ _ _ _ _ Ha0). exact L0.
    + inv_bind Ha0. inv_bind Ha0.
      pose proof (setCell_length _ _ _ _ Ha1) as L1.
      pose proof (setCell_length _ _ _ _ Ha2) as L2.
      destruct pt as [t|].
      * inv_bind Ha0. injection Ha0 as <- _.
        pose proof (setCell_length _ _ _ _ Ha3) as L3. congruence.
      * injection Ha0 as <- _. congruence.
Qed.

(** A move record reads as the specification words the window as soon as
    a pawn whose rank changes by two has gone forward. *)
Lemma enPassantWindowClaim_forward (m : Move) :
  (type (piece m) = pawn ->
   Z.abs (fst (from m) - fst (to m)) = 2 ->
   fst (to m) = fst (from m) + 2 * direction (color (piece m))) ->
  enPassantWindowClaim m.
Proof.
  intros Hfw. unfold enPassantWindowClaim.
  destruct (isTwoRankAdvance m) eqn:Hadv.
  - apply updateEnPassantTarget_read. exact Hadv.
  - destruct (updateEnPassantTarget m) as [t|] eqn:Hu; [|reflexivity].
    exfalso.
    assert (Hsome : updateEnPassantTarget m <> None) by (rewrite Hu; discriminate).
    apply (proj1 (proj1 (proj2 (updateEnPassantTarget_read m)))) in Hsome.
    destruct Hsome as [Hp Hd].
    unfold isTwoRankAdvance in Hadv. rewrite Hp in Hadv. cbn [PieceType_eqb andb] in Hadv.
    apply Z.eqb_neq in Hadv. apply Hadv, Hfw; assumption.
Qed.

(** The validator lets a pawn go one or two ranks forward, nothing else. *)
Lemma isValidMove_pawn_forward from to (board : Board) gs p :
  getCell board from = Ok (Some p) ->
  type p = pawn ->
  isValidMove from to board gs = Ok true ->
  fst to = fst from + direction (color p) \/
  fst to = fst from + 2 * direction (color p).
Proof.
  intros Hf Hp Hv.
  apply (isValidMove_true_iff _ _ _ _ _ Hf) in Hv.
  destruct Hv as [(target & Ht & _) Hv]. rewrite Hp in Hv.
  destruct from as [fr fc], to as [tr tc].
  rewrite (isValidPawnMove_read _ _ _ _ _ _ _ _ Ht) in Hv.
  injection Hv as Hv. cbn [fst].
  apply orb_true_iff in Hv. destruct Hv as [Hv | Hv].
  - rewrite !andb_true_iff, orb_true_iff in Hv.
    destruct Hv as [[_ [H | H]] _].
    + left. apply Z.eqb_eq. exact H.
    + right. apply andb_true_iff in H. apply Z.eqb_eq. tauto.
  - rewrite !andb_true_iff in Hv. left. apply Z.eqb_eq. tauto.
Qed.

Lemma isPromotionMove_finalRank from to p :
  isPromotionMove from to p = true -> fst to = finalRank (color p).
Proof.
  unfold isPromotionMove. destruct (PieceType_eqb (type p) pawn); cbn [negb];
    [|discriminate].
  destruct (color p); cbn [PieceColor_eqb andb orb finalRank];
    rewrite ?orb_false_r; intros H; apply Z.eqb_eq; exact H.
Qed.

Lemma windowInvariant_initial : windowInvariant createInitialGameState.
Proof.
  split; [exact turnInvariant_initial|]. split; [reflexivity|].
  split; [intros pending [=]|]. split; [apply Forall_nil_2 | reflexivity].
Qed.

Lemma windowInvariant_step s ev : windowInvariant s -> windowInvariant (step s ev).
Proof.
  intros (Hturn & Hlen & Hpend & Hall & Htarget).
  split; [apply turnInvariant_step, Hturn|].
  destruct Hturn as (_ & _ & Hown).
  generalize (step_stepKind s ev). generalize (step s ev). intros s' K.
  destruct K as [ev | now sq | now sq p vm Hp Hc Hvm
                 | now sq sel mp Hsel Hv Hmp Hpromo
                 | now sq sel mp newBoard captured Hsel Hv Hmp Hpromo Hexec
                 | now t pending sel mp newBoard captured Hpp Hsel Hmp Hexec
                 | now | now].
  - repeat split; assumption.
  - repeat split; assumption.
  - repeat split; assumption.
  - (* the promotion is deferred *)
    split; [exact Hlen|]. split; [|split; assumption].
    intros pending [= <-]. cbn [square currentPlayer withPromotionPending].
    destruct (Hown sel Hsel) as (p & Hp & Hc).
    rewrite Hmp in Hp. injection Hp as <-. rewrite <- Hc.
    exact (isPromotionMove_finalRank _ _ _ Hpromo).
  - (* a click commits a move the validator accepted *)
    split; [rewrite <- Hlen; exact (executeMove_length _ _ _ _ _ _ _ Hexec)|].
    split; [intros pending [=]|].
    split; [|unfold lastMoveWindow; simpl; rewrite last_snoc; reflexivity].
    simpl. apply Forall_app. split; [exact Hall|].
    apply Forall_cons_2; [|apply Forall_nil_2].
    apply enPassantWindowClaim_forward. simpl. intros Hpawn Hd.
    destruct (isValidMove_pawn_forward _ _ _ _ _ Hmp Hpawn Hv) as [H | H];
      [|exact H].
    destruct (color mp); simpl in H; lia.
  - (* the choice of a piece commits the deferred move *)
    split; [rewrite <- Hlen; exact (executeMove_length _ _ _ _ _ _ _ Hexec)|].
    split; [intros pending' [=]|].
    split; [|unfold lastMoveWindow; simpl; rewrite last_snoc; reflexivity].
    simpl. apply Forall_app. split; [exact Hall|].
    apply Forall_cons_2; [|apply Forall_nil_2].
    apply enPassantWindowClaim_forward. simpl. intros Hpawn Hd.
    destruct (Hown sel Hsel) as (p & Hp & Hc).
    rewrite Hmp in Hp. injection Hp as <-.
    pose proof (Hpend pending Hpp) as Hrank. rewrite <- Hc in Hrank.
    destruct (getCell_Ok_row _ _ _ Hmp) as [row Hrow].
    apply getRow_Some_lt in Hrow. rewrite Hlen in Hrow.
    rewrite Hrank in *. destruct (color mp); simpl in *; lia.
  - repeat split; try assumption. intros pending [=].
  - exact (proj2 windowInvariant_initial).
Qed.

Lemma windowInvariant_run (evs : list (Z * Action)) :
  windowInvariant (run createInitialGameState evs).
Proof.
  apply (run_invariant_all windowInvariant);
    [intros s ev; apply windowInvariant_step | exact windowInvariant_initial].
Qed.

(** C7: [updateEnPassantTarget] on the moves the program records.  After
    any sequence of clicks, promotion choices, cancellations and new
    games, every move of the history -- the records [executeMove] hands to
    [updateEnPassantTarget] -- yields the square passed over (the rank
    between [from] and [to], in the file of arrival) exactly when it is a
    pawn's advance of two ranks, and none otherwise; and the target of
    the snapshot is the one of the last move alone: it lasts one ply.
    For any move record whatever, a pawn's advance of two ranks yields
    the square passed over. *)
Theorem updateEnPassantTarget_on_recorded_moves (evs : list (Z * Action)) :
  let s := run createInitialGameState evs in
  Forall enPassantWindowClaim (moves s) /\
  enPassantTarget s = windowAfter (moves s) /\
  (forall m, isTwoRankAdvance m = true ->
     updateEnPassantTarget m = Some (squarePassedOver m)).
Proof.
  intros s.
  destruct (windowInvariant_run evs) as (_ & _ & _ & Hall & Htarget).
  fold s in Hall, Htarget.
  split; [exact Hall|]. split; [|intros m; apply updateEnPassantTarget_read].
  rewrite Htarget. unfold lastMoveWindow, windowAfter.
  destruct (last (moves s)) as [m|] eqn:Hlast; [|reflexivity].
  apply last_Some in Hlast. destruct Hlast as [ms Hms].
  rewrite Hms in Hall. apply Forall_app in Hall. destruct Hall as [_ Hm].
  apply Forall_inv in Hm. unfold enPassantWindowClaim in Hm.
  destruct (isTwoRankAdvance m); exact Hm.
Qed.
